(** * fotoshare_album_downloader: a shallow embedding and its properties

    The development follows [fotoshare_album_downloader.py] function by
    function: [_login], [_absolute], [_is_image], [_extract_image_urls],
    [_download_one] and [main].

    A string is the sequence of the UTF-8 bytes of a Python text.  The
    delimiters the code looks for are ASCII characters, which no byte of a
    longer UTF-8 sequence equals; where the regular expressions go beyond
    ASCII (the letter [i] under [re.I], the class [\w]) the definitions say
    so.  The HTTP session, the HTML parser, [urllib.parse], the file system
    and the scheduling of the worker threads are capabilities of the
    environment ([Env]): the functions below are parametric in them, and
    every request and every file-system operation is recorded in the trace of
    the [World] they thread through.  A computation returns its result or the
    exception it raises, together with the world it leaves.

    The transfers of a batch run in worker threads: each one is a sequence
    of steps, one per effect, and a batch is run by interleaving the steps of
    the transfers in progress as the environment's schedule says.  Time-outs
    and the progress bar have no counterpart here. *)

From Stdlib Require Import Ascii ZArith.
From stdpp Require Import base option list strings pretty sorting gmap sets.

Local Open Scope Z_scope.

(** ** Text helpers: the [str] methods and the two regular expressions *)

Module Text.

Definition newline : ascii := ascii_of_nat 10.

Definition is_upper (c : ascii) : bool :=
  (65 <=? nat_of_ascii c)%nat && (nat_of_ascii c <=? 90)%nat.
Definition is_lower (c : ascii) : bool :=
  (97 <=? nat_of_ascii c)%nat && (nat_of_ascii c <=? 122)%nat.
Definition is_digit (c : ascii) : bool :=
  (48 <=? nat_of_ascii c)%nat && (nat_of_ascii c <=? 57)%nat.
Definition is_alpha (c : ascii) : bool := is_upper c || is_lower c.

(** [\w] on an ASCII character *)
Definition is_word (c : ascii) : bool :=
  is_alpha c || is_digit c || Ascii.eqb c "_".

Definition is_ascii (c : ascii) : bool := (nat_of_ascii c <? 128)%nat.

(** [\w] at the start of [s].  The pattern is a [str] pattern, so the class
    is the Unicode one: a letter, a digit or the underscore in ASCII, and
    beyond ASCII what the Unicode tables say of the character that starts
    there, which [beyond] stands for. *)
Definition word_here (beyond : string → bool) (s : string) : bool :=
  match s with
  | EmptyString => false
  | String c _ => if is_ascii c then is_word c else beyond s
  end.

Definition lower_char (c : ascii) : ascii :=
  if is_upper c then ascii_of_nat (nat_of_ascii c + 32) else c.

(** [s.lower()], used for the test ["invalid" in resp.text.lower()].  On
    the characters beyond ASCII [str.lower] gives characters beyond ASCII,
    but for U+0130, which becomes [i] followed by U+0307: no letter of
    [invalid] can follow that [i], so the test is the one on the bytes. *)
Fixpoint lower (s : string) : string :=
  match s with
  | EmptyString => EmptyString
  | String c r => String (lower_char c) (lower r)
  end.

(** [s[len(p):]] when [s.startswith(p)] *)
Fixpoint strip_prefix (p s : string) : option string :=
  match p, s with
  | EmptyString, _ => Some s
  | String a p', String b s' =>
      if Ascii.eqb a b then strip_prefix p' s' else None
  | String _ _, EmptyString => None
  end.

(** U+0130 and U+0131, the dotted capital and the dotless small i, at the
    start of [s] (bytes 196 176 and 196 177): what follows them *)
Definition strip_dotted_i (s : string) : option string :=
  match s with
  | String b1 (String b2 r) =>
      if (nat_of_ascii b1 =? 196)%nat &&
         ((nat_of_ascii b2 =? 176)%nat || (nat_of_ascii b2 =? 177)%nat)
      then Some r else None
  | _ => None
  end.

(** what follows one character that the pattern letter [a] matches under
    [re.I]: the letter in either case, and for [i] also U+0130 and U+0131.
    (Of the ASCII letters only [i], [k] and [s] have such further forms; the
    patterns of this program use [i] alone.) *)
Definition strip_letter_ci (a : ascii) (s : string) : option string :=
  match s with
  | EmptyString => None
  | String b r =>
      if Ascii.eqb (lower_char a) (lower_char b) then Some r
      else if Ascii.eqb (lower_char a) "i" then strip_dotted_i s
      else None
  end.

(** the same as [strip_prefix], comparing letters without case ([re.I]) *)
Fixpoint strip_prefix_ci (p s : string) : option string :=
  match p with
  | EmptyString => Some s
  | String a p' =>
      match strip_letter_ci a s with
      | Some r => strip_prefix_ci p' r
      | None => None
      end
  end.

(** the case folding of [re.I] on a text, for the letters above: ASCII
    capitals become small letters, U+0130 and U+0131 become [i] *)
Fixpoint fold_case (s : string) : string :=
  match s with
  | EmptyString => EmptyString
  | String b1 r =>
      match strip_dotted_i s, r with
      | Some _, String _ r2 => String "i" (fold_case r2)
      | _, _ => String (lower_char b1) (fold_case r)
      end
  end.

Definition starts_with (p s : string) : bool :=
  bool_decide (is_Some (strip_prefix p s)).

(** [needle in hay] *)
Fixpoint contains (needle hay : string) : bool :=
  starts_with needle hay ||
  match hay with
  | EmptyString => false
  | String _ r => contains needle r
  end.

(** [c in s] for one character *)
Fixpoint has_char (c : ascii) (s : string) : bool :=
  match s with
  | EmptyString => false
  | String a r => Ascii.eqb a c || has_char c r
  end.

(** [s.split(c)[0]]: the text before the first [c] *)
Fixpoint before (c : ascii) (s : string) : string :=
  match s with
  | EmptyString => EmptyString
  | String a r => if Ascii.eqb a c then EmptyString else String a (before c r)
  end.

(** the text after the first [c] (empty when [c] does not occur) *)
Fixpoint after (c : ascii) (s : string) : string :=
  match s with
  | EmptyString => EmptyString
  | String a r => if Ascii.eqb a c then r else after c r
  end.

(** [s.split(c)] *)
Fixpoint split (c : ascii) (s : string) : list string :=
  match s with
  | EmptyString => [EmptyString]
  | String a r =>
      if Ascii.eqb a c then EmptyString :: split c r
      else match split c r with
           | [] => [String a EmptyString]
           | x :: xs => String a x :: xs
           end
  end.

(** [c.join(l)] *)
Fixpoint join (c : string) (l : list string) : string :=
  match l with
  | [] => EmptyString
  | [x] => x
  | x :: r => x +:+ c +:+ join c r
  end.

(** [s.endswith(c)] *)
Fixpoint ends_with_char (c : ascii) (s : string) : bool :=
  match s with
  | EmptyString => false
  | String a EmptyString => Ascii.eqb a c
  | String _ r => ends_with_char c r
  end.

(** [(?:\?|$)] at the remainder [r] of the subject: a question mark, the
    end of the string, or the position before a final newline. *)
Definition query_or_end (r : string) : bool :=
  match r with
  | EmptyString => true
  | String c r' =>
      Ascii.eqb c "?" || (Ascii.eqb c newline && bool_decide (r' = EmptyString))
  end.

(** the remainders after [jpe?g|png|gif] matched at the start of [s] *)
Definition image_ext_rests (s : string) : list string :=
  omap (λ ext, strip_prefix_ci ext s) ["jpg"; "jpeg"; "png"; "gif"].

(** [\.(?:jpe?g|png|gif)(?:\?|$)] anchored at the start of [s] *)
Definition image_here (s : string) : bool :=
  match s with
  | String "." r => existsb query_or_end (image_ext_rests r)
  | _ => false
  end.

(** [/p/\w+] anchored at the start of [s] *)
Definition permalink_here (beyond : string → bool) (s : string) : bool :=
  match strip_prefix "/p/" s with
  | Some r => word_here beyond r
  | None => false
  end.

(** [re.search]: the anchored pattern at some position of the subject *)
Fixpoint search (here : string → bool) (s : string) : bool :=
  here s ||
  match s with
  | EmptyString => false
  | String _ r => search here r
  end.

End Text.

(** ** Scraping helpers *)

(** [_is_image] *)
Definition _is_image (url : string) : bool := Text.search Text.image_here url.

(** [_FULL_RES_ATTRS] *)
Definition _FULL_RES_ATTRS : list string :=
  ["data-full"; "data-original"; "data-src"; "src"].

(** ** [urllib.parse] and [pathlib]: reference models of the library calls

    [urljoin] and [urlparse] are library functions, and the downloader is
    parametric in them (see [Env]).  The definitions of this module follow
    the library's code (Python 3.11); they instantiate the environment where
    a run is evaluated on a concrete page.  [urlsplit] raises [ValueError] on
    a host it rejects: [urljoin_error] gives the message.  Two of its checks
    call further libraries and are not reproduced: a host inside matching
    brackets that is not of the [v...] form is read by the [ipaddress]
    module, here by [ip_address_error], which only looks at the characters;
    and a host with characters beyond ASCII is compared with its NFKC form,
    a check that is taken to pass. *)

Module Urllib.
Import Text.

Record ParseResult := {
  scheme : string; netloc : string; path : string;
  params : string; query : string; fragment : string
}.

Definition uses_relative : list string :=
  [""; "ftp"; "http"; "gopher"; "nntp"; "imap"; "wais"; "file"; "https";
   "shttp"; "mms"; "prospero"; "rtsp"; "rtspu"; "sftp"; "svn"; "svn+ssh";
   "ws"; "wss"].

Definition uses_netloc : list string :=
  [""; "ftp"; "http"; "gopher"; "nntp"; "telnet"; "imap"; "wais"; "file";
   "mms"; "https"; "shttp"; "snews"; "prospero"; "rtsp"; "rtspu"; "rsync";
   "svn"; "svn+ssh"; "sftp"; "nfs"; "git"; "git+ssh"; "ws"; "wss"].

Definition uses_params : list string :=
  [""; "ftp"; "hdl"; "prospero"; "http"; "imap"; "https"; "shttp"; "rtsp";
   "rtspu"; "sip"; "sips"; "mms"; "sftp"; "tel"].

Definition is_scheme_char (c : ascii) : bool :=
  is_alpha c || is_digit c || has_char c "+-.".

Fixpoint all_chars (p : ascii → bool) (s : string) : bool :=
  match s with
  | EmptyString => true
  | String c r => p c && all_chars p r
  end.

(** [url.lstrip(_WHATWG_C0_CONTROL_OR_SPACE)] *)
Fixpoint lstrip_c0 (s : string) : string :=
  match s with
  | EmptyString => EmptyString
  | String c r => if (nat_of_ascii c <=? 32)%nat then lstrip_c0 r else s
  end.

(** removal of tab, carriage return and newline *)
Fixpoint remove_unsafe (s : string) : string :=
  match s with
  | EmptyString => EmptyString
  | String c r =>
      if has_char c (String (ascii_of_nat 9)
                       (String (ascii_of_nat 13) (String newline EmptyString)))
      then remove_unsafe r else String c (remove_unsafe r)
  end.

(** [(url[:i], url[i:])] for the first [i] where [stop] holds *)
Fixpoint span_until (stop : ascii → bool) (s : string) : string * string :=
  match s with
  | EmptyString => (EmptyString, EmptyString)
  | String c r =>
      if stop c then (EmptyString, s)
      else let '(a, b) := span_until stop r in (String c a, b)
  end.

Definition split_scheme (default url : string) : string * string :=
  let cand := before ":" url in
  match cand with
  | String c _ =>
      if has_char ":" url && is_alpha c && all_chars is_scheme_char cand
      then (lower cand, after ":" url) else (default, url)
  | EmptyString => (default, url)
  end.

(** [_splitnetloc(url, 2)] when [url[:2] == '//'] *)
Definition split_netloc (url : string) : string * string :=
  match strip_prefix "//" url with
  | Some r => span_until (λ c, has_char c "/?#") r
  | None => (EmptyString, url)
  end.

(** the text up to and including the last ['/'], and the last segment *)
Fixpoint rsplit_slash (s : string) : string * string :=
  match s with
  | EmptyString => (EmptyString, EmptyString)
  | String c r =>
      if has_char "/" r
      then let '(a, b) := rsplit_slash r in (String c a, b)
      else if Ascii.eqb c "/" then (String c EmptyString, r)
      else (EmptyString, s)
  end.

(** [_splitparams] *)
Definition splitparams (url : string) : string * string :=
  let '(dir, seg) := rsplit_slash url in
  if has_char ";" seg then (dir +:+ before ";" seg, after ";" seg)
  else (url, EmptyString).

Definition urlparse (url default : string) : ParseResult :=
  let url := remove_unsafe (lstrip_c0 url) in
  let '(scheme, url) := split_scheme default url in
  let '(netloc, url) := split_netloc url in
  let fragment := after "#" url in
  let url := before "#" url in
  let query := after "?" url in
  let url := before "?" url in
  let '(url, params) :=
    if bool_decide (scheme ∈ uses_params) && has_char ";" url
    then splitparams url else (url, EmptyString) in
  {| scheme := scheme; netloc := netloc; path := url;
     params := params; query := query; fragment := fragment |}.

Definition nonempty (s : string) : bool := bool_decide (s ≠ EmptyString).

Definition urlunparse (r : ParseResult) : string :=
  let url := if nonempty (params r) then path r +:+ ";" +:+ params r else path r in
  let url :=
    if nonempty (netloc r) ||
       (nonempty (scheme r) && bool_decide (scheme r ∈ uses_netloc)
          && negb (starts_with "//" url))
    then "//" +:+ netloc r +:+
         (if nonempty url && negb (starts_with "/" url) then "/" +:+ url else url)
    else url in
  let url := if nonempty (scheme r) then scheme r +:+ ":" +:+ url else url in
  let url := if nonempty (query r) then url +:+ "?" +:+ query r else url in
  if nonempty (fragment r) then url +:+ "#" +:+ fragment r else url.

(** [del base_parts[-1]] when the last part is not empty *)
Definition base_parts (bpath : string) : list string :=
  let parts := split "/" bpath in
  match last parts with
  | Some EmptyString => parts
  | _ => removelast parts
  end.

(** [segments[1:-1] = filter(None, segments[1:-1])] *)
Definition filter_middle (segments : list string) : list string :=
  match segments with
  | x :: (_ :: _) as r =>
      x :: filter (λ s, s ≠ EmptyString) (removelast r) ++ option_list (last r)
  | _ => segments
  end.

Definition resolve_segment (resolved : list string) (seg : string) : list string :=
  if bool_decide (seg = "..") then removelast resolved
  else if bool_decide (seg = ".") then resolved
  else resolved ++ [seg].

Definition urljoin (base url : string) : string :=
  if negb (nonempty base) then url
  else if negb (nonempty url) then base
  else
    let b := urlparse base EmptyString in
    let u := urlparse url (scheme b) in
    if negb (bool_decide (scheme u = scheme b)) ||
       negb (bool_decide (scheme u ∈ uses_relative))
    then url
    else if bool_decide (scheme u ∈ uses_netloc) && nonempty (netloc u)
    then urlunparse u
    else
      let netloc' :=
        if bool_decide (scheme u ∈ uses_netloc) then netloc b else netloc u in
      if negb (nonempty (path u)) && negb (nonempty (params u))
      then urlunparse
             {| scheme := scheme u; netloc := netloc'; path := path b;
                params := params b;
                query := if nonempty (query u) then query u else query b;
                fragment := fragment u |}
      else
        let segments :=
          if starts_with "/" (path u) then split "/" (path u)
          else filter_middle (base_parts (path b) ++ split "/" (path u)) in
        let resolved := foldl resolve_segment [] segments in
        let resolved :=
          match last segments with
          | Some seg =>
              if bool_decide (seg = ".") || bool_decide (seg = "..")
              then resolved ++ [EmptyString] else resolved
          | None => resolved
          end in
        let joined := join "/" resolved in
        urlunparse
          {| scheme := scheme u; netloc := netloc';
             path := if nonempty joined then joined else "/";
             params := params u; query := query u; fragment := fragment u |}.

(** [urlparse(url).path] *)
Definition urlparse_path (url : string) : string := path (urlparse url EmptyString).

(** [s.rpartition(c)[2]]: the text after the last [c] *)
Fixpoint after_last (c : ascii) (s : string) : string :=
  match s with
  | EmptyString => EmptyString
  | String a r =>
      if has_char c r then after_last c r
      else if Ascii.eqb a c then r else s
  end.

Definition is_hex (c : ascii) : bool :=
  is_digit c || has_char c "abcdefABCDEF".

Fixpoint count_char (c : ascii) (s : string) : nat :=
  match s with
  | EmptyString => 0%nat
  | String a r => ((if Ascii.eqb a c then 1 else 0) + count_char c r)%nat
  end.

(** [\Av[a-fA-F0-9]+\..+\Z] on the text after the [v] *)
Definition ipvfuture_rest (s : string) : bool :=
  let '(digits, rest) := span_until (λ c, negb (is_hex c)) s in
  nonempty digits &&
  match rest with
  | String "." (String _ _) => true
  | _ => false
  end.

(** stands for [ipaddress.ip_address(hostname)] followed by the test that
    the address is not an IPv4 one: a host of hexadecimal digits, colons and
    dots with two colons at least is taken for an IPv6 address, and a host
    of digits and three dots for an IPv4 address *)
Definition ip_address_error (hostname : string) : option string :=
  if all_chars (λ c, is_hex c || has_char c ":.") hostname
     && (2 <=? count_char ":" hostname)%nat
  then None
  else if all_chars (λ c, is_digit c || Ascii.eqb c ".") hostname
          && (count_char "." hostname =? 3)%nat
  then Some "An IPv4 address cannot be in brackets"
  else Some ("'" +:+ hostname +:+ "' does not appear to be an IPv4 or IPv6 address").

(** [_check_bracketed_host] *)
Definition check_bracketed_host (hostname : string) : option string :=
  match hostname with
  | String "v" r =>
      if ipvfuture_rest r then None else Some "IPvFuture address is invalid"
  | _ => ip_address_error hostname
  end.

(** [_check_bracketed_netloc] *)
Definition check_bracketed_netloc (netloc : string) : option string :=
  let hostname_and_port := after_last "@" netloc in
  if has_char "[" hostname_and_port then
    let bracketed := after "[" hostname_and_port in
    let port := after "]" bracketed in
    if nonempty (before "[" hostname_and_port) then Some "Invalid IPv6 URL"
    else if nonempty port && negb (starts_with ":" port) then Some "Invalid IPv6 URL"
    else check_bracketed_host (before "]" bracketed)
  else check_bracketed_host (before ":" hostname_and_port).

(** the message of the [ValueError] that [urlsplit] raises on [url] *)
Definition urlsplit_error (url : string) : option string :=
  let url := remove_unsafe (lstrip_c0 url) in
  let '(_, url) := split_scheme EmptyString url in
  if starts_with "//" url then
    let netloc := (split_netloc url).1 in
    if negb (Bool.eqb (has_char "[" netloc) (has_char "]" netloc))
    then Some "Invalid IPv6 URL"
    else if has_char "[" netloc then check_bracketed_netloc netloc
    else None
  else None.

(** the message of the [ValueError] that [urljoin(base, url)] raises: the
    base is parsed first, then the reference *)
Definition urljoin_error (base url : string) : option string :=
  if negb (nonempty base) || negb (nonempty url) then None
  else match urlsplit_error base with
       | Some msg => Some msg
       | None => urlsplit_error url
       end.

End Urllib.

Module Pathlib.
Import Text.

(** the parts of a path after its root: empty and ["."] components are
    dropped when a path is parsed *)
Definition parts (p : string) : list string :=
  filter (λ x, x ≠ EmptyString ∧ x ≠ ".") (split "/" p).

(** [Path(p).name]: the final component, or the empty string *)
Definition name (p : string) : string := default EmptyString (last (parts p)).

(** [d / n] for a resolved directory [d] and a single component or the
    empty string [n], as the string of the resulting path *)
Definition joinpath (d n : string) : string :=
  if bool_decide (n = EmptyString) then d
  else if ends_with_char "/" d then d +:+ n
  else d +:+ "/" +:+ n.

(** [dest.with_suffix(dest.suffix + ".part")]: the old suffix is replaced
    by itself followed by [.part], so the marker is [dest] plus [.part] *)
Definition with_part_suffix (dest : string) : string := dest +:+ ".part".

End Pathlib.

(** ** The environment and the world *)

Inductive Request :=
  | Get (url : string)
  | Post (url : string) (data : list (string * string)).

Global Instance Request_eq_dec : EqDecision Request.
Proof. solve_decision. Defined.

Inductive FsOp :=
  | Mkdir (p : string)
  | OpenWb (p : string)
  | WriteChunk (p : string) (chunk : string)
  | Rename (src dst : string).

Inductive Event :=
  | Net (r : Request)
  | Fs (op : FsOp).

(** What the transport answers: no answer at all, or a status line followed
    by the pieces of the body, which may break off before the body is
    complete. *)
Inductive Reply :=
  | Unreachable
  | Served (status : Z) (chunks : list string) (complete : bool).

Inductive Node :=
  | Dir
  | File (content : string).

(** An element of a parsed page: [tag.name] and the attribute dictionary. *)
Record Tag := { tag_name : string; tag_attrs : gmap string string }.

Inductive exn :=
  | RuntimeError (msg : string)
  | HTTPError (status : Z)
  | ConnectionError
  | OSError (op : FsOp)
  | ValueError (msg : string)
  | SystemExit (code : Z).

(** [isinstance(exc, Exception)]: [SystemExit] derives from [BaseException]. *)
Definition is_Exception (e : exn) : bool :=
  match e with SystemExit _ => false | _ => true end.

(** The lines written by [_log]. *)
Inductive LogLine :=
  | SigningIn
  | Scanning
  | NoImagesFound
  | Found (n : nat)
  | CouldNotInspect (tlink : string) (exc : exn)
  | DownloadFailed (url : string) (exc : exn)
  | AllDone (out_dir : string).

(** The capabilities the script is run against.  The server and the disk
    answer as a function of everything that happened before.

    [urljoin(base, url)] either returns an address or raises [ValueError]
    (on a host with unmatched brackets, for one): [urljoin_error] is the
    message when it raises, and [urljoin] the address when it returns.
    [urlparse] raises on the same hosts; [main] calls it on addresses that
    [urljoin] has returned, cut at the first question mark, whose host
    [urljoin] has parsed, and [urlparse_path] is its result there.

    The last three fields say how the threads of a batch are scheduled:
    [schedule] lists, step by step, which of the transfers in progress moves
    next (see [pool_step]); [finished_early] is the number of transfers that
    have finished when [main] begins to wait for results, and [early_order]
    the order in which [as_completed] yields those (see [as_completed]). *)
Record Env := {
  server : list Event → Request → Reply;
  disk_ok : list Event → FsOp → bool;
  parse_html : string → list Tag;      (* [BeautifulSoup(text, "lxml")], in document order *)
  urljoin : string → string → string;
  urljoin_error : string → string → option string;
  urlparse_path : string → string;     (* [urlparse(url).path] *)
  resolve : string → string;           (* [Path(p).expanduser().resolve()] *)
  unicode_word : string → bool;        (* [\w] on the character beyond ASCII that starts the text *)
  schedule : list nat;
  finished_early : nat;
  early_order : list nat
}.

Record World := {
  fs : gmap string Node;
  trace : list Event;
  stderr : list LogLine
}.

Definition requests (w : World) : list Request :=
  omap (λ e, match e with Net r => Some r | Fs _ => None end) (trace w).

(** ** Computations that may raise *)

Definition M (A : Type) : Type := World → (exn + A) * World.

Definition raise {A} (e : exn) : M A := λ w, (inl e, w).

Global Instance M_ret : MRet M := λ A a w, (inr a, w).
Global Instance M_bind : MBind M := λ A B k m w,
  match m w with
  | (inr a, w') => k a w'
  | (inl e, w') => (inl e, w')
  end.

(** [try: m  except Exception as exc: h exc] *)
Definition try_except {A} (m : M A) (h : exn → M A) : M A :=
  λ w, match m w with
       | (inl e, w') => if is_Exception e then h e w' else (inl e, w')
       | r => r
       end.

(** a computation without effect on the world *)
Definition lift {A} (r : exn + A) : M A := λ w, (r, w).

(** a [for] loop that updates [acc] and that an exception leaves *)
Fixpoint for_each {A B} (body : B → A → M B) (l : list A) (acc : B) : M B :=
  match l with
  | [] => mret acc
  | x :: rest => acc ← body acc x; for_each body rest acc
  end.

(** the outcome of a call, kept as a value (a future's result) *)
Definition attempt {A} (m : M A) : M (exn + A) :=
  λ w, let '(r, w') := m w in (inr r, w').

(** [_log] *)
Definition _log (msg : LogLine) : M unit :=
  λ w, (inr (), {| fs := fs w; trace := trace w; stderr := stderr w ++ [msg] |}).

(** ** The session *)

Definition send (env : Env) (r : Request) : M Reply :=
  λ w, (inr (server env (trace w) r),
        {| fs := fs w; trace := trace w ++ [Net r]; stderr := stderr w |}).

Record Response := { status_code : Z; text : string }.

Definition concat_chunks (chunks : list string) : string :=
  foldr String.app EmptyString chunks.

(** a request whose body is read at once *)
Definition fetch (env : Env) (r : Request) : M Response :=
  reply ← send env r;
  match reply with
  | Served status chunks true =>
      mret {| status_code := status; text := concat_chunks chunks |}
  | _ => raise ConnectionError
  end.

(** [session.get(url, timeout=...)] *)
Definition session_get (env : Env) (url : string) : M Response :=
  fetch env (Get url).

(** [session.post(url, data=data, timeout=30)] *)
Definition session_post (env : Env) (url : string)
    (data : list (string * string)) : M Response :=
  fetch env (Post url data).

(** the client and server error classes, 4xx and 5xx *)
Definition is_error_status (status : Z) : bool :=
  (400 <=? status) && (status <? 600).

(** [resp.raise_for_status()] *)
Definition raise_for_status (status : Z) : M unit :=
  if is_error_status status then raise (HTTPError status) else mret ().

(** ** The file system *)

Definition fs_apply (op : FsOp) (m : gmap string Node) : option (gmap string Node) :=
  match op with
  | Mkdir p =>
      match m !! p with
      | Some (File _) => None
      | _ => Some (<[p := Dir]> m)
      end
  | OpenWb p =>
      match m !! p with
      | Some Dir => None
      | _ => Some (<[p := File EmptyString]> m)
      end
  | WriteChunk p chunk =>
      match m !! p with
      | Some (File c) => Some (<[p := File (c +:+ chunk)]> m)
      | _ => None
      end
  | Rename src dst =>
      match m !! src, m !! dst with
      | Some n, Some Dir => None
      | Some n, _ => Some (<[dst := n]> (delete src m))
      | None, _ => None
      end
  end.

Definition fs_do (env : Env) (op : FsOp) : M unit :=
  λ w, let t := trace w ++ [Fs op] in
       match (if disk_ok env (trace w) op then fs_apply op (fs w) else None) with
       | Some m => (inr (), {| fs := m; trace := t; stderr := stderr w |})
       | None => (inl (OSError op), {| fs := fs w; trace := t; stderr := stderr w |})
       end.

(** [dest.exists()] *)
Definition path_exists (p : string) : M bool :=
  λ w, (inr (bool_decide (is_Some (fs w !! p))), w).

(** ** [_login] *)

Definition login_url : string := "https://fotoshare.co/login".

(** the dictionary [data] *)
Definition login_form (email password : string) : list (string * string) :=
  [("email", email); ("password", password)].

Definition _login (env : Env) (email password : string) : M unit :=
  resp ← session_post env login_url (login_form email password);
  if negb (status_code resp =? 200)
  then raise (RuntimeError ("Login failed with HTTP " +:+ pretty (status_code resp)))
  else if Text.contains "invalid" (Text.lower (text resp))
  then raise (RuntimeError "Login appears to have failed (credentials rejected)")
  else mret ().

(** ** [_extract_image_urls] *)

(** [_absolute] (lines 80-82) *)
Definition _absolute (env : Env) (base link : string) : M string :=
  match urljoin_error env base link with
  | Some msg => raise (ValueError msg)
  | None => mret (urljoin env base link)
  end.

(** [tag.get(attr)] *)
Definition tag_get (attr : string) (tag : Tag) : option string :=
  tag_attrs tag !! attr.

(** truth value of a string or [None] *)
Definition truthy (o : option string) : bool :=
  match o with
  | Some s => bool_decide (s ≠ EmptyString)
  | None => false
  end.

(** [soup.find_all(["a", "img"])] *)
Definition find_all (names : list string) (soup : list Tag) : list Tag :=
  filter (λ tag, tag_name tag ∈ names) soup.

(** the list [srcs] built for one tag (lines 108-111) *)
Definition tag_srcs (tag : Tag) : list (option string) :=
  let href := if bool_decide (tag_name tag = "a") then tag_get "href" tag else None in
  let srcs := if truthy href then [href] else [] in
  if bool_decide (tag_name tag = "img")
  then srcs ++ ((λ attr, tag_get attr tag) <$> _FULL_RES_ATTRS)
  else srcs.

(** the link targets that match the permalink pattern: [a["href"]] for the
    elements of [soup.select("a[href]")] with [re.search(r"/p/\w+", ...)] *)
Definition permalinks (env : Env) (soup : list Tag) : list string :=
  omap (λ a,
          if bool_decide (tag_name a = "a") then
            match tag_get "href" a with
            | Some href =>
                if Text.search (Text.permalink_here (unicode_word env)) href
                then Some href else None
            | None => None
            end
          else None) soup.

(** the body of the inner loop (lines 113-115) *)
Definition case1_src (env : Env) (album_url : string)
    (candidates : gset string) (src : option string) : M (gset string) :=
  match src with
  | Some s =>
      if truthy src && _is_image s
      then url ← _absolute env album_url s;
           mret ({[ Text.before "?" url ]} ∪ candidates)
      else mret candidates
  | None => mret candidates
  end.

(** Case 1 (lines 107-115) *)
Definition case1 (env : Env) (album_url : string) (soup : list Tag) : M (gset string) :=
  for_each (λ candidates tag, for_each (case1_src env album_url) (tag_srcs tag) candidates)
           (find_all ["a"; "img"] soup) ∅.

(** [thumb_links] (lines 119-123), a list comprehension *)
Definition case2_links (env : Env) (album_url : string) (soup : list Tag)
    : M (list string) :=
  for_each (λ links href, url ← _absolute env album_url href; mret (links ++ [url]))
           (permalinks env soup) [].

(** [psoup.find("img", src=True)] *)
Definition find_img_src (psoup : list Tag) : option Tag :=
  head (filter (λ tag, tag_name tag = "img" ∧ is_Some (tag_get "src" tag)) psoup).

(** the body of the [try] block (lines 126-131): the entry a photo page
    contributes, if any *)
Definition inspect (env : Env) (tlink : string) : M (option string) :=
  pr ← session_get env tlink;
  raise_for_status (status_code pr);;
  match find_img_src (parse_html env (text pr)) with
  | Some img =>
      match tag_get "src" img with
      | Some src =>
          if _is_image src
          then url ← _absolute env tlink src; mret (Some url)
          else mret None
      | None => mret None
      end
  | None => mret None
  end.

Definition add_entry (candidates : gset string) (entry : option string) : gset string :=
  match entry with
  | Some u => {[ u ]} ∪ candidates
  | None => candidates
  end.

(** the loop of Case 2 (lines 124-133) *)
Fixpoint tier2 (env : Env) (links : list string) (candidates : gset string)
    : M (gset string) :=
  match links with
  | [] => mret candidates
  | tlink :: rest =>
      entry ← try_except (inspect env tlink)
                 (λ exc, _log (CouldNotInspect tlink exc);; mret None);
      tier2 env rest (add_entry candidates entry)
  end.

(** [sorted(candidates)]: Python orders strings by code points, which is the
    order of their UTF-8 bytes *)
Definition sorted (candidates : gset string) : list string :=
  merge_sort String.le (elements candidates).

Definition _extract_image_urls (env : Env) (album_url : string) : M (list string) :=
  resp ← session_get env album_url;
  raise_for_status (status_code resp);;
  let soup := parse_html env (text resp) in
  candidates ← case1 env album_url soup;
  candidates ← (if bool_decide (candidates = ∅)
                 then links ← case2_links env album_url soup;
                      tier2 env links candidates
                 else mret candidates);
  mret (sorted candidates).

(** ** Case 1 and the links of Case 2 as values

    [case1] and [case2_links] stop at the first address [urljoin] rejects.
    When they return, they return the values below: the same loops as folds
    over the addresses [urljoin] gives (lemmas [case1_cases] and
    [case2_links_cases]). *)

(** [urljoin(album_url, src).split('?')[0]] *)
Definition clean_url (env : Env) (album_url src : string) : string :=
  Text.before "?" (urljoin env album_url src).

(** the body of the inner loop (lines 113-115), on values *)
Definition add_src (env : Env) (album_url : string)
    (candidates : gset string) (src : option string) : gset string :=
  match src with
  | Some s =>
      if truthy src && _is_image s
      then {[ clean_url env album_url s ]} ∪ candidates
      else candidates
  | None => candidates
  end.

(** the candidates of Case 1 (lines 107-115) *)
Definition tier1 (env : Env) (album_url : string) (soup : list Tag) : gset string :=
  foldl (λ candidates tag, foldl (add_src env album_url) candidates (tag_srcs tag))
        ∅ (find_all ["a"; "img"] soup).

(** the value of [thumb_links] (lines 119-123) *)
Definition thumb_links (env : Env) (album_url : string) (soup : list Tag) : list string :=
  urljoin env album_url <$> permalinks env soup.

(** ** [_download_one] *)

(** the loop over [resp.iter_content] writing to the open file *)
Fixpoint write_chunks (env : Env) (tmp : string) (chunks : list string)
    (complete : bool) : M unit :=
  match chunks with
  | [] => if complete then mret () else raise ConnectionError
  | chunk :: rest =>
      (if bool_decide (chunk ≠ EmptyString) then fs_do env (WriteChunk tmp chunk) else mret ());;
      write_chunks env tmp rest complete
  end.

Definition _download_one (env : Env) (url dest : string) : M unit :=
  present ← path_exists dest;
  if (present : bool) then mret ()
  else
    reply ← send env (Get url);
    match reply with
    | Unreachable => raise ConnectionError
    | Served status chunks complete =>
        raise_for_status status;;
        let tmp := Pathlib.with_part_suffix dest in
        fs_do env (OpenWb tmp);;
        write_chunks env tmp chunks complete;;
        fs_do env (Rename tmp dest)
    end.

(** the part of [_download_one] after the status check *)
Definition store (env : Env) (dest : string) (chunks : list string)
    (complete : bool) : M unit :=
  let tmp := Pathlib.with_part_suffix dest in
  fs_do env (OpenWb tmp);;
  write_chunks env tmp chunks complete;;
  fs_do env (Rename tmp dest).

(** ** [main] *)

Record Args := {
  album_url : string;
  output : string;
  email : option string;
  password : option string;
  workers : Z
}.

(** [out_dir / Path(urlparse(url).path).name] *)
Definition dest_path (env : Env) (out_dir url : string) : string :=
  Pathlib.joinpath out_dir (Pathlib.name (urlparse_path env url)).

(** [ThreadPoolExecutor(max_workers=n)] *)
Definition thread_pool (n : Z) : M unit :=
  if n <=? 0 then raise (ValueError "max_workers must be greater than 0") else mret ().

(** ** The worker pool (lines 190-206)

    [pool.submit] queues one call of [_download_one] per URL; the worker
    threads take the calls from the queue in the order of submission and
    run them side by side.  A call is run here as a sequence of steps, one
    per effect, so that the steps of different calls can be interleaved. *)

(** where a call of [_download_one] stands between two steps *)
Inductive Stage :=
  | Queued                                             (* not begun *)
  | Requesting                                         (* [dest.exists()] was false *)
  | Opening (chunks : list string) (complete : bool)   (* [raise_for_status] has returned *)
  | Writing (chunks : list string) (complete : bool)   (* in the loop, these chunks to come *)
  | Renaming                                           (* the loop is over *)
  | Finished (r : exn + unit).

(** one effect [m] of a call, then the stage [next] or the exception *)
Definition effect {A} (m : M A) (next : A → Stage) : World → Stage * World :=
  λ w, match m w with
       | (inr a, w') => (next a, w')
       | (inl e, w') => (Finished (inl e), w')
       end.

(** the next step of [_download_one(session, url, dest)] at stage [s] *)
Definition step (env : Env) (url dest : string) (s : Stage) : World → Stage * World :=
  let tmp := Pathlib.with_part_suffix dest in
  match s with
  | Queued =>
      effect (path_exists dest)
             (λ present : bool, if present then Finished (inr ()) else Requesting)
  | Requesting =>
      effect (send env (Get url))
             (λ reply, match reply with
                       | Unreachable => Finished (inl ConnectionError)
                       | Served status chunks complete =>
                           if is_error_status status
                           then Finished (inl (HTTPError status))
                           else Opening chunks complete
                       end)
  | Opening chunks complete =>
      effect (fs_do env (OpenWb tmp)) (λ _, Writing chunks complete)
  | Writing [] complete =>
      effect (mret ())
             (λ _, if complete then Renaming else Finished (inl ConnectionError))
  | Writing (chunk :: rest) complete =>
      effect (if bool_decide (chunk ≠ EmptyString)
              then fs_do env (WriteChunk tmp chunk) else mret ())
             (λ _, Writing rest complete)
  | Renaming =>
      effect (fs_do env (Rename tmp dest)) (λ _, Finished (inr ()))
  | Finished r => λ w, (Finished r, w)
  end.

(** the rest of the call from stage [s], run without interruption *)
Definition resume (env : Env) (url dest : string) (s : Stage) : M unit :=
  let tmp := Pathlib.with_part_suffix dest in
  match s with
  | Queued => _download_one env url dest
  | Requesting =>
      reply ← send env (Get url);
      match reply with
      | Unreachable => raise ConnectionError
      | Served status chunks complete =>
          raise_for_status status;;
          store env dest chunks complete
      end
  | Opening chunks complete => store env dest chunks complete
  | Writing chunks complete =>
      write_chunks env tmp chunks complete;;
      fs_do env (Rename tmp dest)
  | Renaming => fs_do env (Rename tmp dest)
  | Finished r => lift r
  end.

(** a submitted call: its URL and the stage it is at *)
Definition Job : Type := string * Stage.

(** a URL with the result of its future *)
Definition Outcome : Type := string * (exn + unit).

Definition unfinished (s : Stage) : bool :=
  match s with Finished _ => false | _ => true end.

Definition outcome_of (url : string) (s : Stage) : list Outcome :=
  match s with Finished r => [(url, r)] | _ => [] end.

(** the [k]-th unfinished call of [jobs] makes one step; the result says
    whether it has finished by it *)
Fixpoint advance (env : Env) (out_dir : string) (k : nat) (jobs : list Job)
    (w : World) : list Job * list Outcome * World :=
  match jobs with
  | [] => ([], [], w)
  | (url, s) :: rest =>
      if unfinished s then
        match k with
        | O =>
            let '(s', w') := step env url (dest_path env out_dir url) s w in
            ((url, s') :: rest, outcome_of url s', w')
        | S k' =>
            let '(rest', o, w') := advance env out_dir k' rest w in
            ((url, s) :: rest', o, w')
        end
      else
        let '(rest', o, w') := advance env out_dir k rest w in
        ((url, s) :: rest', o, w')
  end.

(** the state of a batch: the calls in the order of submission, and the
    outcomes in the order in which the calls finished *)
Definition Pool : Type := list Job * list Outcome * World.

(** One step of the batch.  With [n] workers the calls in progress, and
    those a free worker takes next, are the first [n] unfinished ones; the
    number [pick] chooses among them. *)
Definition pool_step (env : Env) (out_dir : string) (n : nat)
    (st : Pool) (pick : nat) : Pool :=
  let '(jobs, finished, w) := st in
  let ready := (n `min` length (filter (λ j, unfinished j.2 = true) jobs))%nat in
  let '(jobs', o, w') := advance env out_dir (pick `mod` ready) jobs w in
  (jobs', finished ++ o, w').

(** the calls left are completed one after another *)
Fixpoint drain (env : Env) (out_dir : string) (jobs : list Job) (w : World)
    : list Outcome * World :=
  match jobs with
  | [] => ([], w)
  | (url, s) :: rest =>
      if unfinished s then
        let '(r, w1) := resume env url (dest_path env out_dir url) s w in
        let '(outcomes, w2) := drain env out_dir rest w1 in
        ((url, r) :: outcomes, w2)
      else drain env out_dir rest w
  end.

(** The batch from submission to the end of the [with] block of the pool:
    the steps the schedule lists, then the calls that are left.  Every
    interleaving of the calls is the run of some schedule.  The result lists
    the outcomes in the order in which the calls finished. *)
Definition run_pool (env : Env) (out_dir : string) (n : nat) (images : list string)
    : M (list Outcome) :=
  λ w,
  let '(jobs, finished, w1) :=
    foldl (pool_step env out_dir n) ((λ url, (url, Queued)) <$> images, [], w)
          (schedule env) in
  let '(late, w2) := drain env out_dir jobs w1 in
  (inr (finished ++ late), w2).

(** the elements of [l] drawn one by one at the positions [picks] say, the
    remaining ones in their order *)
Fixpoint shuffle {A} (picks : list nat) (l : list A) : list A :=
  match picks with
  | [] => l
  | pick :: picks' =>
      match l !! (pick `mod` length l)%nat with
      | Some x => x :: shuffle picks' (delete (pick `mod` length l)%nat l)
      | None => l
      end
  end.

(** [as_completed(futures)]: the futures that have finished when the call
    is made are yielded first, in the order of a set; the others follow in
    the order in which they finish *)
Definition as_completed (env : Env) (finished : list Outcome) : list Outcome :=
  shuffle (early_order env) (take (finished_early env) finished)
  ++ drop (finished_early env) finished.

(** the loop over the finished futures (lines 200-205) *)
Fixpoint handle (outcomes : list Outcome) : M unit :=
  match outcomes with
  | [] => mret ()
  | (url, r) :: rest =>
      match r with
      | inl exc =>
          if is_Exception exc then _log (DownloadFailed url exc) else raise exc
      | inr _ => mret ()
      end;;
      handle rest
  end.

(** lines 190-206: the pool is created, every URL is submitted, and the
    results are handled as the futures complete.  The log is not touched by
    the workers, so the lines can be written once the batch has run. *)
Definition dispatcher (env : Env) (out_dir : string) (n : Z) (images : list string)
    : M (list Outcome) :=
  thread_pool n;;
  finished ← run_pool env out_dir (Z.to_nat n) images;
  let outcomes := as_completed env finished in
  handle outcomes;;
  mret outcomes.

(** The batch when the calls run one after another in the order of
    submission and each result is handled as soon as its call has finished:
    the run of the schedule that lets no second call begin before the first
    has ended (lemma [dispatcher_sequential]). *)
Fixpoint dispatch (env : Env) (out_dir : string) (images : list string)
    : M (list (string * (exn + unit))) :=
  match images with
  | [] => mret []
  | url :: rest =>
      r ← attempt (_download_one env url (dest_path env out_dir url));
      match r with
      | inl exc =>
          if is_Exception exc then _log (DownloadFailed url exc) else raise exc
      | inr _ => mret ()
      end;;
      outcomes ← dispatch env out_dir rest;
      mret ((url, r) :: outcomes)
  end.

Definition main (env : Env) (args : Args) : M unit :=
  let out_dir := resolve env (output args) in
  fs_do env (Mkdir out_dir);;
  (if truthy (email args) && truthy (password args)
   then _log SigningIn;;
        _login env (default EmptyString (email args))
                   (default EmptyString (password args))
   else mret ());;
  _log Scanning;;
  images ← _extract_image_urls env (album_url args);
  match images with
  | [] => _log NoImagesFound;; raise (SystemExit 1)
  | _ =>
      _log (Found (length images));;
      _ ← dispatcher env out_dir (workers args) images;
      _log (AllDone out_dir)
  end.

(** the exit status of the process: [sys.exit(n)] gives [n], an uncaught
    exception gives 1, a normal return gives 0 *)
Definition exit_status (r : exn + unit) : Z :=
  match r with
  | inr _ => 0
  | inl (SystemExit code) => code
  | inl _ => 1
  end.

(** ** A reference environment for concrete runs

    The server and the parser are given by tables: a request is answered by
    its entry (no entry: no connection), a page text is parsed into the tags
    listed for it, the disk never fails, and paths are already resolved.
    The pages of the examples are written in ASCII, so that the class [\w]
    beyond ASCII is never asked for.  The calls of a batch run one after
    another (the empty schedule); [scheduled] changes that. *)

Module Demo.

Definition lookup_req (r : Request) (net : list (Request * Reply)) : Reply :=
  default Unreachable
    (snd <$> head (filter (λ e, e.1 = r) net)).

Definition lookup_page (t : string) (pages : list (string * list Tag)) : list Tag :=
  default [] (snd <$> head (filter (λ e, e.1 = t) pages)).

Definition env (net : list (Request * Reply)) (pages : list (string * list Tag)) : Env :=
  {| server := λ _ r, lookup_req r net;
     disk_ok := λ _ _, true;
     parse_html := λ t, lookup_page t pages;
     urljoin := Urllib.urljoin;
     urljoin_error := Urllib.urljoin_error;
     urlparse_path := Urllib.urlparse_path;
     resolve := λ p, p;
     unicode_word := λ _, false;
     schedule := [];
     finished_early := 0;
     early_order := [] |}.

(** the same environment with another scheduling of the worker threads *)
Definition scheduled (e : Env) (picks : list nat) (early : nat) (order : list nat) : Env :=
  {| server := server e; disk_ok := disk_ok e; parse_html := parse_html e;
     urljoin := urljoin e; urljoin_error := urljoin_error e;
     urlparse_path := urlparse_path e; resolve := resolve e;
     unicode_word := unicode_word e;
     schedule := picks; finished_early := early; early_order := order |}.

Definition img (attrs : list (string * string)) : Tag :=
  {| tag_name := "img"; tag_attrs := list_to_map attrs |}.
Definition anchor (href : string) : Tag :=
  {| tag_name := "a"; tag_attrs := {[ "href" := href ]} |}.

Definition page (body : string) : Reply := Served 200 [body] true.

Definition empty_world : World := {| fs := ∅; trace := []; stderr := [] |}.

Definition album : string := "https://fotoshare.co/i/ABC123".

End Demo.

(** The end-to-end scenario of the documentation: one image with
    [data-full], one with [src] only. *)
Definition scenario_page : string :=
  "<img data-full='https://site/full/a.jpg?x=1'><img src='thumb/b.png'>".

Definition scenario_env : Env :=
  Demo.env [(Get Demo.album, Demo.page scenario_page)]
           [(scenario_page,
             [Demo.img [("data-full", "https://site/full/a.jpg?x=1")];
              Demo.img [("src", "thumb/b.png")]])].

(** * The vocabulary of the statements *)

(** the world after further events, and after further log lines *)
Definition add_trace (w : World) (t : list Event) : World :=
  {| fs := fs w; trace := trace w ++ t; stderr := stderr w |}.

Definition add_log (w : World) (lines : list LogLine) : World :=
  {| fs := fs w; trace := trace w; stderr := stderr w ++ lines |}.

(** ** Case 1: direct extraction *)

(** The references of a page, in the words of the documentation: an
    anchor's link target, and the four attributes of an image element. *)
Definition tag_references (tag : Tag) : list string :=
  if bool_decide (tag_name tag = "a") then option_list (tag_get "href" tag)
  else if bool_decide (tag_name tag = "img")
  then omap (λ attr, tag_get attr tag) _FULL_RES_ATTRS
  else [].

Definition references (soup : list Tag) : list string :=
  soup ≫= tag_references.

(** the references that match the image-file pattern *)
Definition image_references (soup : list Tag) : list string :=
  filter (λ s, _is_image s = true) (references soup).

(** ** Case 2: thumbnail traversal *)

(** The text of a page that was fetched without error: a complete answer
    whose status is not an error status. *)
Definition fetched_text (reply : Reply) : option string :=
  match reply with
  | Served status chunks true =>
      if is_error_status status then None else Some (concat_chunks chunks)
  | _ => None
  end.

(** The entry of a photo page: the source of its first image element with a
    source attribute, made absolute, when it matches the image-file pattern
    and [urljoin] accepts it. *)
Definition first_image_entry (env : Env) (tlink page_text : string) : option string :=
  img ← find_img_src (parse_html env page_text);
  src ← tag_get "src" img;
  if _is_image src
  then match urljoin_error env tlink src with
       | None => Some (urljoin env tlink src)
       | Some _ => None
       end
  else None.

(** the [ValueError] of [urljoin] on that source, when it rejects it *)
Definition rejected_source (env : Env) (tlink page_text : string) : option exn :=
  img ← find_img_src (parse_html env page_text);
  src ← tag_get "src" img;
  if _is_image src then ValueError <$> urljoin_error env tlink src else None.

(** What the page behind [tlink] contributes, given the answer to its fetch:
    nothing when the fetch fails. *)
Definition page_entry (env : Env) (tlink : string) (reply : Reply) : option string :=
  fetched_text reply ≫= first_image_entry env tlink.

(** ** Transfers *)

(** the world after the result of one transfer was handled: a failure is
    logged *)
Definition after_transfer (url : string) (res : (exn + unit) * World) : World :=
  match res.1 with
  | inl exc => add_log res.2 [DownloadFailed url exc]
  | inr _ => res.2
  end.

(** ** The batch *)

(** a call that has not sent its request yet *)
Definition pending (s : Stage) : bool :=
  match s with Queued | Requesting => true | _ => false end.

Definition pending_urls (jobs : list Job) : list string :=
  (filter (λ j, pending j.2 = true) jobs).*1.

(** the outcomes of the calls that have finished *)
Definition outcomes_of (jobs : list Job) : list Outcome :=
  jobs ≫= (λ j, outcome_of j.1 j.2).

(** one unfinished call of the batch makes its next step *)
Inductive batch_step (env : Env) (out_dir : string)
    : list Job * World → list Job * World → Prop :=
  | batch_step_at pre url s post w s' w' :
      unfinished s = true →
      step env url (dest_path env out_dir url) s w = (s', w') →
      batch_step env out_dir (pre ++ (url, s) :: post, w) (pre ++ (url, s') :: post, w').

(** no other URL of the batch is stored at the destination of [url], or has
    that destination as its marker *)
Definition undisturbed (env : Env) (out_dir : string) (images : list string)
    (url : string) : Prop :=
  ∀ v, v ∈ images → v ≠ url →
       dest_path env out_dir url ≠ dest_path env out_dir v ∧
       dest_path env out_dir url ≠ Pathlib.with_part_suffix (dest_path env out_dir v).

(** one step of a call of [_download_one] *)
Definition call_step (env : Env) (url dest : string) (x y : Stage * World) : Prop :=
  unfinished x.1 = true ∧ step env url dest x.1 x.2 = y.

(** a call that ended with an exception ended with an [Exception] *)
Definition job_ok (j : Job) : Prop :=
  ∀ e, j.2 = Finished (inl e) → is_Exception e = true.

(** a computation that neither reads nor writes the log *)
Definition oblivious {A} (m : M A) : Prop :=
  ∀ w lines, m (add_log w lines) = ((m w).1, add_log (m w).2 lines).

(** the two halves of [main] *)

(** lines 172-182: the output directory, the optional sign-in, and the
    announcement of the scan *)
Definition prelude (env : Env) (args : Args) : M unit :=
  fs_do env (Mkdir (resolve env (output args)));;
  (if truthy (email args) && truthy (password args)
   then _log SigningIn;;
        _login env (default EmptyString (email args))
                   (default EmptyString (password args))
   else mret ());;
  _log Scanning.

(** lines 184-208: what is done with the resolved images *)
Definition finish (env : Env) (args : Args) (images : list string) : M unit :=
  match images with
  | [] => _log NoImagesFound;; raise (SystemExit 1)
  | _ =>
      _log (Found (length images));;
      _ ← dispatcher env (resolve env (output args)) (workers args) images;
      _log (AllDone (resolve env (output args)))
  end.

(** a success status code in the sense of HTTP: the class 2xx *)
Definition is_success_status (status : Z) : bool :=
  (200 <=? status) && (status <? 300).

(** * Environments of the concrete runs *)

(** ** An album whose page only links to photo pages *)

Definition traversal_album_page : string :=
  "<a href='/p/gone'>1</a><a href='/p/abc123'>2</a>".
Definition traversal_photo_page : string :=
  "<img src='https://cdn.fotoshare.co/full/a.jpg?sig=1'>".

(** The first photo page cannot be reached; the second shows its image. *)
Definition traversal_env : Env :=
  Demo.env
    [(Get Demo.album, Demo.page traversal_album_page);
     (Get "https://fotoshare.co/p/abc123", Demo.page traversal_photo_page)]
    [(traversal_album_page, [Demo.anchor "/p/gone"; Demo.anchor "/p/abc123"]);
     (traversal_photo_page,
      [Demo.img [("src", "https://cdn.fotoshare.co/full/a.jpg?sig=1")]])].

(** ** An address that [urljoin] rejects *)

Definition bracket_page : string := "<img src='http://[/a.jpg'>".

Definition bracket_env : Env :=
  Demo.env [(Get Demo.album, Demo.page bracket_page)]
           [(bracket_page, [Demo.img [("src", "http://[/a.jpg")]])].

(** ** A photo page whose first image is not the photo *)

Definition logo_album_page : string := "<a href='/p/abc123'>1</a>".
Definition logo_photo_page : string :=
  "<img src='/static/logo.svg'><img src='/full/a.jpg'>".

Definition logo_env : Env :=
  Demo.env
    [(Get Demo.album, Demo.page logo_album_page);
     (Get "https://fotoshare.co/p/abc123", Demo.page logo_photo_page)]
    [(logo_album_page, [Demo.anchor "/p/abc123"]);
     (logo_photo_page,
      [Demo.img [("src", "/static/logo.svg")]; Demo.img [("src", "/full/a.jpg")]])].

(** ** Transfers *)

Definition photo_url : string := "https://site/full/a.jpg".

(** a server that delivers the photo, and one whose answer breaks off *)
Definition photo_env : Env :=
  Demo.env [(Get photo_url, Served 200 ["JFIF"; ""; "data"] true)] [].
Definition broken_env : Env :=
  Demo.env [(Get photo_url, Served 200 ["JFIF"] false)] [].

Definition album_world : World :=
  {| fs := {[ "/album" := Dir ]}; trace := []; stderr := [] |}.
Definition resumed_world : World :=
  {| fs := {[ "/album" := Dir; "/album/a.jpg" := File "old" ]};
     trace := []; stderr := [] |}.

(** ** The dispatcher on a batch whose first transfer fails *)

Definition batch_env : Env :=
  Demo.env [(Get "https://site/full/gone.jpg", Served 404 ["Not Found"] true);
            (Get photo_url, Served 200 ["JFIF"; "data"] true)] [].

(** ** Sign-in answers *)

Definition credentials_args : Args :=
  {| album_url := Demo.album; output := "/album";
     email := Some "you@example.com"; password := Some "SuperSecret";
     workers := 4 |}.

Definition sign_in : Request :=
  Post login_url (login_form "you@example.com" "SuperSecret").

(** the site answers the sign-in with status 200 and a rejection, and would
    serve the album *)
Definition rejecting_env : Env :=
  Demo.env [(sign_in, Served 200 ["<p>Invalid Password</p>"] true);
            (Get Demo.album, Demo.page scenario_page)]
           [(scenario_page, [Demo.img [("src", "thumb/b.png")]])].

(** the site answers the sign-in with status 204 and an empty body *)
Definition no_content_env : Env :=
  Demo.env [(sign_in, Served 204 [] true)] [].

(** ** Exit status *)

Definition public_args : Args :=
  {| album_url := Demo.album; output := "/album";
     email := None; password := None; workers := 4 |}.

(** the album page is not found *)
Definition missing_env : Env :=
  Demo.env [(Get Demo.album, Served 404 ["Not Found"] true)] [].

(** ** Paths that end in a slash *)



Definition root_page : string :=
  "<img src='https://cdn.fotoshare.co/a.jpg'><a href='/?f=a.jpg'>all</a>".
Definition root_url : string := "https://fotoshare.co/".

Definition root_env : Env :=
  Demo.env [(Get Demo.album, Demo.page root_page);
            (Get "https://cdn.fotoshare.co/a.jpg", Served 200 ["JFIF"] true);
            (Get root_url, Demo.page "<html>")]
           [(root_page, [Demo.img [("src", "https://cdn.fotoshare.co/a.jpg")];
                         Demo.anchor "/?f=a.jpg"])].

(** * Further vocabulary *)

(** a disk on which no operation fails for an outside reason *)
Definition reliable (env : Env) : Prop := ∀ t op, disk_ok env t op = true.

(** the writes of the loop over the body: one per non-empty chunk *)
Definition chunk_writes (tmp : string) (chunks : list string) : list Event :=
  (λ c, Fs (WriteChunk tmp c)) <$> filter (λ c, c ≠ EmptyString) chunks.

(** an answer on which [raise_for_status] or the transport raises before any
    byte of the body is read by a streaming request *)
Definition refused (reply : Reply) : option exn :=
  match reply with
  | Unreachable => Some ConnectionError
  | Served status _ _ =>
      if is_error_status status then Some (HTTPError status) else None
  end.

(** the log lines of a batch: one per failed outcome *)
Definition failure_lines (outcomes : list (string * (exn + unit))) : list LogLine :=
  omap (λ o, match o.2 with
             | inl exc => Some (DownloadFailed o.1 exc)
             | inr _ => None
             end) outcomes.

(** the exception of a request whose body is read at once: no connection, a
    body that breaks off, or an error status *)
Definition fetch_error (reply : Reply) : option exn :=
  match reply with
  | Served status _ true =>
      if is_error_status status then Some (HTTPError status) else None
  | _ => Some ConnectionError
  end.

(** the exception that ends the inspection of the page behind [tlink], given
    the answer to its fetch: that of the fetch, or that of [urljoin] on the
    source of the page's first image *)
Definition inspect_error (env : Env) (tlink : string) (reply : Reply) : option exn :=
  match fetch_error reply with
  | Some exc => Some exc
  | None => fetched_text reply ≫= rejected_source env tlink
  end.

(** the lines the traversal of [links] logs when it begins after the
    events [t]: one per page whose inspection ends with an exception *)
Fixpoint traversal_lines (env : Env) (t : list Event) (links : list string)
    : list LogLine :=
  match links with
  | [] => []
  | tlink :: rest =>
      option_list (CouldNotInspect tlink <$> inspect_error env tlink (server env t (Get tlink)))
      ++ traversal_lines env (t ++ [Net (Get tlink)]) rest
  end.

(** the arguments with neither an e-mail address nor a password *)
Definition without_credentials (args : Args) : Args :=
  {| album_url := album_url args; output := output args;
     email := None; password := None; workers := workers args |}.

(** a world in which the output path of the examples is taken by a file *)
Definition blocked_world : World :=
  {| fs := {[ "/album" := File "notes" ]}; trace := []; stderr := [] |}.

(** arguments with an e-mail address but no password *)
Definition half_args : Args :=
  {| album_url := Demo.album; output := "/album";
     email := Some "you@example.com"; password := None; workers := 4 |}.

(** * Examples *)

Example is_image_ex1 : _is_image "https://site/full/a.jpg?x=1" = true.
Proof. reflexivity. Qed.
Example is_image_ex2 : _is_image "thumb/b.PNG" = true.
Proof. reflexivity. Qed.
Example is_image_ex3 : _is_image "a.jpg.html" = false.
Proof. reflexivity. Qed.
Example is_image_ex4 : _is_image "a.jpegx" = false.
Proof. reflexivity. Qed.

Example urljoin_ex1 :
  Urllib.urljoin "https://fotoshare.co/i/ABC123" "thumb/b.png"
  = "https://fotoshare.co/i/thumb/b.png".
Proof. vm_compute. reflexivity. Qed.
Example urljoin_ex2 :
  Urllib.urljoin "https://fotoshare.co/i/ABC123" "https://site/full/a.jpg?x=1"
  = "https://site/full/a.jpg?x=1".
Proof. vm_compute. reflexivity. Qed.
Example urljoin_ex3 :
  Urllib.urljoin "https://fotoshare.co/i/ABC123" "/media/?f=a.jpg"
  = "https://fotoshare.co/media/?f=a.jpg".
Proof. vm_compute. reflexivity. Qed.
Example urljoin_error_ex1 :
  Urllib.urljoin_error "https://fotoshare.co/i/ABC123" "http://[/a.jpg"
  = Some "Invalid IPv6 URL".
Proof. vm_compute. reflexivity. Qed.
Example urljoin_error_ex2 :
  Urllib.urljoin_error "https://fotoshare.co/i/ABC123" "http://a[::1]/a.jpg"
  = Some "Invalid IPv6 URL".
Proof. vm_compute. reflexivity. Qed.
Example urljoin_error_ex3 :
  Urllib.urljoin_error "https://fotoshare.co/i/ABC123" "http://[::1]:80/a.jpg" = None.
Proof. vm_compute. reflexivity. Qed.
Example urljoin_error_ex4 :
  Urllib.urljoin_error "https://fotoshare.co/i/ABC123" "/a[.jpg" = None.
Proof. vm_compute. reflexivity. Qed.
Example urljoin_error_ex5 :
  Urllib.urljoin_error "https://fotoshare.co/i/ABC123" "http://[v1x]/a.jpg"
  = Some "IPvFuture address is invalid".
Proof. vm_compute. reflexivity. Qed.
Example urljoin_error_ex6 :
  Urllib.urljoin_error "http://[/x" "a.jpg" = Some "Invalid IPv6 URL".
Proof. vm_compute. reflexivity. Qed.

(** U+0130 and U+0131 match the [i] of [gif]; a letter beyond ASCII after
    [/p/] is a word character when the Unicode tables say so *)
Example is_image_ex5 :
  _is_image (String "a" (String "." (String "g"
     (String (ascii_of_nat 196) (String (ascii_of_nat 177) (String "f" ""))))))
  = true.
Proof. reflexivity. Qed.
Example is_image_ex6 :
  _is_image (String "a" (String "." (String "G"
     (String (ascii_of_nat 196) (String (ascii_of_nat 176) (String "F" ""))))))
  = true.
Proof. reflexivity. Qed.
Example permalink_ex1 :
  ∀ beyond,
    Text.search (Text.permalink_here beyond)
      (String "/" (String "p" (String "/"
         (String (ascii_of_nat 195) (String (ascii_of_nat 169) "")))))
    = beyond (String (ascii_of_nat 195) (String (ascii_of_nat 169) "")).
Proof. intros beyond. simpl. by rewrite !orb_false_r. Qed.

Example path_name_ex1 : Pathlib.name "/full/a.jpg" = "a.jpg".
Proof. vm_compute. reflexivity. Qed.
Example path_name_ex2 : Pathlib.name "/media/" = "media".
Proof. vm_compute. reflexivity. Qed.
Example path_name_ex3 : Pathlib.name "/" = "".
Proof. vm_compute. reflexivity. Qed.

Example scenario_resolver :
  (_extract_image_urls scenario_env Demo.album Demo.empty_world).1
  = inr ["https://fotoshare.co/i/thumb/b.png"; "https://site/full/a.jpg"].
Proof. vm_compute. reflexivity. Qed.

Example scenario_requests :
  requests (_extract_image_urls scenario_env Demo.album Demo.empty_world).2
  = [Get Demo.album].
Proof. vm_compute. reflexivity. Qed.

(** * Properties *)

(** ** Text *)

Lemma before_no_char c s : Text.has_char c (Text.before c s) = false.
Proof.
  induction s as [|a s IH]; simpl; [done|].
  destruct (Ascii.eqb a c) eqn:E; simpl; [done|]. by rewrite E.
Qed.

Lemma string_app_cons a (x r : string) : String a x +:+ r = String a (x +:+ r).
Proof. done. Qed.

Lemma string_app_nil_l (r : string) : "" +:+ r = r.
Proof. done. Qed.

Lemma string_app_nil_inv (x r : string) : "" = x +:+ r → x = "" ∧ r = "".
Proof.
  destruct x; [rewrite string_app_nil_l; by intros <-|by rewrite string_app_cons].
Qed.

(** [before] and [after] cut the string at the first occurrence. *)
Lemma before_after c s :
  if Text.has_char c s then s = Text.before c s +:+ String c (Text.after c s)
  else Text.before c s = s.
Proof.
  induction s as [|a s IH]; simpl; [done|].
  destruct (Ascii.eqb a c) eqn:E; simpl.
  - apply Ascii.eqb_eq in E. by subst.
  - destruct (Text.has_char c s); rewrite string_app_cons || idtac; by f_equal.
Qed.

(** [re.search] finds the anchored pattern at the start of some suffix. *)
Lemma search_spec here s :
  Text.search here s = true ↔ ∃ pre suf, s = pre +:+ suf ∧ here suf = true.
Proof.
  induction s as [|a s IH]; simpl; rewrite orb_true_iff.
  - split.
    + intros [H|?]; [|done]. by exists "", "".
    + intros (pre & suf & Hs & H). left.
      by apply string_app_nil_inv in Hs as [_ ->].
  - rewrite IH. split.
    + intros [H|(pre & suf & -> & H)]; [by exists "", (String a s)|].
      by exists (String a pre), suf.
    + intros (pre & suf & Hs & H). destruct pre as [|b pre].
      * left. rewrite string_app_nil_l in Hs. by subst.
      * right. rewrite string_app_cons in Hs. injection Hs as -> ->. eauto.
Qed.

Lemma lower_char_idem b : Text.lower_char (Text.lower_char b) = Text.lower_char b.
Proof. by destruct b as [[] [] [] [] [] [] [] []]. Qed.

Lemma is_lower_facts a :
  Text.is_lower a = true →
  Text.lower_char a = a ∧ nat_of_ascii a ≠ 196%nat.
Proof.
  destruct a as [[] [] [] [] [] [] [] []]; intros H; vm_compute in H;
    try discriminate H; by vm_compute.
Qed.

Lemma strip_dotted_i_spec s r :
  Text.strip_dotted_i s = Some r ↔
  ∃ b2, s = String (ascii_of_nat 196) (String b2 r) ∧
        (b2 = ascii_of_nat 176 ∨ b2 = ascii_of_nat 177).
Proof.
  split.
  - destruct s as [|b1 [|b2 r']]; simpl; [done..|].
    destruct (nat_of_ascii b1 =? 196)%nat eqn:E1; [|done]. simpl.
    apply Nat.eqb_eq in E1. apply (f_equal ascii_of_nat) in E1.
    rewrite ascii_nat_embedding in E1. subst b1.
    destruct (_ || _) eqn:E2; [|done]. intros [= ->]. exists b2. split; [done|].
    apply orb_true_iff in E2 as [E|E]; apply Nat.eqb_eq in E;
      apply (f_equal ascii_of_nat) in E; rewrite ascii_nat_embedding in E; auto.
  - by intros (b2 & -> & [-> | ->]).
Qed.

Lemma fold_case_dotted b2 r :
  b2 = ascii_of_nat 176 ∨ b2 = ascii_of_nat 177 →
  Text.fold_case (String (ascii_of_nat 196) (String b2 r))
  = String "i" (Text.fold_case r).
Proof. by intros [-> | ->]. Qed.

Lemma fold_case_plain b r :
  Text.strip_dotted_i (String b r) = None →
  Text.fold_case (String b r) = String (Text.lower_char b) (Text.fold_case r).
Proof.
  intros H. change (Text.fold_case (String b r))
    with (match Text.strip_dotted_i (String b r), r with
          | Some _, String _ r2 => String "i" (Text.fold_case r2)
          | _, _ => String (Text.lower_char b) (Text.fold_case r)
          end).
  by rewrite H.
Qed.

Lemma strip_dotted_i_other b r :
  nat_of_ascii b ≠ 196%nat → Text.strip_dotted_i (String b r) = None.
Proof.
  intros Hb. destruct (Text.strip_dotted_i (String b r)) as [r'|] eqn:E; [|done].
  apply strip_dotted_i_spec in E as (b2 & [= -> _] & _). by destruct Hb.
Qed.

(** what a text is made of when its folding begins with a small letter *)
Lemma fold_case_inv x a p :
  Text.is_lower a = true →
  Text.fold_case x = String a p →
  (∃ b x', x = String b x' ∧ Text.lower_char b = a ∧
           Text.strip_dotted_i x = None ∧ Text.fold_case x' = p) ∨
  (a = "i"%char ∧
   ∃ x', Text.strip_dotted_i x = Some x' ∧ Text.fold_case x' = p).
Proof.
  intros Ha H. destruct x as [|b x]; [done|].
  destruct (Text.strip_dotted_i (String b x)) as [x'|] eqn:E.
  - right. pose proof E as E'.
    apply strip_dotted_i_spec in E as (b2 & [= -> ->] & Hb2).
    rewrite fold_case_dotted in H by done. injection H as <- <-. eauto.
  - left. rewrite fold_case_plain in H by done. injection H as <- <-.
    by exists b, x.
Qed.

(** matching a literal of small letters without regard to case *)
Lemma strip_prefix_ci_spec p s r :
  Urllib.all_chars Text.is_lower p = true →
  Text.strip_prefix_ci p s = Some r ↔
  ∃ x, s = x +:+ r ∧ Text.fold_case x = p.
Proof.
  revert s. induction p as [|a p IH]; intros s Hp; simpl.
  - split.
    + intros [= ->]. by exists "".
    + intros (x & -> & Hx). destruct x as [|b x]; [done|].
      simpl in Hx. by repeat case_match.
  - simpl in Hp. apply andb_true_iff in Hp as [Ha Hp].
    destruct (is_lower_facts a Ha) as [Hla Hna]. split.
    + destruct (Text.strip_letter_ci a s) as [r1|] eqn:E; [|done].
      intros (x & -> & Hx)%IH; [|done].
      unfold Text.strip_letter_ci in E. destruct s as [|b s]; [done|].
      destruct (Ascii.eqb (Text.lower_char a) (Text.lower_char b)) eqn:Eb.
      * injection E as ->. apply Ascii.eqb_eq in Eb. rewrite Hla in Eb.
        exists (String b x). split; [done|].
        rewrite fold_case_plain, <- Eb, Hx; [done|].
        apply strip_dotted_i_other. intros Hb.
        apply (f_equal ascii_of_nat) in Hb. rewrite ascii_nat_embedding in Hb.
        subst b. simpl in Eb. subst a. by vm_compute in Ha.
      * destruct (Ascii.eqb (Text.lower_char a) "i") eqn:Ei; [|done].
        apply Ascii.eqb_eq in Ei. rewrite Hla in Ei. subst a.
        apply strip_dotted_i_spec in E as (b2 & [= -> ->] & Hb2).
        exists (String (ascii_of_nat 196) (String b2 x)). split; [done|].
        by rewrite fold_case_dotted, Hx.
    + intros (x & -> & Hx).
      apply fold_case_inv in Hx as [(b & x' & -> & Hb & Hd & Hx)|(-> & x' & Hd & Hx)];
        [| |done].
      * rewrite string_app_cons. unfold Text.strip_letter_ci.
        rewrite <- Hb, lower_char_idem, Ascii.eqb_refl. apply IH; eauto.
      * apply strip_dotted_i_spec in Hd as (b2 & -> & Hb2).
        rewrite !string_app_cons.
        assert (Text.strip_letter_ci "i"
                  (String (ascii_of_nat 196) (String b2 (x' +:+ r)))
                = Some (x' +:+ r)) as ->.
        { unfold Text.strip_letter_ci.
          change (Ascii.eqb (Text.lower_char "i")
                    (Text.lower_char (ascii_of_nat 196))) with false.
          change (Ascii.eqb (Text.lower_char "i") "i") with true. cbv iota.
          apply strip_dotted_i_spec. eauto. }
        apply IH; eauto.
Qed.

(** [_is_image] in words: somewhere in the string a dot is followed by one
    of the four extensions, in any case, and then by a question mark, by the
    end of the string, or by a newline that ends the string. *)
Lemma is_image_spec s :
  _is_image s = true ↔
  ∃ pre ext rest,
    s = pre +:+ "." +:+ ext +:+ rest ∧
    Text.fold_case ext ∈ ["jpg"; "jpeg"; "png"; "gif"] ∧
    Text.query_or_end rest = true.
Proof.
  unfold _is_image. rewrite search_spec. split.
  - intros (pre & suf & -> & H). destruct suf as [|c suf]; [done|].
    simpl in H. destruct (decide (c = "."%char)) as [->|Hc].
    + apply existsb_exists in H as (rest & Hin & Hq).
      apply list_elem_of_In, list_elem_of_omap in Hin as (e & He & Hs).
      assert (Urllib.all_chars Text.is_lower e = true) as Hlow.
      { clear -He.
        repeat (apply elem_of_cons in He as [->|He]; [done|]).
        by apply elem_of_nil in He. }
      apply strip_prefix_ci_spec in Hs as (x & -> & Hx); [|done].
      exists pre, x, rest. split_and!; [done| |done]. by rewrite Hx.
    + destruct c as [[] [] [] [] [] [] [] []]; try done.
  - intros (pre & ext & rest & -> & He & Hq).
    exists pre, ("." +:+ ext +:+ rest). split; [done|].
    change (existsb Text.query_or_end (Text.image_ext_rests (ext +:+ rest)) = true).
    apply existsb_exists. exists rest. split; [|done].
    apply list_elem_of_In, list_elem_of_omap. exists (Text.fold_case ext).
    split; [done|]. apply strip_prefix_ci_spec; [|by exists ext].
    clear -He.
    repeat (apply elem_of_cons in He as [->|He]; [done|]).
    by apply elem_of_nil in He.
Qed.

Lemma strip_prefix_app p q s r :
  Text.strip_prefix (p +:+ q) s = Some r → is_Some (Text.strip_prefix p s).
Proof.
  revert s. induction p as [|a p IH]; intros s; simpl; [eauto|].
  destruct s as [|b s]; [done|]. destruct (Ascii.eqb a b); [apply IH|done].
Qed.

Lemma starts_with_app p q s :
  Text.starts_with (p +:+ q) s = true → Text.starts_with p s = true.
Proof.
  unfold Text.starts_with. rewrite !bool_decide_eq_true.
  intros [r Hr]. by eapply strip_prefix_app.
Qed.

Lemma contains_app p q s :
  Text.contains (p +:+ q) s = true → Text.contains p s = true.
Proof.
  induction s as [|a s IH]; simpl; rewrite !orb_true_iff.
  - intros [H|?]; [|done]. left. by eapply starts_with_app.
  - intros [H|H]; [left; by eapply starts_with_app|right; auto].
Qed.

Lemma is_image_nonempty s : _is_image s = true → s ≠ "".
Proof. by intros H ->. Qed.

Lemma length_app (a b : string) :
  String.length (a +:+ b) = (String.length a + String.length b)%nat.
Proof. induction a as [|c a IH]; simpl; [done|]. by rewrite <- IH. Qed.

Lemma app_ne_self (a b : string) : b ≠ "" → a +:+ b ≠ a.
Proof.
  intros Hb Heq. apply (f_equal String.length) in Heq.
  rewrite length_app in Heq. destruct b; [done|]. simpl in Heq. lia.
Qed.

Lemma part_suffix_ne dest : Pathlib.with_part_suffix dest ≠ dest.
Proof. by apply app_ne_self. Qed.

(** ** The monad *)

Lemma bind_inr {A B} (m : M A) (k : A → M B) w a w' :
  m w = (inr a, w') → (m ≫= k) w = k a w'.
Proof. unfold mbind, M_bind. by intros ->. Qed.

Lemma bind_inl {A B} (m : M A) (k : A → M B) w e w' :
  m w = (inl e, w') → (m ≫= k) w = (inl e, w').
Proof. unfold mbind, M_bind. by intros ->. Qed.

(** A loop whose body either updates the accumulator as [f] says or raises
    an exception that depends on the element alone: the loop computes the
    fold, or raises at an element of that kind. *)
Lemma for_each_cases {A B} (body : B → A → M B) (f : B → A → B)
    (bad : A → exn → Prop) l acc w :
  (∀ acc x w,
     (body acc x w = (inr (f acc x), w) ∧ ∀ e, ¬ bad x e) ∨
     (∃ e, bad x e ∧ body acc x w = (inl e, w))) →
  (for_each body l acc w = (inr (foldl f acc l), w) ∧
   ∀ x e, x ∈ l → ¬ bad x e) ∨
  (∃ x e, x ∈ l ∧ bad x e ∧ for_each body l acc w = (inl e, w)).
Proof.
  intros Hbody. revert acc. induction l as [|x l IH]; intros acc; simpl.
  - left. split; [done|]. by intros x e ?%elem_of_nil.
  - destruct (Hbody acc x w) as [[Hx Hok]|(e & He & Hx)].
    + destruct (IH (f acc x)) as [[Hl Hall]|(y & e & Hy & He & Hl)].
      * left. split; [by erewrite bind_inr by exact Hx|].
        intros y e [->|Hy]%elem_of_cons; [apply Hok|by apply Hall].
      * right. exists y, e. split_and!; [by right|done|].
        by erewrite bind_inr by exact Hx.
    + right. exists x, e. split_and!; [by left|done|].
      by erewrite bind_inl by exact Hx.
Qed.

(** ** [sorted] *)

Lemma sorted_Sorted (X : gset string) : StronglySorted String.le (sorted X).
Proof. apply StronglySorted_merge_sort; apply _. Qed.

Lemma sorted_NoDup (X : gset string) : NoDup (sorted X).
Proof.
  unfold sorted. rewrite merge_sort_Permutation. apply NoDup_elements.
Qed.

Lemma elem_of_sorted (X : gset string) u : u ∈ sorted X ↔ u ∈ X.
Proof.
  unfold sorted. rewrite merge_sort_Permutation. apply elem_of_elements.
Qed.

Section tier1.
Context (env : Env) (album_url : string).

Lemma elem_of_add_srcs srcs (X : gset string) u :
  u ∈ foldl (add_src env album_url) X srcs ↔
  u ∈ X ∨ ∃ s, Some s ∈ srcs ∧ _is_image s = true ∧ u = clean_url env album_url s.
Proof.
  revert X. induction srcs as [|src srcs IH]; intros X; simpl.
  - split; [auto|]. intros [?|(s & Hs & _)]; [done|]. by apply elem_of_nil in Hs.
  - rewrite IH. clear IH. unfold add_src at 1.
    destruct src as [s|].
    + destruct (truthy (Some s) && _is_image s) eqn:E.
      * apply andb_true_iff in E as [_ E].
        rewrite elem_of_union, elem_of_singleton. split.
        -- intros [[->|?]|(s' & Hs' & ?)]; [right|by left|right].
           ++ exists s. split_and!; [by left|done..].
           ++ exists s'. split; [by right|done].
        -- intros [?|(s' & Hs' & Hi & ->)]; [by left; right|].
           apply elem_of_cons in Hs' as [[= ->]|Hs']; [by left; left|].
           right. eauto.
      * split.
        -- intros [?|(s' & Hs' & ?)]; [by left|]. right. exists s'.
           split; [by right|done].
        -- intros [?|(s' & Hs' & Hi & ->)]; [by left|].
           apply elem_of_cons in Hs' as [[= ->]|Hs']; [|right; eauto].
           apply andb_false_iff in E as [E|E]; [|congruence].
           apply bool_decide_eq_false in E.
           destruct E. by apply is_image_nonempty.
    + split.
      * intros [?|(s' & Hs' & ?)]; [by left|]. right. exists s'.
        split; [by right|done].
      * intros [?|(s' & Hs' & Hi & ->)]; [by left|].
        apply elem_of_cons in Hs' as [?|Hs']; [done|]. right. eauto.
Qed.

Lemma tag_srcs_references tag s :
  s ≠ "" →
  (tag_name tag ∈ ["a"; "img"] ∧ Some s ∈ tag_srcs tag) ↔ s ∈ tag_references tag.
Proof.
  intros Hs. unfold tag_srcs, tag_references.
  generalize _FULL_RES_ATTRS. intros attrs.
  destruct (bool_decide (tag_name tag = "a")) eqn:Ea.
  - apply bool_decide_eq_true in Ea.
    rewrite bool_decide_eq_false_2 by (rewrite Ea; done).
    destruct (tag_get "href" tag) as [h|]; simpl.
    + case_bool_decide as Hh; simpl.
      * rewrite !list_elem_of_singleton. split; [by intros [_ [= ->]]|].
        intros ->. split; [rewrite Ea; by left|done].
      * split; [by intros [_ ?%elem_of_nil]|].
        intros ->%list_elem_of_singleton. by destruct Hh.
    + split; [by intros [_ ?%elem_of_nil]|by intros ?%elem_of_nil].
  - apply bool_decide_eq_false in Ea. simpl.
    destruct (bool_decide (tag_name tag = "img")) eqn:Ei.
    + apply bool_decide_eq_true in Ei. simpl.
      rewrite list_elem_of_fmap, list_elem_of_omap. split.
      * intros (_ & attr & ? & ?). eauto.
      * intros (attr & ? & ?). split; [rewrite Ei; by right; left|eauto].
    + apply bool_decide_eq_false in Ei.
      split; [by intros [_ ?%elem_of_nil]|by intros ?%elem_of_nil].
Qed.

Lemma elem_of_add_tags tags (X : gset string) u :
  u ∈ foldl (λ candidates tag,
               foldl (add_src env album_url) candidates (tag_srcs tag)) X tags ↔
  u ∈ X ∨ ∃ tag s, tag ∈ tags ∧ Some s ∈ tag_srcs tag ∧ _is_image s = true
                   ∧ u = clean_url env album_url s.
Proof.
  revert X. induction tags as [|tag tags IH]; intros X; simpl.
  - split; [auto|]. intros [?|(t & s & Ht & _)]; [done|]. by apply elem_of_nil in Ht.
  - rewrite IH, elem_of_add_srcs. split.
    + intros [[?|(s & ? & ? & ?)]|(t & s & ? & ?)]; [by left|right..].
      * exists tag, s. split; [by left|done].
      * exists t, s. split; [by right|done].
    + intros [?|(t & s & Ht & ? & ? & ?)]; [by left; left|].
      apply elem_of_cons in Ht as [->|Ht]; [left; right; eauto|right; eauto 10].
Qed.

(** The candidates of Case 1 are exactly the query-stripped absolute forms
    of the matching references. *)
Lemma elem_of_tier1 soup u :
  u ∈ tier1 env album_url soup ↔
  ∃ s, s ∈ image_references soup ∧ u = clean_url env album_url s.
Proof.
  unfold tier1. rewrite elem_of_add_tags. unfold image_references, references.
  split.
  - intros [?|(tag & s & Ht & Hs & Hi & ->)]; [set_solver|].
    exists s. split; [|done]. apply list_elem_of_filter. split; [done|].
    apply list_elem_of_bind. exists tag.
    apply list_elem_of_filter in Ht as [Hn Ht]. split; [|done].
    apply tag_srcs_references; [by apply is_image_nonempty|done].
  - intros (s & Hs & ->). right.
    apply list_elem_of_filter in Hs as [Hi Hs].
    apply list_elem_of_bind in Hs as (tag & Hs & Ht).
    apply tag_srcs_references in Hs as [Hn Hs]; [|by apply is_image_nonempty].
    exists tag, s. split_and!; [|done..].
    apply list_elem_of_filter. done.
Qed.

Lemma tier1_nonempty soup :
  image_references soup ≠ [] → tier1 env album_url soup ≠ ∅.
Proof.
  destruct (image_references soup) as [|s l] eqn:E; [done|]. intros _ He.
  assert (clean_url env album_url s ∈ tier1 env album_url soup) as Hin.
  { apply elem_of_tier1. exists s. split; [|done]. rewrite E. by left. }
  rewrite He in Hin. set_solver.
Qed.

Lemma tier1_no_query soup u :
  u ∈ tier1 env album_url soup → Text.has_char "?" u = false.
Proof.
  intros (s & _ & ->)%elem_of_tier1. apply before_no_char.
Qed.

End tier1.

(** ** The session *)

Lemma fetch_served env r w status chunks :
  server env (trace w) r = Served status chunks true →
  fetch env r w
  = (inr {| status_code := status; text := concat_chunks chunks |},
     add_trace w [Net r]).
Proof. intros H. unfold fetch, send, mbind, M_bind. by rewrite H. Qed.

Lemma fetch_broken env r w :
  (∀ status chunks, server env (trace w) r ≠ Served status chunks true) →
  fetch env r w = (inl ConnectionError, add_trace w [Net r]).
Proof.
  intros H. unfold fetch, send, mbind, M_bind.
  destruct (server env (trace w) r) as [|status chunks [|]] eqn:E; try done.
  by destruct (H status chunks).
Qed.

Lemma raise_for_status_ok status w :
  is_error_status status = false → raise_for_status status w = (inr (), w).
Proof. unfold raise_for_status. by intros ->. Qed.

Lemma raise_for_status_error status w :
  is_error_status status = true → raise_for_status status w = (inl (HTTPError status), w).
Proof. unfold raise_for_status. by intros ->. Qed.

(** ** Case 1 at the level of the resolver *)

Lemma absolute_accepted env base link w :
  urljoin_error env base link = None →
  _absolute env base link w = (inr (urljoin env base link), w).
Proof. unfold _absolute. by intros ->. Qed.

Lemma absolute_rejected env base link msg w :
  urljoin_error env base link = Some msg →
  _absolute env base link w = (inl (ValueError msg), w).
Proof. unfold _absolute. by intros ->. Qed.

(** The loop of Case 1 returns the candidates [tier1] when [urljoin] accepts
    every matching reference, and raises on the first one it rejects. *)
Lemma case1_cases env album_url soup w :
  (case1 env album_url soup w = (inr (tier1 env album_url soup), w) ∧
   ∀ s, s ∈ image_references soup → urljoin_error env album_url s = None) ∨
  (∃ s msg, s ∈ image_references soup ∧
            urljoin_error env album_url s = Some msg ∧
            case1 env album_url soup w = (inl (ValueError msg), w)).
Proof.
  set (bad_src := λ (src : option string) (e : exn),
         ∃ s msg, src = Some s ∧ _is_image s = true ∧
                  urljoin_error env album_url s = Some msg ∧ e = ValueError msg).
  set (bad_tag := λ (tag : Tag) (e : exn),
         ∃ src, src ∈ tag_srcs tag ∧ bad_src src e).
  assert (∀ X src w,
     (case1_src env album_url X src w = (inr (add_src env album_url X src), w) ∧
      ∀ e, ¬ bad_src src e) ∨
     (∃ e, bad_src src e ∧ case1_src env album_url X src w = (inl e, w))) as Hsrc.
  { intros X src w0. unfold case1_src, add_src, clean_url.
    destruct src as [s|]; [|left; split; [done|by intros e (? & ? & ? & _)]].
    destruct (truthy (Some s) && _is_image s) eqn:E.
    - apply andb_true_iff in E as [_ E].
      destruct (urljoin_error env album_url s) as [msg|] eqn:Hj.
      + right. exists (ValueError msg). split; [by exists s, msg|].
        by erewrite bind_inl by (by apply absolute_rejected).
      + left. split; [by erewrite bind_inr by (by apply absolute_accepted)|].
        intros e (? & ? & [= <-] & _ & ? & _). congruence.
    - left. split; [done|]. intros e (? & ? & [= <-] & Hi & _).
      apply andb_false_iff in E as [E|E]; [|congruence].
      apply bool_decide_eq_false in E. destruct E. by apply is_image_nonempty. }
  assert (∀ X tag w,
     (for_each (case1_src env album_url) (tag_srcs tag) X w
      = (inr (foldl (add_src env album_url) X (tag_srcs tag)), w) ∧
      ∀ e, ¬ bad_tag tag e) ∨
     (∃ e, bad_tag tag e ∧
           for_each (case1_src env album_url) (tag_srcs tag) X w = (inl e, w)))
    as Htag.
  { intros X tag w0.
    destruct (for_each_cases _ _ bad_src (tag_srcs tag) X w0 Hsrc)
      as [[Hrun Hok]|(src & e & Hin & He & Hrun)].
    - left. split; [done|]. intros e (src & Hin & He). by eapply Hok.
    - right. exists e. split; [by exists src|done]. }
  assert (∀ tag e, tag ∈ find_all ["a"; "img"] soup → bad_tag tag e →
            ∃ s msg, s ∈ image_references soup ∧
                     urljoin_error env album_url s = Some msg ∧ e = ValueError msg)
    as Hbad.
  { intros tag e Ht (src & Hin & s & msg & -> & Hi & Hj & ->).
    exists s, msg. split_and!; [|done..].
    apply list_elem_of_filter. split; [done|].
    apply list_elem_of_bind. exists tag.
    apply list_elem_of_filter in Ht as [Hn Ht]. split; [|done].
    apply tag_srcs_references; [by apply is_image_nonempty|done]. }
  unfold case1, tier1.
  destruct (for_each_cases _ _ bad_tag (find_all ["a"; "img"] soup) ∅ w Htag)
    as [[Hrun Hok]|(tag & e & Hin & He & Hrun)].
  - left. split; [done|]. intros s Hs.
    destruct (urljoin_error env album_url s) as [msg|] eqn:Hj; [|done].
    apply list_elem_of_filter in Hs as [Hi Hs].
    apply list_elem_of_bind in Hs as (tag & Hs & Ht).
    apply tag_srcs_references in Hs as [Hn Hs]; [|by apply is_image_nonempty].
    destruct (Hok tag (ValueError msg)); [by apply list_elem_of_filter|].
    exists (Some s). split; [done|]. by exists s, msg.
  - right. destruct (Hbad tag e Hin He) as (s & msg & Hs & Hj & ->). eauto.
Qed.

(** The list comprehension of Case 2 returns the links [thumb_links] when
    [urljoin] accepts every permalink, and raises on the first one it
    rejects. *)
Lemma case2_links_cases env album_url soup w :
  (case2_links env album_url soup w = (inr (thumb_links env album_url soup), w) ∧
   ∀ href, href ∈ permalinks env soup → urljoin_error env album_url href = None) ∨
  (∃ href msg, href ∈ permalinks env soup ∧
               urljoin_error env album_url href = Some msg ∧
               case2_links env album_url soup w = (inl (ValueError msg), w)).
Proof.
  set (bad := λ (href : string) (e : exn),
         ∃ msg, urljoin_error env album_url href = Some msg ∧ e = ValueError msg).
  assert (∀ l (acc : list string),
            foldl (λ links href, links ++ [urljoin env album_url href]) acc l
            = acc ++ (urljoin env album_url <$> l)) as Hfold.
  { induction l as [|x l IH]; intros acc; simpl; [by rewrite app_nil_r|].
    by rewrite IH, <- app_assoc. }
  unfold case2_links, thumb_links.
  destruct (for_each_cases
              (λ links href, url ← _absolute env album_url href; mret (links ++ [url]))
              (λ links href, links ++ [urljoin env album_url href])
              bad (permalinks env soup) [] w)
    as [[Hrun Hok]|(href & e & Hin & (msg & Hj & ->) & Hrun)].
  - intros acc href w0.
    destruct (urljoin_error env album_url href) as [msg|] eqn:Hj.
    + right. exists (ValueError msg). split; [by exists msg|].
      by erewrite bind_inl by (by apply absolute_rejected).
    + left. split; [by erewrite bind_inr by (by apply absolute_accepted)|].
      intros e (? & ? & _). congruence.
  - left. rewrite Hrun, Hfold. split; [done|]. intros href Hin.
    destruct (urljoin_error env album_url href) as [msg|] eqn:Hj; [|done].
    destruct (Hok href (ValueError msg) Hin). by exists msg.
  - right. eauto.
Qed.

(** The resolver once the album page is fetched. *)
Lemma extract_fetched env album_url w status chunks :
  server env (trace w) (Get album_url) = Served status chunks true →
  is_error_status status = false →
  _extract_image_urls env album_url w
  = (let soup := parse_html env (concat_chunks chunks) in
     candidates ← case1 env album_url soup;
     candidates ← (if bool_decide (candidates = ∅)
                    then links ← case2_links env album_url soup;
                         tier2 env links candidates
                    else mret candidates);
     mret (sorted candidates))
      (add_trace w [Net (Get album_url)]).
Proof.
  intros Hs Hst. unfold _extract_image_urls, session_get.
  erewrite bind_inr by (by apply fetch_served). simpl.
  erewrite bind_inr by (by apply raise_for_status_ok). done.
Qed.

Lemma extract_tier1 env album_url w status chunks :
  server env (trace w) (Get album_url) = Served status chunks true →
  is_error_status status = false →
  image_references (parse_html env (concat_chunks chunks)) ≠ [] →
  (∀ s, s ∈ image_references (parse_html env (concat_chunks chunks)) →
        urljoin_error env album_url s = None) →
  _extract_image_urls env album_url w
  = (inr (sorted (tier1 env album_url (parse_html env (concat_chunks chunks)))),
     add_trace w [Net (Get album_url)]).
Proof.
  intros Hs He Hne Hok.
  rewrite (extract_fetched env album_url w status chunks) by done. simpl.
  destruct (case1_cases env album_url (parse_html env (concat_chunks chunks))
              (add_trace w [Net (Get album_url)]))
    as [[Hrun _]|(s & msg & Hin & Hj & _)]; [|by rewrite Hok in Hj].
  erewrite bind_inr by exact Hrun.
  rewrite bool_decide_eq_false_2 by (by apply tier1_nonempty). done.
Qed.

Lemma extract_tier1_rejected env album_url w status chunks s :
  server env (trace w) (Get album_url) = Served status chunks true →
  is_error_status status = false →
  s ∈ image_references (parse_html env (concat_chunks chunks)) →
  is_Some (urljoin_error env album_url s) →
  ∃ msg, _extract_image_urls env album_url w
         = (inl (ValueError msg), add_trace w [Net (Get album_url)]).
Proof.
  intros Hs He Hin [msg0 Hj].
  rewrite (extract_fetched env album_url w status chunks) by done. simpl.
  destruct (case1_cases env album_url (parse_html env (concat_chunks chunks))
              (add_trace w [Net (Get album_url)]))
    as [[_ Hok]|(s' & msg & _ & _ & Hrun)]; [by rewrite Hok in Hj|].
  exists msg. by erewrite bind_inl by exact Hrun.
Qed.

(** C2 (amended). When the album page has at least one anchor link target
    or image attribute that matches the image-file pattern, the album page is the
    only page the resolver requests: the thumbnail traversal is not run.  If
    [urljoin] accepts every matching reference, the resolver returns the
    sorted, duplicate-free sequence whose members are exactly the
    query-stripped absolute forms of the matching references; if it rejects
    one of them, the resolver raises the [ValueError]. *)
Theorem resolver_direct_extraction env album_url w status chunks :
  server env (trace w) (Get album_url) = Served status chunks true →
  is_error_status status = false →
  image_references (parse_html env (concat_chunks chunks)) ≠ [] →
  ((∀ s, s ∈ image_references (parse_html env (concat_chunks chunks)) →
         urljoin_error env album_url s = None) →
   ∃ out,
     _extract_image_urls env album_url w
       = (inr out, add_trace w [Net (Get album_url)]) ∧
     StronglySorted String.le out ∧ NoDup out ∧
     ∀ u, u ∈ out ↔
          ∃ s, s ∈ image_references (parse_html env (concat_chunks chunks))
               ∧ u = Text.before "?" (urljoin env album_url s)) ∧
  (∀ s, s ∈ image_references (parse_html env (concat_chunks chunks)) →
        is_Some (urljoin_error env album_url s) →
        ∃ msg, _extract_image_urls env album_url w
               = (inl (ValueError msg), add_trace w [Net (Get album_url)])).
Proof.
  intros Hs He Hne. split.
  - intros Hok. eexists. split_and!.
    + by apply (extract_tier1 env album_url w status chunks Hs He).
    + apply sorted_Sorted.
    + apply sorted_NoDup.
    + intros u. rewrite elem_of_sorted. apply elem_of_tier1.
  - intros s Hin Hj. by eapply extract_tier1_rejected.
Qed.

(** ** Case 2: thumbnail traversal *)

Lemma add_log_nil w : add_log w [] = w.
Proof. destruct w. unfold add_log. simpl. by rewrite app_nil_r. Qed.

(** One iteration of the loop: the page is requested, and whatever happens
    the iteration ends normally with the page's entry; an exception is
    logged. *)
Lemma inspect_guarded env tlink w :
  try_except (inspect env tlink)
    (λ exc, _log (CouldNotInspect tlink exc);; mret None) w
  = (inr (page_entry env tlink (server env (trace w) (Get tlink))),
     add_log (add_trace w [Net (Get tlink)])
       (option_list (CouldNotInspect tlink
                       <$> inspect_error env tlink (server env (trace w) (Get tlink))))).
Proof.
  unfold try_except, inspect, session_get, page_entry, inspect_error,
    fetched_text, fetch_error.
  destruct (server env (trace w) (Get tlink)) as [|status chunks [|]] eqn:E.
  - rewrite (bind_inl _ _ _ ConnectionError (add_trace w [Net (Get tlink)]))
      by (apply fetch_broken; intros ??; by rewrite E).
    done.
  - erewrite bind_inr by (by apply fetch_served). simpl.
    destruct (is_error_status status) eqn:Hst.
    + erewrite bind_inl by (by apply raise_for_status_error). done.
    + erewrite bind_inr by (by apply raise_for_status_ok).
      unfold first_image_entry, rejected_source. simpl.
      destruct (find_img_src (parse_html env (concat_chunks chunks))) as [img|];
        [|by rewrite add_log_nil].
      change (Some img ≫= ?f) with (f img). cbv beta.
      destruct (tag_get "src" img) as [src|]; [|by rewrite add_log_nil].
      change (Some src ≫= ?f) with (f src). cbv beta.
      destruct (_is_image src); [|by rewrite add_log_nil].
      destruct (urljoin_error env tlink src) as [msg|] eqn:Hj.
      * by erewrite bind_inl by (by apply absolute_rejected).
      * erewrite bind_inr by (by apply absolute_accepted).
        by rewrite add_log_nil.
  - rewrite (bind_inl _ _ _ ConnectionError (add_trace w [Net (Get tlink)]))
      by (apply fetch_broken; intros ??; by rewrite E).
    done.
Qed.

Lemma elem_of_add_entry (X : gset string) entry u :
  u ∈ add_entry X entry ↔ u ∈ X ∨ entry = Some u.
Proof.
  destruct entry as [v|]; simpl.
  - rewrite elem_of_union, elem_of_singleton. split.
    + intros [->|?]; [by right|by left].
    + intros [?|[= ->]]; [by right|by left].
  - split; [by left|]. by intros [?|?].
Qed.

Lemma tier2_run env links (X : gset string) w :
  ∃ Y,
    tier2 env links X w
      = (inr Y, add_log (add_trace w ((λ l, Net (Get l)) <$> links))
                  (traversal_lines env (trace w) links)) ∧
    ∀ u, u ∈ Y ↔
         u ∈ X ∨
         ∃ i tlink,
           links !! i = Some tlink ∧
           page_entry env tlink
             (server env (trace w ++ ((λ l, Net (Get l)) <$> take i links)) (Get tlink))
           = Some u.
Proof.
  revert X w. induction links as [|tlink rest IH]; intros X w.
  - exists X. split.
    + simpl. unfold add_log, add_trace. simpl. rewrite !app_nil_r. by destruct w.
    + intros u. split; [auto|]. by intros [?|(i & l & ? & _)].
  - pose proof (inspect_guarded env tlink w) as H1.
    destruct (IH (add_entry X (page_entry env tlink (server env (trace w) (Get tlink))))
                (add_log (add_trace w [Net (Get tlink)])
                   (option_list (CouldNotInspect tlink
                      <$> inspect_error env tlink (server env (trace w) (Get tlink))))))
      as (Y & H2 & HY).
    exists Y. split.
    + simpl. erewrite bind_inr by exact H1. rewrite H2.
      unfold add_log, add_trace. simpl. by rewrite <- !app_assoc.
    + intros u. rewrite HY, elem_of_add_entry. clear HY H1 H2. simpl. split.
      * intros [[?|?]|(i & l & Hl & He)]; [by left|right..].
        -- exists 0%nat, tlink. simpl. by rewrite app_nil_r.
        -- exists (S i), l. simpl. split; [done|].
           by rewrite <- app_assoc in He.
      * intros [?|(i & l & Hl & He)]; [by left; left|].
        destruct i as [|i]; simpl in *.
        -- injection Hl as ->. rewrite app_nil_r in He. by left; right.
        -- right. exists i, l. split; [done|]. by rewrite <- app_assoc.
Qed.

Lemma tier1_empty env album_url soup :
  image_references soup = [] → tier1 env album_url soup = ∅.
Proof.
  intros Hrefs. apply set_eq. intros u. rewrite elem_of_tier1, Hrefs. split.
  - intros (s & Hin & _). by apply elem_of_nil in Hin.
  - intros Hin. by apply not_elem_of_empty in Hin.
Qed.

(** The resolver when the album page is fetched and has no matching
    reference: the comprehension of Case 2, then its loop. *)
Lemma extract_tier2 env album_url w status chunks :
  server env (trace w) (Get album_url) = Served status chunks true →
  is_error_status status = false →
  image_references (parse_html env (concat_chunks chunks)) = [] →
  _extract_image_urls env album_url w
  = (links ← case2_links env album_url (parse_html env (concat_chunks chunks));
     candidates ← tier2 env links ∅;
     mret (sorted candidates))
      (add_trace w [Net (Get album_url)]).
Proof.
  intros Hs He Hrefs.
  rewrite (extract_fetched env album_url w status chunks) by done. simpl.
  destruct (case1_cases env album_url (parse_html env (concat_chunks chunks))
              (add_trace w [Net (Get album_url)]))
    as [[Hrun _]|(s & msg & Hin & _)]; [|rewrite Hrefs in Hin; by apply elem_of_nil in Hin].
  erewrite bind_inr by exact Hrun.
  rewrite tier1_empty, bool_decide_eq_true_2 by done.
  unfold mbind, M_bind.
  destruct (case2_links _ _ _ _) as [[e|links] w1]; [done|].
  by destruct (tier2 _ _ _ _) as [[e|Y] w2].
Qed.

Lemma fetch_error_fetched reply :
  fetch_error reply = None ↔ is_Some (fetched_text reply).
Proof.
  destruct reply as [|status chunks [|]]; simpl.
  - split; [done|by intros [? ?]].
  - destruct (is_error_status status).
    + split; [done|by intros [? ?]].
    + split; [eauto|done].
  - split; [done|by intros [? ?]].
Qed.

Lemma extract_album_failure env album_url w exc :
  fetch_error (server env (trace w) (Get album_url)) = Some exc →
  _extract_image_urls env album_url w
  = (inl exc, add_trace w [Net (Get album_url)]).
Proof.
  intros He. unfold _extract_image_urls, session_get.
  destruct (server env (trace w) (Get album_url)) as [|status chunks [|]] eqn:E;
    simpl in He.
  - injection He as <-. apply bind_inl, fetch_broken. intros ??. by rewrite E.
  - erewrite bind_inr by (by apply fetch_served). simpl.
    destruct (is_error_status status) eqn:Hst; [|done]. injection He as <-.
    apply bind_inl. by apply raise_for_status_error.
  - injection He as <-. apply bind_inl, fetch_broken. intros ??. by rewrite E.
Qed.

Lemma fetch_error_Exception reply exc :
  fetch_error reply = Some exc → is_Exception exc = true.
Proof.
  destruct reply as [|status chunks [|]]; simpl; try by intros [= <-].
  destruct (is_error_status status); [by intros [= <-]|done].
Qed.

(** The runs of the resolver: the album page cannot be fetched; [urljoin]
    rejects a matching reference or a permalink; or the resolver returns the
    sorted candidates after the requests for the album page and, in Case 2,
    for the photo pages. *)
Lemma extract_cases env album_url w :
  (∃ exc, fetch_error (server env (trace w) (Get album_url)) = Some exc ∧
          _extract_image_urls env album_url w
          = (inl exc, add_trace w [Net (Get album_url)])) ∨
  (∃ msg, _extract_image_urls env album_url w
          = (inl (ValueError msg), add_trace w [Net (Get album_url)])) ∨
  (∃ X lines pages,
     _extract_image_urls env album_url w
     = (inr (sorted X),
        add_log (add_trace w (Net (Get album_url) :: ((λ l, Net (Get l)) <$> pages)))
          lines)).
Proof.
  destruct (fetch_error (server env (trace w) (Get album_url))) as [exc|] eqn:He.
  { left. exists exc. split; [done|]. by apply extract_album_failure. }
  right. destruct (server env (trace w) (Get album_url)) as [|status chunks [|]] eqn:E;
    simpl in He; try done.
  destruct (is_error_status status) eqn:Hst; [done|].
  rewrite (extract_fetched env album_url w status chunks) by done. simpl.
  destruct (case1_cases env album_url (parse_html env (concat_chunks chunks))
              (add_trace w [Net (Get album_url)]))
    as [[Hrun _]|(s & msg & _ & _ & Hrun)].
  - erewrite bind_inr by exact Hrun. case_bool_decide as Ht.
    + destruct (case2_links_cases env album_url (parse_html env (concat_chunks chunks))
                  (add_trace w [Net (Get album_url)]))
        as [[Hlinks _]|(href & msg & _ & _ & Hlinks)].
      * right.
        destruct (tier2_run env
                    (thumb_links env album_url (parse_html env (concat_chunks chunks)))
                    (tier1 env album_url (parse_html env (concat_chunks chunks)))
                    (add_trace w [Net (Get album_url)])) as (Y & Hrun2 & _).
        eexists Y, _, (thumb_links env album_url (parse_html env (concat_chunks chunks))).
        erewrite bind_inr; [|by erewrite bind_inr by exact Hlinks].
        unfold mret, M_ret, add_log, add_trace. simpl. by rewrite <- app_assoc.
      * left. exists msg. apply bind_inl. by erewrite bind_inl by exact Hlinks.
    + right. exists (tier1 env album_url (parse_html env (concat_chunks chunks))), [], [].
      unfold add_log, add_trace. simpl. by rewrite app_nil_r.
  - left. exists msg. by erewrite bind_inl by exact Hrun.
Qed.

(** C7 (amended). When the album page yields no direct candidate and [urljoin]
    accepts the address of every permalink anchor, every permalink page is
    requested in turn whatever happened to the pages before it, the resolver
    returns normally, and its result consists exactly of the entries of the
    pages: a page contributes the source of its first image element with a
    source attribute, when the page is fetched without error, that source
    matches the image-file pattern and [urljoin] accepts it, and nothing
    otherwise; a page whose fetch fails contributes nothing.  If [urljoin]
    rejects the address of a permalink anchor, the resolver raises before
    any photo page is requested. *)
Theorem resolver_thumbnail_traversal env album_url w status chunks :
  server env (trace w) (Get album_url) = Served status chunks true →
  is_error_status status = false →
  image_references (parse_html env (concat_chunks chunks)) = [] →
  let hrefs := permalinks env (parse_html env (concat_chunks chunks)) in
  let links := thumb_links env album_url (parse_html env (concat_chunks chunks)) in
  let reply_at (i : nat) (tlink : string) :=
    server env (trace w ++ Net (Get album_url) :: ((λ l, Net (Get l)) <$> take i links))
           (Get tlink) in
  ((∀ href, href ∈ hrefs → urljoin_error env album_url href = None) →
   ∃ out w',
     _extract_image_urls env album_url w = (inr out, w') ∧
     requests w' = requests w ++ Get album_url :: (Get <$> links) ∧
     StronglySorted String.le out ∧ NoDup out ∧
     (∀ u, u ∈ out ↔
           ∃ i tlink, links !! i = Some tlink
                      ∧ page_entry env tlink (reply_at i tlink) = Some u) ∧
     (∀ i tlink, links !! i = Some tlink →
                 fetched_text (reply_at i tlink) = None →
                 page_entry env tlink (reply_at i tlink) = None)) ∧
  (∀ href, href ∈ hrefs → is_Some (urljoin_error env album_url href) →
           ∃ msg, _extract_image_urls env album_url w
                  = (inl (ValueError msg), add_trace w [Net (Get album_url)])).
Proof.
  intros Hs He Hempty hrefs links reply_at.
  rewrite (extract_tier2 env album_url w status chunks) by done.
  destruct (case2_links_cases env album_url (parse_html env (concat_chunks chunks))
              (add_trace w [Net (Get album_url)]))
    as [[Hlinks Hok]|(href & msg & Hin & Hj & Hlinks)].
  - split; [|intros href Hin [msg Hj]; by rewrite Hok in Hj].
    intros _.
    destruct (tier2_run env links ∅ (add_trace w [Net (Get album_url)]))
      as (Y & Hrun & HY).
    exists (sorted Y). eexists. split_and!.
    + erewrite bind_inr by exact Hlinks.
      erewrite bind_inr by exact Hrun. done.
    + unfold add_log, requests. simpl.
      rewrite !omap_app. simpl. rewrite <- app_assoc. simpl. do 2 f_equal.
      clear. induction links as [|l links IH]; csimpl; [done|]. by f_equal.
    + apply sorted_Sorted.
    + apply sorted_NoDup.
    + intros u. rewrite elem_of_sorted, HY. simpl. split.
      * intros [?|(i & l & Hl & Hp)]; [set_solver|]. exists i, l. split; [done|].
        unfold reply_at. by rewrite <- app_assoc in Hp.
      * intros (i & l & Hl & Hp). right. exists i, l. split; [done|].
        unfold reply_at in Hp. by rewrite <- app_assoc.
    + intros i tlink _ Hf. unfold page_entry. by rewrite Hf.
  - split; [intros Hok; by rewrite Hok in Hj|].
    intros _ _ _. exists msg. by erewrite bind_inl by exact Hlinks.
Qed.

(** ** The file system *)

Lemma string_app_assoc (a b c : string) : (a +:+ b) +:+ c = a +:+ (b +:+ c).
Proof.
  induction a as [|x a IH]; [done|].
  change (String x ((a +:+ b) +:+ c) = String x (a +:+ b +:+ c)). by rewrite IH.
Qed.

Lemma string_app_nil_r (a : string) : a +:+ "" = a.
Proof.
  induction a as [|x a IH]; [done|].
  change (String x (a +:+ "") = String x a). by rewrite IH.
Qed.

Lemma fs_do_inv env op w r w' :
  fs_do env op w = (r, w') →
  trace w' = trace w ++ [Fs op] ∧ stderr w' = stderr w ∧
  ((r = inr () ∧ fs_apply op (fs w) = Some (fs w')) ∨
   (r = inl (OSError op) ∧ fs w' = fs w)).
Proof.
  unfold fs_do. destruct (disk_ok env (trace w) op).
  - destruct (fs_apply op (fs w)) as [m|] eqn:E; intros [= <- <-]; simpl; auto.
  - intros [= <- <-]; simpl; auto.
Qed.

(** The loop writes to the marker only; when it ends normally the body was
    complete and the marker holds all of it. *)
Lemma write_chunks_inv env tmp chunks complete w c r w' :
  fs w !! tmp = Some (File c) →
  write_chunks env tmp chunks complete w = (r, w') →
  (∀ p, p ≠ tmp → fs w' !! p = fs w !! p) ∧
  (∃ c', fs w' !! tmp = Some (File c')) ∧
  (r = inr () → complete = true ∧
                fs w' !! tmp = Some (File (c +:+ concat_chunks chunks))) ∧
  (∀ e, r = inl e → is_Exception e = true).
Proof.
  revert w c r w'. induction chunks as [|chunk rest IH]; intros w c r w' Hc; simpl.
  - destruct complete; unfold mret, M_ret, raise; intros [= <- <-].
    + split_and!; [done|eauto| |done]. intros _. by rewrite string_app_nil_r.
    + split_and!; [done|eauto|done|]. by intros ? [= <-].
  - unfold mbind, M_bind at 1.
    case_bool_decide as Hne.
    + destruct (fs_do env (WriteChunk tmp chunk) w) as [[e|[]] w1] eqn:E1;
        apply fs_do_inv in E1 as (_ & _ & [[? Hap]|[? Hfs]]); simplify_eq.
      * intros [= <- <-]. rewrite Hfs.
        split_and!; [done|eauto|done|by intros ? [= <-]].
      * simpl in Hap. rewrite Hc in Hap. injection Hap as Hap.
        intros Hrun.
        apply (IH w1 (c +:+ chunk)) in Hrun as (Ho & Ht & Hr & He);
          [|by rewrite <- Hap, lookup_insert_eq].
        split_and!; [| done | | done].
        -- intros p Hp. rewrite Ho by done. by rewrite <- Hap, lookup_insert_ne.
        -- intros Hok. destruct (Hr Hok) as [-> Hf]. split; [done|].
           by rewrite Hf, string_app_assoc.
    + subst chunk. simpl.
      intros Hrun. by apply (IH w c) in Hrun.
Qed.

(** ** [_download_one] *)

Lemma download_skip env url dest w :
  is_Some (fs w !! dest) → _download_one env url dest w = (inr (), w).
Proof.
  intros H. unfold _download_one, path_exists, mbind, M_bind.
  by rewrite bool_decide_eq_true_2.
Qed.

Lemma store_inv env dest chunks complete w r w' :
  fs w !! dest = None →
  store env dest chunks complete w = (r, w') →
  let tmp := Pathlib.with_part_suffix dest in
  (∀ p, p ≠ dest → p ≠ tmp → fs w' !! p = fs w !! p) ∧
  (∀ e, r = inl e →
        is_Exception e = true ∧ fs w' !! dest = None ∧
        ∀ p, p ≠ tmp → fs w' !! p = fs w !! p) ∧
  (r = inr () →
     complete = true ∧
     fs w' !! dest = Some (File (concat_chunks chunks)) ∧
     fs w' !! tmp = None ∧
     last (trace w') = Some (Fs (Rename tmp dest))).
Proof.
  intros Hd Hrun tmp. unfold store in Hrun. fold tmp in Hrun.
  assert (tmp ≠ dest) as Htd by apply part_suffix_ne.
  unfold mbind, M_bind in Hrun.
  destruct (fs_do env (OpenWb tmp) w) as [[e|[]] w1] eqn:E1;
    apply fs_do_inv in E1 as (_ & _ & [[? Hop]|[? Hfs1]]); simplify_eq.
  { rewrite Hfs1. split_and!; [done| |done]. by intros ? [= <-]. }
  simpl in Hop.
  assert (fs w1 = <[tmp := File ""]> (fs w)) as Hfs1.
  { destruct (fs w !! tmp) as [[|?]|]; by simplify_eq. }
  clear Hop.
  destruct (write_chunks env tmp chunks complete w1) as [[e|[]] w2] eqn:E2;
    apply (write_chunks_inv _ _ _ _ _ "") in E2 as (Ho & [c' Ht] & Hr & He);
    try (by rewrite Hfs1, lookup_insert_eq).
  { simplify_eq. split_and!; [| |done].
    - intros p ? ?. rewrite Ho by done. by rewrite Hfs1, lookup_insert_ne.
    - intros ? [= <-]. split_and!; [by apply He| |].
      + rewrite Ho by done. by rewrite Hfs1, lookup_insert_ne.
      + intros p Hp. rewrite Ho by done. by rewrite Hfs1, lookup_insert_ne. }
  destruct Hr as [-> Hcontent]; [done|]. clear He Ht.
  assert (fs w2 !! dest = None) as Hd2.
  { rewrite Ho by done. by rewrite Hfs1, lookup_insert_ne. }
  destruct (fs_do env (Rename tmp dest) w2) as [[e|[]] w3] eqn:E3;
    apply fs_do_inv in E3 as (Htr & _ & [[? Hop]|[? Hfs3]]); simplify_eq.
  - split_and!; [| |done].
    + intros p ? ?. rewrite Hfs3, Ho by done. by rewrite Hfs1, lookup_insert_ne.
    + intros ? [= <-]. split_and!; [done|by rewrite Hfs3|].
      intros p ?. rewrite Hfs3, Ho by done. by rewrite Hfs1, lookup_insert_ne.
  - simpl in Hop. rewrite Hcontent, Hd2 in Hop. injection Hop as Hfs3.
    split_and!; [|done|].
    + intros p ? ?. rewrite <- Hfs3, lookup_insert_ne, lookup_delete_ne, Ho by done.
      by rewrite Hfs1, lookup_insert_ne.
    + intros _. split_and!; [done| | |].
      * by rewrite <- Hfs3, lookup_insert_eq.
      * by rewrite <- Hfs3, lookup_insert_ne, lookup_delete_eq.
      * rewrite Htr. apply last_snoc.
Qed.

Lemma download_absent env url dest w :
  fs w !! dest = None →
  _download_one env url dest w
  = match server env (trace w) (Get url) with
    | Unreachable => (inl ConnectionError, add_trace w [Net (Get url)])
    | Served status chunks complete =>
        if is_error_status status
        then (inl (HTTPError status), add_trace w [Net (Get url)])
        else store env dest chunks complete (add_trace w [Net (Get url)])
    end.
Proof.
  intros Hd. unfold _download_one, path_exists, send, mbind at 1 2, M_bind.
  rewrite bool_decide_eq_false_2 by (rewrite Hd; by intros [? ?]).
  destruct (server env (trace w) (Get url)) as [|status chunks complete]; [done|].
  unfold mbind at 1, M_bind, raise_for_status.
  by destruct (is_error_status status).
Qed.

Lemma download_inv env url dest w r w' :
  _download_one env url dest w = (r, w') →
  let tmp := Pathlib.with_part_suffix dest in
  (∀ p, p ≠ dest → p ≠ tmp → fs w' !! p = fs w !! p) ∧
  (∀ e, r = inl e →
        is_Exception e = true ∧ fs w !! dest = None ∧ fs w' !! dest = None ∧
        ∀ p, p ≠ tmp → fs w' !! p = fs w !! p) ∧
  (r = inr () → is_Some (fs w' !! dest)) ∧
  (fs w !! dest = None → r = inr () →
     ∃ status chunks,
       server env (trace w) (Get url) = Served status chunks true ∧
       is_error_status status = false ∧
       fs w' !! dest = Some (File (concat_chunks chunks)) ∧
       fs w' !! tmp = None ∧
       last (trace w') = Some (Fs (Rename tmp dest))).
Proof.
  intros Hrun tmp. destruct (fs w !! dest) as [n|] eqn:Hd.
  - rewrite download_skip in Hrun by (by rewrite Hd). injection Hrun as <- <-.
    split_and!; [done|done| |done]. intros _. by rewrite Hd.
  - rewrite download_absent in Hrun by done.
    destruct (server env (trace w) (Get url)) as [|status chunks complete].
    { injection Hrun as <- <-. split_and!; try done. by intros ? [= <-]. }
    destruct (is_error_status status) eqn:Hst.
    { injection Hrun as <- <-. split_and!; try done. by intros ? [= <-]. }
    apply store_inv in Hrun as (Ho & He & Hr); [|done]. fold tmp in Ho, He, Hr.
    simpl in Ho, He. split_and!; [done| | |].
    + intros e ->. destruct (He e eq_refl) as (? & ? & ?). done.
    + intros ->. destruct Hr as (_ & -> & _); done.
    + intros _ ->. destruct Hr as (-> & ? & ? & ?); [done|]. eauto 10.
Qed.

(** C3. When the destination exists the call returns at once: the world,
    and so the trace of requests and every file, is unchanged and the result
    is success; a call that follows a successful call is therefore a no-op. *)
Theorem download_idempotent env url dest w :
  (is_Some (fs w !! dest) →
     _download_one env url dest w = (inr (), w)) ∧
  (∀ w1, _download_one env url dest w = (inr (), w1) →
         _download_one env url dest w1 = (inr (), w1)).
Proof.
  split; [apply download_skip|].
  intros w1 Hrun. apply download_skip.
  by apply download_inv in Hrun as (_ & _ & Hr & _); auto.
Qed.

(** C4. A call that fails leaves no file at the destination, and the only
    path whose content may differ afterwards is the marker; the destination
    comes into existence only when the call succeeds, by the rename that
    ends it, after the complete body was written to the marker. *)
Theorem download_atomic env url dest w r w' :
  _download_one env url dest w = (r, w') →
  let tmp := Pathlib.with_part_suffix dest in
  (∀ e, r = inl e →
        fs w' !! dest = None ∧ ∀ p, p ≠ tmp → fs w' !! p = fs w !! p) ∧
  (fs w !! dest = None → is_Some (fs w' !! dest) →
     r = inr () ∧
     ∃ status chunks,
       server env (trace w) (Get url) = Served status chunks true ∧
       is_error_status status = false ∧
       fs w' !! dest = Some (File (concat_chunks chunks)) ∧
       fs w' !! tmp = None ∧
       last (trace w') = Some (Fs (Rename tmp dest))).
Proof.
  intros Hrun tmp.
  apply download_inv in Hrun as (Ho & He & Hr & Hs). fold tmp in Ho, He, Hs.
  split.
  - intros e ->. destruct (He e eq_refl) as (_ & _ & ? & ?). done.
  - intros Hd Hex. destruct r as [e|[]].
    + destruct (He e eq_refl) as (_ & _ & Hn & _). rewrite Hn in Hex.
      by destruct Hex.
    + split; [done|]. by apply Hs.
Qed.

(** ** The dispatcher *)

(** One URL: the transfer is run, a failure is logged, and the loop goes on
    with the remaining URLs. *)
Lemma dispatch_cons env out_dir url rest w :
  dispatch env out_dir (url :: rest) w
  = match dispatch env out_dir rest
            (after_transfer url (_download_one env url (dest_path env out_dir url) w)) with
    | (inr outcomes, w') =>
        (inr ((url, (_download_one env url (dest_path env out_dir url) w).1)
                :: outcomes), w')
    | (inl e, w') => (inl e, w')
    end.
Proof.
  simpl. unfold attempt, after_transfer, mbind at 1 2, M_bind.
  destruct (_download_one env url (dest_path env out_dir url) w) as [[e|[]] w1] eqn:E.
  - apply download_inv in E as (_ & He & _). destruct (He e eq_refl) as [-> _].
    simpl. unfold _log, add_log, mbind, M_bind. simpl.
    by destruct (dispatch env out_dir rest _) as [[?|?] ?].
  - simpl. unfold mbind, M_bind. simpl.
    by destruct (dispatch env out_dir rest _) as [[?|?] ?].
Qed.

Lemma dispatch_total env out_dir images w :
  ∃ outcomes w',
    dispatch env out_dir images w = (inr outcomes, w') ∧ outcomes.*1 = images.
Proof.
  revert w. induction images as [|url rest IH]; intros w.
  - by exists [], w.
  - rewrite dispatch_cons.
    destruct (IH (after_transfer url
                    (_download_one env url (dest_path env out_dir url) w)))
      as (outcomes & w' & -> & Hf).
    eexists _, w'. split; [done|]. csimpl. by rewrite Hf.
Qed.

Lemma dispatch_app env out_dir pre post w outs_pre w_pre :
  dispatch env out_dir pre w = (inr outs_pre, w_pre) →
  ∃ outs_post w',
    dispatch env out_dir post w_pre = (inr outs_post, w') ∧
    dispatch env out_dir (pre ++ post) w = (inr (outs_pre ++ outs_post), w').
Proof.
  revert w outs_pre. induction pre as [|url pre IH]; intros w outs_pre Hpre.
  - injection Hpre as <- <-.
    destruct (dispatch_total env out_dir post w) as (o & w' & Ho & _). eauto.
  - simpl app. rewrite dispatch_cons in Hpre. rewrite dispatch_cons.
    destruct (dispatch env out_dir pre _) as [[e|o1] w1] eqn:E1; [done|].
    injection Hpre as <- <-.
    destruct (IH _ _ E1) as (o2 & w' & H2 & ->). eauto.
Qed.

Lemma requests_snoc_fs w w' op :
  trace w' = trace w ++ [Fs op] → requests w' = requests w.
Proof.
  unfold requests. intros ->. rewrite omap_app. simpl. apply app_nil_r.
Qed.

Lemma fs_apply_other op m m' p :
  fs_apply op m = Some m' →
  match op with
  | Mkdir q | OpenWb q | WriteChunk q _ => p ≠ q
  | Rename src dst => p ≠ src ∧ p ≠ dst
  end →
  m' !! p = m !! p.
Proof.
  destruct op as [q|q|q c|src dst]; simpl.
  - destruct (m !! q) as [[|?]|]; intros [= <-] ?; by rewrite lookup_insert_ne.
  - destruct (m !! q) as [[|?]|]; intros [= <-] ?; by rewrite lookup_insert_ne.
  - destruct (m !! q) as [[|?]|]; intros [= <-] ?; by rewrite lookup_insert_ne.
  - destruct (m !! src) as [n|]; [|done].
    destruct (m !! dst) as [[|?]|]; intros [= <-] [? ?];
      by rewrite lookup_insert_ne, lookup_delete_ne.
Qed.

Lemma fs_apply_keeps op m m' p :
  fs_apply op m = Some m' →
  match op with Rename src _ => p ≠ src | _ => True end →
  is_Some (m !! p) → is_Some (m' !! p).
Proof.
  intros Hap Hp Hs.
  assert (∀ (q : string) (n : Node) (m0 : gmap string Node),
            is_Some (m0 !! p) → is_Some (<[q := n]> m0 !! p)) as Hins.
  { intros q n m0 H0. destruct (decide (p = q)) as [->|Hne].
    - rewrite lookup_insert_eq. eauto.
    - by rewrite lookup_insert_ne. }
  destruct op as [q|q|q c|src dst]; simpl in Hap.
  - destruct (m !! q) as [[|?]|]; simplify_eq; by apply Hins.
  - destruct (m !! q) as [[|?]|]; simplify_eq; by apply Hins.
  - destruct (m !! q) as [[|?]|]; simplify_eq; by apply Hins.
  - destruct (m !! src) as [n|]; [|done].
    destruct (m !! dst) as [[|?]|]; simplify_eq; apply Hins;
      by rewrite lookup_delete_ne.
Qed.

Lemma fs_apply_rename src dst m m' :
  fs_apply (Rename src dst) m = Some m' → is_Some (m' !! dst).
Proof.
  simpl. destruct (m !! src) as [n|]; [|done].
  destruct (m !! dst) as [[|?]|]; intros [= <-]; rewrite lookup_insert_eq; eauto.
Qed.

(** what one effect on the file system does within a step *)
Lemma effect_fs env op next w s' w' :
  effect (fs_do env op) next w = (s', w') →
  stderr w' = stderr w ∧ requests w' = requests w ∧
  ((s' = next () ∧ fs_apply op (fs w) = Some (fs w')) ∨
   (s' = Finished (inl (OSError op)) ∧ fs w' = fs w)).
Proof.
  unfold effect. destruct (fs_do env op w) as [[e|[]] w1] eqn:E;
    apply fs_do_inv in E as (Ht & Hs & [[? Hap]|[? Hfs]]); simplify_eq;
    intros [= <- <-]; split_and!; eauto using requests_snoc_fs.
Qed.

Lemma step_facts env url dest s w s' w' :
  unfinished s = true →
  step env url dest s w = (s', w') →
  let tmp := Pathlib.with_part_suffix dest in
  stderr w' = stderr w ∧
  requests w' = requests w ++ match s with Requesting => [Get url] | _ => [] end ∧
  (∀ p, p ≠ dest → p ≠ tmp → fs w' !! p = fs w !! p) ∧
  (∀ p, p ≠ tmp → is_Some (fs w !! p) → is_Some (fs w' !! p)) ∧
  (s = Queued → w' = w ∧ ((s' = Requesting ∧ fs w !! dest = None) ∨
                          (s' = Finished (inr ()) ∧ is_Some (fs w !! dest)))) ∧
  (pending s = false → pending s' = false) ∧
  (s = Requesting → pending s' = false) ∧
  (∀ e, s' = Finished (inl e) → is_Exception e = true) ∧
  (s' = Finished (inr ()) → is_Some (fs w' !! dest)).
Proof.
  intros Hu Hstep tmp.
  destruct s as [| |chunks complete|[|chunk rest] complete| |r]; simpl in Hstep;
    fold tmp in Hstep; [| | | | | |done].
  - (* the existence check *)
    unfold effect, path_exists in Hstep. case_bool_decide as Hd; simplify_eq.
    + rewrite app_nil_r. split_and!; try done. intros _. split; [done|]. by right.
    + rewrite app_nil_r. split_and!; try done. intros _. split; [done|]. left.
      split; [done|]. by apply eq_None_not_Some.
  - (* the request *)
    unfold effect, send in Hstep.
    assert (requests {| fs := fs w; trace := trace w ++ [Net (Get url)];
                        stderr := stderr w |} = requests w ++ [Get url]) as Hreq.
    { unfold requests. simpl. by rewrite omap_app. }
    destruct (server env (trace w) (Get url)) as [|status chunks complete];
      [|destruct (is_error_status status)]; simplify_eq; simpl;
      split_and!; try done; by intros ? [= <-].
  - (* opening the marker *)
    apply effect_fs in Hstep as (Hs & Hr & [[-> Hap]|[-> Hfs]]).
    + rewrite app_nil_r. split_and!; try done.
      * intros p _ Hp. by eapply fs_apply_other.
      * intros p Hp. by eapply fs_apply_keeps.
    + rewrite app_nil_r, Hfs. split_and!; try done. by intros ? [= <-].
  - (* the end of the loop *)
    unfold effect in Hstep. simpl in Hstep. rewrite app_nil_r.
    destruct complete; simplify_eq; split_and!; try done. by intros ? [= <-].
  - (* one chunk *)
    case_bool_decide as Hne.
    + apply effect_fs in Hstep as (Hs & Hr & [[-> Hap]|[-> Hfs]]).
      * rewrite app_nil_r. split_and!; try done.
        -- intros p _ Hp. by eapply fs_apply_other.
        -- intros p Hp. by eapply fs_apply_keeps.
      * rewrite app_nil_r, Hfs. split_and!; try done. by intros ? [= <-].
    + unfold effect in Hstep. simpl in Hstep. simplify_eq.
      rewrite app_nil_r. by split_and!.
  - (* the rename *)
    apply effect_fs in Hstep as (Hs & Hr & [[-> Hap]|[-> Hfs]]).
    + rewrite app_nil_r. split_and!; try done.
      * intros p Hp1 Hp2. by eapply fs_apply_other.
      * intros p Hp. by eapply fs_apply_keeps.
      * intros _. by eapply fs_apply_rename.
    + rewrite app_nil_r, Hfs. split_and!; try done. by intros ? [= <-].
Qed.

(** Run without interruption, a call goes through its steps. *)
Lemma resume_steps env url dest s w r w' :
  resume env url dest s w = (r, w') →
  rtc (call_step env url dest) (s, w) (Finished r, w').
Proof.
  set (tmp := Pathlib.with_part_suffix dest).
  assert (∀ w r w', fs_do env (Rename tmp dest) w = (r, w') →
            rtc (call_step env url dest) (Renaming, w) (Finished r, w')) as Hren.
  { intros w0 r0 w0' H. apply rtc_once. split; [done|]. simpl. fold tmp.
    unfold effect. rewrite H. by destruct r0 as [?|[]]. }
  assert (∀ chunks complete w r w',
            (write_chunks env tmp chunks complete;; fs_do env (Rename tmp dest)) w
            = (r, w') →
            rtc (call_step env url dest) (Writing chunks complete, w) (Finished r, w'))
    as Hwr.
  { induction chunks as [|chunk rest IH]; intros complete w0 r0 w0' H.
    - simpl in H. destruct complete.
      + eapply rtc_l; [split; [done|reflexivity]|]. apply Hren. exact H.
      + unfold mbind, M_bind, raise in H. simplify_eq.
        apply rtc_once. by split.
    - simpl in H. unfold mbind at 1, M_bind at 1 in H.
      unfold mbind at 1, M_bind at 1 in H.
      destruct ((if bool_decide (chunk ≠ "")
                 then fs_do env (WriteChunk tmp chunk) else mret ()) w0)
        as [[e|[]] w1] eqn:E.
      + simplify_eq. apply rtc_once. split; [done|]. simpl. fold tmp.
        unfold effect. by rewrite E.
      + eapply rtc_l.
        * split; [done|]. simpl. fold tmp. unfold effect. by rewrite E.
        * apply IH. exact H. }
  assert (∀ chunks complete w r w',
            store env dest chunks complete w = (r, w') →
            rtc (call_step env url dest) (Opening chunks complete, w) (Finished r, w'))
    as Hop.
  { intros chunks complete w0 r0 w0' H. unfold store in H. fold tmp in H.
    unfold mbind at 1, M_bind at 1 in H.
    destruct (fs_do env (OpenWb tmp) w0) as [[e|[]] w1] eqn:E.
    - simplify_eq. apply rtc_once. split; [done|]. simpl. fold tmp.
      unfold effect. by rewrite E.
    - eapply rtc_l.
      + split; [done|]. simpl. fold tmp. unfold effect. by rewrite E.
      + apply Hwr. exact H. }
  assert (∀ w r w',
            resume env url dest Requesting w = (r, w') →
            rtc (call_step env url dest) (Requesting, w) (Finished r, w')) as Hreq.
  { intros w0 r0 w0' H. simpl in H. unfold mbind at 1, M_bind at 1, send in H.
    destruct (server env (trace w0) (Get url)) as [|status chunks complete] eqn:E.
    - unfold raise in H. simplify_eq. apply rtc_once. split; [done|]. simpl.
      unfold effect, send. by rewrite E.
    - unfold mbind at 1, M_bind at 1, raise_for_status in H.
      destruct (is_error_status status) eqn:Hst.
      + unfold raise in H. simplify_eq. apply rtc_once. split; [done|]. simpl.
        unfold effect, send. by rewrite E, Hst.
      + eapply rtc_l.
        * split; [done|]. simpl. unfold effect, send. by rewrite E, Hst.
        * apply Hop. exact H. }
  intros H. destruct s as [| |chunks complete|chunks complete| |r0].
  - simpl in H. unfold _download_one, mbind at 1, M_bind at 1, path_exists in H.
    case_bool_decide as Hd.
    + unfold mret, M_ret in H. simplify_eq. apply rtc_once. split; [done|]. simpl.
      unfold effect, path_exists. by rewrite bool_decide_eq_true_2.
    + eapply rtc_l.
      * split; [done|]. simpl. unfold effect, path_exists.
        by rewrite bool_decide_eq_false_2.
      * apply Hreq. exact H.
  - by apply Hreq.
  - by apply Hop.
  - by apply Hwr.
  - by apply Hren.
  - simpl in H. unfold lift in H. by simplify_eq.
Qed.

(** ** The batch as a sequence of steps *)

Lemma call_steps_batch env out_dir url pre post x y :
  rtc (call_step env url (dest_path env out_dir url)) x y →
  rtc (batch_step env out_dir)
      (pre ++ (url, x.1) :: post, x.2) (pre ++ (url, y.1) :: post, y.2).
Proof.
  induction 1 as [x|x y z [Hu Hs] _ IH]; [done|].
  eapply rtc_l; [|exact IH]. destruct x as [s w], y as [s' w']. simpl in *.
  by constructor.
Qed.

Lemma outcomes_of_cons url s jobs :
  outcomes_of ((url, s) :: jobs) = outcome_of url s ++ outcomes_of jobs.
Proof. done. Qed.

Lemma outcome_of_unfinished url s : unfinished s = true → outcome_of url s = [].
Proof. by destruct s. Qed.

Lemma advance_steps env out_dir k jobs w jobs' o w' pre :
  advance env out_dir k jobs w = (jobs', o, w') →
  rtc (batch_step env out_dir) (pre ++ jobs, w) (pre ++ jobs', w') ∧
  outcomes_of jobs' ≡ₚ outcomes_of jobs ++ o.
Proof.
  revert k pre jobs' o w'.
  induction jobs as [|[url s] rest IH]; intros k pre jobs' o w' H; simpl in H.
  - by simplify_eq.
  - destruct (unfinished s) eqn:Hu; [destruct k as [|k]|].
    + destruct (step env url (dest_path env out_dir url) s w) as [s' w1] eqn:Hs.
      simplify_eq. split; [apply rtc_once; by constructor|].
      rewrite !outcomes_of_cons, (outcome_of_unfinished url s) by done. simpl.
      apply Permutation_app_comm.
    + destruct (advance env out_dir k rest w) as [[rest' o'] w1] eqn:Hr.
      simplify_eq. destruct (IH _ (pre ++ [(url, s)]) _ _ _ Hr) as [Hsteps Ho].
      rewrite <- !app_assoc in Hsteps. split; [done|].
      by rewrite !outcomes_of_cons, Ho, app_assoc.
    + destruct (advance env out_dir k rest w) as [[rest' o'] w1] eqn:Hr.
      simplify_eq. destruct (IH _ (pre ++ [(url, s)]) _ _ _ Hr) as [Hsteps Ho].
      rewrite <- !app_assoc in Hsteps. split; [done|].
      by rewrite !outcomes_of_cons, Ho, app_assoc.
Qed.

Lemma pool_steps env out_dir n picks jobs finished w jobs' finished' w' :
  foldl (pool_step env out_dir n) (jobs, finished, w) picks = (jobs', finished', w') →
  finished ≡ₚ outcomes_of jobs →
  rtc (batch_step env out_dir) (jobs, w) (jobs', w') ∧
  finished' ≡ₚ outcomes_of jobs'.
Proof.
  revert jobs finished w. induction picks as [|pick picks IH];
    intros jobs finished w H Hf; simpl in H.
  - by simplify_eq.
  - destruct (advance env out_dir
                (pick `mod` (n `min` length (filter (λ j, unfinished j.2 = true) jobs)))
                jobs w) as [[jobs1 o] w1] eqn:Ha.
    destruct (advance_steps _ _ _ _ _ _ _ _ [] Ha) as [Hsteps Ho].
    apply IH in H as [Hsteps' Hf']; [|by rewrite Ho, Hf].
    split; [|done]. by etrans.
Qed.

Lemma drain_steps env out_dir jobs w late w' pre :
  drain env out_dir jobs w = (late, w') →
  ∃ jobs',
    rtc (batch_step env out_dir) (pre ++ jobs, w) (pre ++ jobs', w') ∧
    Forall (λ j, unfinished j.2 = false) jobs' ∧
    outcomes_of jobs' ≡ₚ outcomes_of jobs ++ late.
Proof.
  revert w late pre. induction jobs as [|[url s] rest IH]; intros w late pre H;
    simpl in H.
  - simplify_eq. by exists [].
  - destruct (unfinished s) eqn:Hu.
    + destruct (resume env url (dest_path env out_dir url) s w) as [r w1] eqn:Hr.
      destruct (drain env out_dir rest w1) as [outcomes w2] eqn:Hd.
      simplify_eq.
      destruct (IH _ _ (pre ++ [(url, Finished r)]) Hd) as (rest' & Hsteps & Hfin & Ho).
      rewrite <- !app_assoc in Hsteps.
      exists ((url, Finished r) :: rest'). split_and!.
      * etrans; [|exact Hsteps].
        apply (call_steps_batch env out_dir url pre rest (s, w) (Finished r, w1)).
        by apply resume_steps.
      * by constructor.
      * rewrite !outcomes_of_cons, (outcome_of_unfinished url s), Ho by done.
        simpl. apply Permutation_middle.
    + destruct (IH _ _ (pre ++ [(url, s)]) H) as (rest' & Hsteps & Hfin & Ho).
      rewrite <- !app_assoc in Hsteps.
      exists ((url, s) :: rest'). split_and!; [done|by constructor|].
      by rewrite !outcomes_of_cons, Ho, app_assoc.
Qed.

(** A batch is a sequence of steps of its calls that ends when every call
    has finished; the outcomes are those of the calls. *)
Lemma run_pool_steps env out_dir n images w :
  ∃ finished w' jobs',
    run_pool env out_dir n images w = (inr finished, w') ∧
    rtc (batch_step env out_dir) ((λ url, (url, Queued)) <$> images, w) (jobs', w') ∧
    Forall (λ j, unfinished j.2 = false) jobs' ∧
    finished ≡ₚ outcomes_of jobs'.
Proof.
  unfold run_pool.
  destruct (foldl (pool_step env out_dir n)
              ((λ url, (url, Queued)) <$> images, [], w) (schedule env))
    as [[jobs1 fin] w1] eqn:Hf.
  destruct (drain env out_dir jobs1 w1) as [late w2] eqn:Hd.
  apply pool_steps in Hf as [Hsteps1 Hfin].
  - destruct (drain_steps _ _ _ _ _ _ [] Hd) as (jobs' & Hsteps2 & Hall & Ho).
    exists (fin ++ late), w2, jobs'. split_and!; [done| |done|].
    + by etrans.
    + by rewrite Ho, Hfin.
  - clear. by induction images.
Qed.

(** ** What the steps of a batch keep *)

Lemma pending_urls_app l1 l2 : pending_urls (l1 ++ l2) = pending_urls l1 ++ pending_urls l2.
Proof. unfold pending_urls. by rewrite filter_app, fmap_app. Qed.

Lemma pending_urls_cons url s l :
  pending_urls ((url, s) :: l) = (if pending s then [url] else []) ++ pending_urls l.
Proof.
  unfold pending_urls. rewrite filter_cons. simpl.
  destruct (pending s); by case_decide.
Qed.

Lemma batch_step_frame env out_dir x y :
  batch_step env out_dir x y →
  y.1.*1 = x.1.*1 ∧ stderr y.2 = stderr x.2 ∧
  (∃ new, requests y.2 = requests x.2 ++ (Get <$> new) ∧
          new ++ pending_urls y.1 ⊆+ pending_urls x.1) ∧
  (Forall job_ok x.1 → Forall job_ok y.1).
Proof.
  intros [pre url s post w s' w' Hu Hs]. simpl.
  destruct (step_facts _ _ _ _ _ _ _ Hu Hs)
    as (Hst & Hreq & _ & _ & Hq & Hp & Hr & He & _).
  split_and!.
  - by rewrite !fmap_app.
  - done.
  - exists (match s with Requesting => [url] | _ => [] end). split.
    + rewrite Hreq. by destruct s.
    + rewrite !pending_urls_app, !pending_urls_cons.
      assert (match s with Requesting => [url] | _ => [] end
              ++ (if pending s' then [url] else [])
              ⊆+ (if pending s then [url] else [])) as Hsub.
      { destruct s; simpl; try (rewrite Hp by done; done).
        - destruct (pending s'); [done|]. apply submseteq_nil_l.
        - by rewrite Hr. }
      rewrite (app_assoc _ (pending_urls pre)),
        (Permutation_app_comm _ (pending_urls pre)), <- app_assoc.
      apply submseteq_skips_l. rewrite app_assoc. by apply submseteq_app.
  - rewrite !Forall_app, !Forall_cons. intros (? & _ & ?).
    split_and!; [done| |done]. intros e. simpl. apply He.
Qed.

Lemma batch_steps_frame env out_dir x y :
  rtc (batch_step env out_dir) x y →
  y.1.*1 = x.1.*1 ∧ stderr y.2 = stderr x.2 ∧
  (∃ new, requests y.2 = requests x.2 ++ (Get <$> new) ∧
          new ++ pending_urls y.1 ⊆+ pending_urls x.1) ∧
  (Forall job_ok x.1 → Forall job_ok y.1).
Proof.
  induction 1 as [x|x y z Hxy _ IH].
  - split_and!; [done|done| |done]. exists []. simpl. by rewrite app_nil_r.
  - apply batch_step_frame in Hxy as (Hu1 & Hs1 & (new1 & Hr1 & Hp1) & Ho1).
    destruct IH as (Hu2 & Hs2 & (new2 & Hr2 & Hp2) & Ho2).
    split_and!; [congruence|congruence| |auto].
    exists (new1 ++ new2). split.
    + by rewrite Hr2, Hr1, fmap_app, app_assoc.
    + etrans; [|exact Hp1]. rewrite <- app_assoc. by apply submseteq_skips_l.
Qed.

(** A call whose destination is absent and is left alone by the other calls
    sends its request, whatever the other calls do. *)
Lemma batch_steps_attempt env out_dir w0 u x y :
  rtc (batch_step env out_dir) x y →
  NoDup x.1.*1 →
  (∀ v, v ∈ x.1.*1 → v ≠ u →
        dest_path env out_dir u ≠ dest_path env out_dir v ∧
        dest_path env out_dir u ≠ Pathlib.with_part_suffix (dest_path env out_dir v)) →
  (∃ fetched, requests x.2 = requests w0 ++ (Get <$> fetched) ∧
     ∀ s, (u, s) ∈ x.1 →
          (s = Queued ∧ fs x.2 !! dest_path env out_dir u = None) ∨
          s = Requesting ∨ u ∈ fetched) →
  (∃ fetched, requests y.2 = requests w0 ++ (Get <$> fetched) ∧
     ∀ s, (u, s) ∈ y.1 →
          (s = Queued ∧ fs y.2 !! dest_path env out_dir u = None) ∨
          s = Requesting ∨ u ∈ fetched).
Proof.
  induction 1 as [x|x y z Hxy _ IH]; [done|]. intros Hnd Hapart Hinv.
  pose proof (batch_step_frame _ _ _ _ Hxy) as (Hurls & _).
  apply IH; [by rewrite Hurls|by rewrite Hurls|]. clear IH.
  destruct Hxy as [pre v s post w s' w' Hu Hs]. simpl in *.
  destruct (step_facts _ _ _ _ _ _ _ Hu Hs)
    as (_ & Hreq & Hother & _ & Hq & _ & _ & _ & _).
  destruct Hinv as (fetched & Hr & Hinv).
  exists (fetched ++ match s with Requesting => [v] | _ => [] end). split.
  { rewrite Hreq, Hr, fmap_app, <- app_assoc. by destruct s. }
  intros t Ht.
  rewrite fmap_app, fmap_cons in Hnd. simpl in Hnd.
  apply NoDup_app in Hnd as (_ & Hpre & [Hpost _]%NoDup_cons).
  assert ((u, t) ∈ pre ++ post → v ≠ u) as Hne.
  { intros [Hin|Hin]%elem_of_app ->.
    - apply (Hpre u); [|by left]. apply list_elem_of_fmap. by exists (u, t).
    - apply Hpost. apply list_elem_of_fmap. by exists (u, t). }
  assert ((u, t) ∈ pre ++ post →
          (t = Queued ∧ fs w' !! dest_path env out_dir u = None) ∨
          t = Requesting ∨
          u ∈ fetched ++ match s with Requesting => [v] | _ => [] end) as Hrest.
  { intros Hin. pose proof (Hne Hin) as Hvu.
    destruct (Hinv t) as [[-> Hd]|[->|Hf]].
    - apply elem_of_app in Hin as [?|?]; apply elem_of_app; [by left|by right; right].
    - left. split; [done|].
      destruct (Hapart v) as [Hd1 Hd2]; [|done|].
      { rewrite fmap_app, fmap_cons. apply elem_of_app. right. by left. }
      by rewrite Hother.
    - by right; left.
    - right; right. apply elem_of_app. by left. }
  apply elem_of_app in Ht as [Ht|[Ht|Ht]%elem_of_cons];
    [apply Hrest, elem_of_app; by left| |apply Hrest, elem_of_app; by right].
  injection Ht as -> ->.
  destruct (Hinv s) as [[-> Hd]|[->|Hf]].
  - apply elem_of_app. right. by left.
  - destruct (Hq eq_refl) as [-> [[-> _]|[_ [? Hsome]]]]; [by right; left|].
    congruence.
  - right; right. apply elem_of_app. right. by left.
  - right; right. apply elem_of_app. by left.
Qed.

(** A call that ended well leaves its destination in place, and so do the
    steps of the other calls unless one of them has that path as marker. *)
Lemma batch_steps_stored env out_dir u x y :
  rtc (batch_step env out_dir) x y →
  (∀ v, v ∈ x.1.*1 →
        dest_path env out_dir u ≠ Pathlib.with_part_suffix (dest_path env out_dir v)) →
  ((u, Finished (inr ())) ∈ x.1 → is_Some (fs x.2 !! dest_path env out_dir u)) →
  (u, Finished (inr ())) ∈ y.1 → is_Some (fs y.2 !! dest_path env out_dir u).
Proof.
  induction 1 as [x|x y z Hxy _ IH]; [done|]. intros Hapart Hinv.
  pose proof (batch_step_frame _ _ _ _ Hxy) as (Hurls & _).
  apply IH; [by rewrite Hurls|]. clear IH.
  destruct Hxy as [pre v s post w s' w' Hu Hs]. simpl in *.
  destruct (step_facts _ _ _ _ _ _ _ Hu Hs)
    as (_ & _ & _ & Hkeep & _ & _ & _ & _ & Hdone).
  assert ((u, Finished (inr ())) ∈ pre ++ post →
          is_Some (fs w' !! dest_path env out_dir u)) as Hrest.
  { intros Hin. apply Hkeep.
    - apply Hapart. rewrite fmap_app, fmap_cons. apply elem_of_app. right. by left.
    - apply Hinv. apply elem_of_app in Hin as [?|?]; apply elem_of_app;
        [by left|by right; right]. }
  intros [Ht|[Ht|Ht]%elem_of_cons]%elem_of_app;
    [apply Hrest, elem_of_app; by left| |apply Hrest, elem_of_app; by right].
  injection Ht as -> <-. by apply Hdone.
Qed.

Lemma outcomes_of_finished jobs :
  Forall (λ j, unfinished j.2 = false) jobs →
  (outcomes_of jobs).*1 = jobs.*1 ∧
  ∀ url r, (url, r) ∈ outcomes_of jobs ↔ (url, Finished r) ∈ jobs.
Proof.
  induction 1 as [|[url s] jobs Hs _ [IH1 IH2]].
  - split; [done|]. intros url r. split; by intros ?%elem_of_nil.
  - destruct s; try done. rewrite outcomes_of_cons. simpl. split.
    + f_equal. exact IH1.
    + intros u r0. rewrite !elem_of_cons, IH2. split.
      * intros [[= -> ->]|?]; [by left|by right].
      * intros [[= -> ->]|?]; [by left|by right].
Qed.

(** What a batch does, whatever the schedule. *)
Lemma run_pool_spec env out_dir n images w :
  ∃ finished w' fetched,
    run_pool env out_dir n images w = (inr finished, w') ∧
    finished.*1 ≡ₚ images ∧
    Forall (λ o, ∀ e, o.2 = inl e → is_Exception e = true) finished ∧
    stderr w' = stderr w ∧
    requests w' = requests w ++ (Get <$> fetched) ∧
    fetched ⊆+ images ∧
    (NoDup images →
     ∀ url, url ∈ images → fs w !! dest_path env out_dir url = None →
            undisturbed env out_dir images url → url ∈ fetched) ∧
    (∀ url, (url, inr ()) ∈ finished →
            (∀ v, v ∈ images →
                  dest_path env out_dir url
                  ≠ Pathlib.with_part_suffix (dest_path env out_dir v)) →
            is_Some (fs w' !! dest_path env out_dir url)).
Proof.
  destruct (run_pool_steps env out_dir n images w)
    as (finished & w' & jobs' & Hrun & Hsteps & Hall & Hfin).
  set (init := (λ url, (url, Queued)) <$> images) in *.
  assert (init.*1 = images) as Hinit.
  { unfold init. rewrite <- list_fmap_compose. apply list_fmap_id. }
  assert (pending_urls init = images) as Hpend.
  { unfold init. clear. induction images as [|u l IH]; [done|].
    rewrite fmap_cons, pending_urls_cons, IH. done. }
  destruct (batch_steps_frame _ _ _ _ Hsteps)
    as (Hurls & Hst & (fetched & Hreq & Hsub) & Hok). simpl in *.
  destruct (outcomes_of_finished jobs' Hall) as [Ho1 Ho2].
  exists finished, w', fetched. split_and!; try done.
  - by rewrite Hfin, Ho1, Hurls, Hinit.
  - rewrite Hfin. apply Forall_forall. intros [url r] Hin e He. simpl in He. subst r.
    apply Ho2 in Hin.
    assert (Forall job_ok jobs') as Hjobs.
    { apply Hok. unfold init. apply Forall_fmap, Forall_true. by intros u e0. }
    by apply (proj1 (Forall_forall _ _) Hjobs _ Hin e).
  - rewrite <- Hpend. etrans; [|exact Hsub]. apply submseteq_inserts_r. done.
  - intros Hnd url Hin Habsent Happ.
    destruct (batch_steps_attempt env out_dir w url _ _ Hsteps)
      as (fetched' & Hreq' & Hinv); simpl.
    + by rewrite Hinit.
    + rewrite Hinit. intros v Hv Hne. by apply Happ.
    + exists []. split; [by rewrite app_nil_r|]. intros s Hs. left. split; [|done].
      unfold init in Hs. apply list_elem_of_fmap in Hs as (? & [= _ ->] & _). done.
    + simpl in Hreq', Hinv. assert (fetched' = fetched) as ->.
      { rewrite Hreq in Hreq'. apply app_inv_head in Hreq'.
        assert (Inj (=) (=) Get) as HGet by (by intros ?? [=]).
        symmetry. by apply (list_fmap_eq_inj Get HGet). }
      assert (url ∈ jobs'.*1) as Hj by (by rewrite Hurls, Hinit).
      apply list_elem_of_fmap in Hj as ([u s] & -> & Hj). simpl in *.
      destruct (Hinv s Hj) as [[-> _]|[->|?]]; [| |done].
      * by apply (proj1 (Forall_forall _ _) Hall) in Hj.
      * by apply (proj1 (Forall_forall _ _) Hall) in Hj.
  - intros url Hin Happ. rewrite Hfin in Hin. apply Ho2 in Hin.
    apply (batch_steps_stored env out_dir url _ _ Hsteps); simpl; [|  |done].
    + by rewrite Hinit.
    + unfold init. by intros (? & [= _ ?] & _)%list_elem_of_fmap.
Qed.

(** ** The results as [main] handles them *)

Lemma shuffle_Permutation {A} picks (l : list A) : shuffle picks l ≡ₚ l.
Proof.
  revert l. induction picks as [|pick picks IH]; intros l; simpl; [done|].
  destruct (l !! (pick `mod` length l)%nat) as [x|] eqn:E; [|done].
  rewrite IH. symmetry. by apply delete_Permutation.
Qed.

Lemma as_completed_Permutation env finished : as_completed env finished ≡ₚ finished.
Proof.
  unfold as_completed. by rewrite shuffle_Permutation, take_drop.
Qed.

Lemma failure_lines_cons url r outcomes :
  failure_lines ((url, r) :: outcomes)
  = match r with inl exc => [DownloadFailed url exc] | inr _ => [] end
    ++ failure_lines outcomes.
Proof. unfold failure_lines. simpl. by destruct r. Qed.

Lemma add_log_app w l1 l2 : add_log (add_log w l1) l2 = add_log w (l1 ++ l2).
Proof. unfold add_log. simpl. by rewrite app_assoc. Qed.

Lemma handle_run outcomes w :
  Forall (λ o : Outcome, ∀ e, o.2 = inl e → is_Exception e = true) outcomes →
  handle outcomes w = (inr (), add_log w (failure_lines outcomes)).
Proof.
  intros H. revert w. induction H as [|[url r] outcomes Hr _ IH]; intros w.
  - by rewrite add_log_nil.
  - rewrite failure_lines_cons. cbn [handle]. destruct r as [exc|[]].
    + rewrite (Hr exc eq_refl). unfold mbind, M_bind, _log. simpl.
      change {| fs := fs w; trace := trace w;
                stderr := stderr w ++ [DownloadFailed url exc] |}
        with (add_log w [DownloadFailed url exc]).
      by rewrite IH, add_log_app.
    + unfold mbind, M_bind, mret, M_ret. by rewrite IH.
Qed.

Lemma thread_pool_ok n w : 0 < n → thread_pool n w = (inr (), w).
Proof. intros Hn. unfold thread_pool. by rewrite (proj2 (Z.leb_gt n 0)). Qed.

Lemma thread_pool_error n w :
  n ≤ 0 →
  thread_pool n w = (inl (ValueError "max_workers must be greater than 0"), w).
Proof. intros Hn. unfold thread_pool. by rewrite (proj2 (Z.leb_le n 0)). Qed.

(** What the dispatcher does with a pool of one worker at least, whatever
    the schedule: it ends normally with the outcomes in the order in which
    [main] handled them. *)
Lemma dispatcher_run env out_dir n images w :
  0 < n →
  ∃ outcomes w' fetched,
    dispatcher env out_dir n images w = (inr outcomes, w') ∧
    outcomes.*1 ≡ₚ images ∧
    stderr w' = stderr w ++ failure_lines outcomes ∧
    requests w' = requests w ++ (Get <$> fetched) ∧
    fetched ⊆+ images ∧
    (NoDup images →
     ∀ url, url ∈ images → fs w !! dest_path env out_dir url = None →
            undisturbed env out_dir images url → url ∈ fetched) ∧
    (∀ url, (url, inr ()) ∈ outcomes →
            (∀ v, v ∈ images →
                  dest_path env out_dir url
                  ≠ Pathlib.with_part_suffix (dest_path env out_dir v)) →
            is_Some (fs w' !! dest_path env out_dir url)).
Proof.
  intros Hn.
  destruct (run_pool_spec env out_dir (Z.to_nat n) images w)
    as (finished & w2 & fetched & Hrun & Hurls & Hexc & Hst & Hreq & Hsub & Hatt & Hsto).
  exists (as_completed env finished), (add_log w2 (failure_lines (as_completed env finished))),
    fetched.
  split_and!; try done.
  - unfold dispatcher. erewrite bind_inr by (by apply thread_pool_ok).
    erewrite bind_inr by exact Hrun. cbv zeta.
    erewrite bind_inr; [done|]. apply handle_run.
    by rewrite as_completed_Permutation.
  - by rewrite as_completed_Permutation.
  - simpl. by rewrite Hst.
  - intros url Hin. apply Hsto. by rewrite <- (as_completed_Permutation env).
Qed.

(** ** The batch when the calls run one after another *)

Lemma oblivious_ret {A} (a : A) : oblivious (mret a).
Proof. done. Qed.

Lemma oblivious_raise {A} e : oblivious (raise e : M A).
Proof. done. Qed.

Lemma oblivious_bind {A B} (m : M A) (k : A → M B) :
  oblivious m → (∀ a, oblivious (k a)) → oblivious (m ≫= k).
Proof.
  intros Hm Hk w lines. unfold mbind, M_bind. rewrite Hm.
  destruct (m w) as [[e|a] w1]; simpl; [done|]. apply Hk.
Qed.

Lemma oblivious_fs_do env op : oblivious (fs_do env op).
Proof.
  intros w lines. unfold fs_do. simpl.
  by destruct (if disk_ok env (trace w) op then fs_apply op (fs w) else None).
Qed.

Lemma oblivious_write_chunks env tmp chunks complete :
  oblivious (write_chunks env tmp chunks complete).
Proof.
  induction chunks as [|chunk rest IH]; simpl.
  - destruct complete; [apply oblivious_ret|apply oblivious_raise].
  - apply oblivious_bind; [|done].
    case_bool_decide; [apply oblivious_fs_do|apply oblivious_ret].
Qed.

Lemma oblivious_download env url dest : oblivious (_download_one env url dest).
Proof.
  unfold _download_one. apply oblivious_bind; [done|]. intros [|].
  { apply oblivious_ret. }
  apply oblivious_bind; [done|]. intros [|status chunks complete].
  { apply oblivious_raise. }
  apply oblivious_bind.
  { unfold raise_for_status. destruct (is_error_status status);
      [apply oblivious_raise|apply oblivious_ret]. }
  intros _. apply oblivious_bind; [apply oblivious_fs_do|]. intros _.
  apply oblivious_bind; [apply oblivious_write_chunks|]. intros _.
  apply oblivious_fs_do.
Qed.

Lemma drain_queued env out_dir images w outcomes w2 lines :
  drain env out_dir ((λ url, (url, Queued)) <$> images) w = (outcomes, w2) →
  dispatch env out_dir images (add_log w lines)
  = (inr outcomes, add_log w2 (lines ++ failure_lines outcomes)).
Proof.
  revert w outcomes lines. induction images as [|url rest IH]; intros w outcomes lines H.
  - simpl in H. simplify_eq. by rewrite app_nil_r.
  - simpl in H. rewrite dispatch_cons.
    destruct (_download_one env url (dest_path env out_dir url) w) as [r w1] eqn:Hd.
    assert (_download_one env url (dest_path env out_dir url) (add_log w lines)
            = (r, add_log w1 lines)) as ->.
    { by rewrite oblivious_download, Hd. }
    destruct (drain env out_dir _ w1) as [outs w3] eqn:Hr. simplify_eq.
    rewrite failure_lines_cons. unfold after_transfer. simpl.
    destruct r as [exc|[]]; simpl.
    + rewrite add_log_app, (IH _ _ _ Hr). by rewrite <- app_assoc.
    + by rewrite (IH _ _ _ Hr).
Qed.

Lemma shuffle_nil {A} picks : shuffle picks ([] : list A) = [].
Proof. by destruct picks. Qed.

(** With the empty schedule, and no call finished before [main] waits, the
    dispatcher is the batch run call after call. *)
Lemma dispatcher_sequential env out_dir n images w :
  0 < n → schedule env = [] → finished_early env = 0%nat →
  dispatcher env out_dir n images w = dispatch env out_dir images w.
Proof.
  intros Hn Hsched Hearly.
  destruct (run_pool_spec env out_dir (Z.to_nat n) images w)
    as (finished & w2 & fetched & Hrun & _ & Hexc & _).
  unfold dispatcher. erewrite bind_inr by (by apply thread_pool_ok).
  erewrite bind_inr by exact Hrun. cbv zeta.
  assert (as_completed env finished = finished) as ->.
  { unfold as_completed. rewrite Hearly.
    change (take 0 finished) with ([] : list Outcome). by rewrite shuffle_nil. }
  erewrite bind_inr by (by apply handle_run).
  unfold run_pool in Hrun. rewrite Hsched in Hrun. simpl in Hrun.
  destruct (drain env out_dir _ w) as [late w3] eqn:Hd. simplify_eq.
  rewrite <- (add_log_nil w). by rewrite (drain_queued _ _ _ _ _ _ _ Hd).
Qed.

(** C5. With a pool of at least one worker, and whatever the schedule of
    the worker threads, the dispatcher ends normally with one outcome per
    URL of the input, the URLs of the outcomes being those of the input.
    No URL is requested more often than it occurs in the input; a URL whose
    destination is absent, and is neither the destination nor the marker of
    another URL, is requested, whatever happens to the other transfers.
    Every failure is logged, in the order in which [main] handled the
    results, and a URL whose outcome is a success has its file at the
    destination unless that path is the marker of a URL of the batch. *)
Theorem dispatcher_attempts_all env out_dir n images w :
  0 < n →
  NoDup images →
  ∃ outcomes w' fetched,
    dispatcher env out_dir n images w = (inr outcomes, w') ∧
    outcomes.*1 ≡ₚ images ∧
    length outcomes = length images ∧
    requests w' = requests w ++ (Get <$> fetched) ∧
    fetched ⊆+ images ∧
    (∀ url, url ∈ images → fs w !! dest_path env out_dir url = None →
            undisturbed env out_dir images url → url ∈ fetched) ∧
    stderr w' = stderr w ++ failure_lines outcomes ∧
    (∀ url, (url, inr ()) ∈ outcomes →
            (∀ v, v ∈ images →
                  dest_path env out_dir url
                  ≠ Pathlib.with_part_suffix (dest_path env out_dir v)) →
            is_Some (fs w' !! dest_path env out_dir url)).
Proof.
  intros Hn Hnd.
  destruct (dispatcher_run env out_dir n images w Hn)
    as (outcomes & w' & fetched & Hrun & Hurls & Hst & Hreq & Hsub & Hatt & Hsto).
  exists outcomes, w', fetched. split_and!; try done.
  - by rewrite <- Hurls, length_fmap.
  - by apply Hatt.
Qed.

(** ** [_login] and [main] *)

Lemma login_run env email password w :
  _login env email password w
  = (match server env (trace w) (Post login_url (login_form email password)) with
     | Served status chunks true =>
         if negb (status =? 200)
         then inl (RuntimeError ("Login failed with HTTP " +:+ pretty status))
         else if Text.contains "invalid" (Text.lower (concat_chunks chunks))
         then inl (RuntimeError "Login appears to have failed (credentials rejected)")
         else inr ()
     | _ => inl ConnectionError
     end,
     add_trace w [Net (Post login_url (login_form email password))]).
Proof.
  unfold _login, session_post.
  destruct (server env (trace w) (Post login_url (login_form email password)))
    as [|status chunks [|]] eqn:E.
  - erewrite bind_inl; [done|]. apply fetch_broken. intros ??. by rewrite E.
  - erewrite bind_inr by (by apply fetch_served). simpl.
    destruct (negb (status =? 200)); [done|].
    by destruct (Text.contains _ _).
  - erewrite bind_inl; [done|]. apply fetch_broken. intros ??. by rewrite E.
Qed.

Lemma main_unfold env args w :
  main env args w
  = match prelude env args w with
    | (inr _, w1) =>
        match _extract_image_urls env (album_url args) w1 with
        | (inr images, w2) => finish env args images w2
        | (inl e, w2) => (inl e, w2)
        end
    | (inl e, w1) => (inl e, w1)
    end.
Proof.
  unfold main, prelude, finish, mbind, M_bind.
  destruct (fs_do env (Mkdir (resolve env (output args))) w) as [[e|[]] w0]; [done|].
  destruct (truthy (email args) && truthy (password args)).
  - destruct (_log SigningIn w0) as [[e|[]] w0']; [done|].
    destruct (_login env _ _ w0') as [[e|[]] w1]; [done|].
    destruct (_log Scanning w1) as [[e|[]] w1']; [done|].
    destruct (_extract_image_urls env (album_url args) w1') as [[e|images] w2];
      [done|]. by destruct images.
  - unfold mret, M_ret.
    destruct (_log Scanning w0) as [[e|[]] w1']; [done|].
    destruct (_extract_image_urls env (album_url args) w1') as [[e|images] w2];
      [done|]. by destruct images.
Qed.




Lemma log_run msg w : _log msg w = (inr (), add_log w [msg]).
Proof. done. Qed.



(** C6 (amended). The sign-in succeeds exactly when the answer is complete,
    its status is 200 and its text, in lower case, does not contain
    [invalid].  When the status is 200 and the text contains
    [invalid password] in any case, the sign-in raises, and a run of [main]
    with these credentials ends with that error in the world the sign-in
    request left: no page is fetched and nothing is downloaded. *)
Theorem authenticator_contract env e p w :
  let reply := server env (trace w) (Post login_url (login_form e p)) in
  ((_login env e p w).1 = inr () ↔
     ∃ chunks, reply = Served 200 chunks true ∧
               Text.contains "invalid" (Text.lower (concat_chunks chunks)) = false) ∧
  ∀ chunks,
    reply = Served 200 chunks true →
    Text.contains "invalid password" (Text.lower (concat_chunks chunks)) = true →
    (∃ msg, (_login env e p w).1 = inl (RuntimeError msg)) ∧
    ∀ args w_start w0,
      email args = Some e → password args = Some p → e ≠ "" → p ≠ "" →
      fs_do env (Mkdir (resolve env (output args))) w_start = (inr (), w0) →
      w = add_log w0 [SigningIn] →
      ∃ msg,
        main env args w_start
        = (inl (RuntimeError msg),
           add_trace w [Net (Post login_url (login_form e p))]) ∧
        exit_status (main env args w_start).1 = 1.
Proof.
  intros reply. rewrite login_run. fold reply. simpl. split.
  - destruct reply as [|status chunks [|]]; [split; [done|by intros (? & ? & _)]| |
      split; [done|by intros (? & ? & _)]].
    destruct (status =? 200) eqn:Hst; simpl.
    + apply Z.eqb_eq in Hst as ->.
      destruct (Text.contains "invalid" (Text.lower (concat_chunks chunks))) eqn:Hc.
      * split; [done|]. intros (c & [= <-] & ?). congruence.
      * split; [eauto|done].
    + split; [done|]. intros (c & [= -> _] & _). done.
  - intros chunks Hr Hc.
    assert (Text.contains "invalid" (Text.lower (concat_chunks chunks)) = true) as Hi.
    { by apply (contains_app "invalid" " password"). }
    split; [rewrite Hr; simpl; rewrite Hi; eauto|].
    intros args w_start w0 He Hp Hne Hnp Hmk ->.
    assert (prelude env args w_start
            = (inl (RuntimeError "Login appears to have failed (credentials rejected)"),
               add_trace (add_log w0 [SigningIn])
                 [Net (Post login_url (login_form e p))])) as Hpre.
    { unfold prelude. erewrite bind_inr by exact Hmk.
      apply bind_inl. rewrite He, Hp. simpl.
      rewrite !bool_decide_eq_true_2 by done. simpl.
      erewrite bind_inr by apply log_run.
      rewrite login_run. unfold reply in Hr. rewrite Hr. simpl. by rewrite Hi. }
    eexists. rewrite main_unfold, Hpre. done.
Qed.

(** ** All attributes of an image element *)


(** ** Destination paths without a name *)

Lemma joinpath_app d n :
  ∃ x, Pathlib.joinpath d n = d +:+ x ∧ (x = "" → n = "").
Proof.
  unfold Pathlib.joinpath. case_bool_decide as Hn.
  - exists "". by rewrite string_app_nil_r.
  - destruct (Text.ends_with_char "/" d).
    + by exists n.
    + exists ("/" +:+ n). split; [done|]. intros [=].
Qed.

Lemma name_unnamed p :
  Forall (λ seg, seg = "" ∨ seg = ".") (Text.split "/" p) → Pathlib.name p = "".
Proof.
  intros H. unfold Pathlib.name, Pathlib.parts.
  induction H as [|seg l Hseg _ IH]; [done|].
  rewrite filter_cons_False by (intros [? ?]; by destruct Hseg). done.
Qed.




(** * Concrete runs *)

(** C1. On this album the resolver returns the image URL found by the
    thumbnail traversal with its query string: the traversal adds the
    absolute URL as it is, where the direct extraction cuts it at the first
    question mark ([tier1_no_query]). *)
Theorem traversal_keeps_query :
  (_extract_image_urls traversal_env Demo.album Demo.empty_world).1
  = inr ["https://cdn.fotoshare.co/full/a.jpg?sig=1"] ∧
  Text.has_char "?" "https://cdn.fotoshare.co/full/a.jpg?sig=1" = true.
Proof. split; vm_compute; reflexivity. Qed.

Lemma resolver_thumbnail_traversal_witness :
  ∃ out w',
    _extract_image_urls traversal_env Demo.album Demo.empty_world = (inr out, w') ∧
    requests w'
    = [Get Demo.album; Get "https://fotoshare.co/p/gone";
       Get "https://fotoshare.co/p/abc123"] ∧
    NoDup out.
Proof.
  destruct (resolver_thumbnail_traversal traversal_env Demo.album Demo.empty_world
              200 [traversal_album_page]) as [Hok _].
  - reflexivity.
  - reflexivity.
  - vm_compute. reflexivity.
  - destruct Hok as (out & w' & Hrun & Hreq & _ & Hnd & _).
    + intros href Hin.
      change (href ∈ ["/p/gone"; "/p/abc123"]) in Hin.
      apply elem_of_cons in Hin as [->|Hin]; [vm_compute; reflexivity|].
      apply elem_of_cons in Hin as [->|Hin]; [vm_compute; reflexivity|].
      by apply elem_of_nil in Hin.
    + exists out, w'. split; [exact Hrun|]. split; [exact Hreq|exact Hnd].
Defined.

Lemma resolver_direct_extraction_witness :
  ∃ out,
    _extract_image_urls scenario_env Demo.album Demo.empty_world
      = (inr out, add_trace Demo.empty_world [Net (Get Demo.album)]) ∧
    NoDup out.
Proof.
  destruct (resolver_direct_extraction scenario_env Demo.album Demo.empty_world
              200 [scenario_page]) as [Hok _].
  - reflexivity.
  - reflexivity.
  - vm_compute. discriminate.
  - destruct Hok as (out & Hrun & _ & Hnd & _).
    + intros s Hin.
      change (s ∈ ["https://site/full/a.jpg?x=1"; "thumb/b.png"]) in Hin.
      apply elem_of_cons in Hin as [->|Hin]; [vm_compute; reflexivity|].
      apply elem_of_cons in Hin as [->|Hin]; [vm_compute; reflexivity|].
      by apply elem_of_nil in Hin.
    + exists out. split; [exact Hrun|exact Hnd].
Defined.

(** C2, as stated, fails: the album page has a matching reference, the
    source of its image, and the resolver returns no sequence.  [urljoin]
    rejects the address (its host has an unmatched bracket) and the
    [ValueError] leaves the resolver. *)
Lemma resolver_rejected_reference :
  image_references (parse_html bracket_env bracket_page) = ["http://[/a.jpg"] ∧
  _is_image "http://[/a.jpg" = true ∧
  _extract_image_urls bracket_env Demo.album Demo.empty_world
  = (inl (ValueError "Invalid IPv6 URL"),
     add_trace Demo.empty_world [Net (Get Demo.album)]).
Proof. split_and!; vm_compute; reflexivity. Qed.

(** C7, as stated, fails: the photo page is fetched without error and
    contains an image element whose source matches the pattern, yet the page
    contributes no entry, because the first image element of the page is
    another one. *)
Lemma logo_first_page_gives_nothing :
  fetched_text (server logo_env [Net (Get Demo.album)]
                  (Get "https://fotoshare.co/p/abc123"))
  = Some logo_photo_page ∧
  image_references (parse_html logo_env logo_photo_page) = ["/full/a.jpg"] ∧
  _extract_image_urls logo_env Demo.album Demo.empty_world
  = (inr [],
     add_trace Demo.empty_world
       [Net (Get Demo.album); Net (Get "https://fotoshare.co/p/abc123")]).
Proof. split_and!; vm_compute; reflexivity. Qed.


Example download_writes_file :
  fs (_download_one photo_env photo_url "/album/a.jpg" album_world).2
  = {[ "/album" := Dir; "/album/a.jpg" := File "JFIFdata" ]}.
Proof. vm_compute. reflexivity. Qed.

Example download_leaves_marker :
  fs (_download_one broken_env photo_url "/album/a.jpg" album_world).2
  = {[ "/album" := Dir; "/album/a.jpg.part" := File "JFIF" ]}.
Proof. vm_compute. reflexivity. Qed.

Lemma download_idempotent_witness :
  _download_one photo_env photo_url "/album/a.jpg" resumed_world
    = (inr (), resumed_world) ∧
  let w1 := (_download_one photo_env photo_url "/album/a.jpg" album_world).2 in
  _download_one photo_env photo_url "/album/a.jpg" w1 = (inr (), w1).
Proof.
  split.
  - apply (proj1 (download_idempotent photo_env photo_url "/album/a.jpg" resumed_world)).
    vm_compute. eexists. reflexivity.
  - apply (proj2 (download_idempotent photo_env photo_url "/album/a.jpg" album_world)).
    vm_compute. reflexivity.
Defined.

Lemma download_atomic_witness :
  fs (_download_one broken_env photo_url "/album/a.jpg" album_world).2
    !! "/album/a.jpg" = None ∧
  (_download_one photo_env photo_url "/album/a.jpg" album_world).1 = inr ().
Proof.
  split.
  - refine (proj1 (proj1 (download_atomic broken_env photo_url "/album/a.jpg"
                            album_world _ _ (surjective_pairing _))
                         ConnectionError _)).
    vm_compute. reflexivity.
  - refine (proj1 (proj2 (download_atomic photo_env photo_url "/album/a.jpg"
                            album_world _ _ (surjective_pairing _)) _ _)).
    + vm_compute. reflexivity.
    + vm_compute. eexists. reflexivity.
Defined.

Example batch_outcomes :
  (dispatcher batch_env "/album" 4 ["https://site/full/gone.jpg"; photo_url]
     album_world).1
  = inr [("https://site/full/gone.jpg", inl (HTTPError 404)); (photo_url, inr ())].
Proof. vm_compute. reflexivity. Qed.

(** the same batch with two workers whose steps alternate, the first result
    being handled after the second *)
Example batch_interleaved :
  let env := Demo.scheduled batch_env [0; 1; 0; 1; 1; 1; 1; 1]%nat 2 [1; 0]%nat in
  let run := dispatcher env "/album" 2 ["https://site/full/gone.jpg"; photo_url]
               album_world in
  run.1 = inr [(photo_url, inr ()); ("https://site/full/gone.jpg", inl (HTTPError 404))] ∧
  requests run.2 = [Get "https://site/full/gone.jpg"; Get photo_url] ∧
  fs run.2 = {[ "/album" := Dir; "/album/a.jpg" := File "JFIFdata" ]} ∧
  stderr run.2 = [DownloadFailed "https://site/full/gone.jpg" (HTTPError 404)].
Proof. vm_compute. done. Qed.

Lemma dispatcher_attempts_all_witness :
  ∃ outcomes w',
    dispatcher batch_env "/album" 4 ["https://site/full/gone.jpg"; photo_url]
      album_world = (inr outcomes, w') ∧
    outcomes.*1 ≡ₚ ["https://site/full/gone.jpg"; photo_url] ∧
    stderr w' = failure_lines outcomes.
Proof.
  destruct (dispatcher_attempts_all batch_env "/album" 4
              ["https://site/full/gone.jpg"; photo_url] album_world)
    as (outcomes & w' & fetched & Hrun & Hurls & _ & _ & _ & _ & Hlog & _).
  - reflexivity.
  - apply (bool_decide_unpack _). vm_compute. exact I.
  - exists outcomes, w'. split; [exact Hrun|]. split; [exact Hurls|exact Hlog].
Defined.

(** C6, as stated, fails: status 204 is a success status and the empty body
    carries no rejection marker, yet the sign-in raises. *)
Lemma login_rejects_204 :
  is_success_status 204 = true ∧
  Text.contains "invalid" (Text.lower (concat_chunks [])) = false ∧
  (_login no_content_env "you@example.com" "SuperSecret" Demo.empty_world).1
  = inl (RuntimeError "Login failed with HTTP 204").
Proof. split_and!; vm_compute; reflexivity. Qed.

Lemma authenticator_contract_witness :
  exit_status (main rejecting_env credentials_args Demo.empty_world).1 = 1 ∧
  requests (main rejecting_env credentials_args Demo.empty_world).2 = [sign_in].
Proof.
  pose (w0 := {| fs := {[ "/album" := Dir ]}; trace := [Fs (Mkdir "/album")];
                 stderr := [] |}).
  destruct (proj2 (authenticator_contract rejecting_env "you@example.com"
                     "SuperSecret" (add_log w0 [SigningIn]))
              ["<p>Invalid Password</p>"]) as [_ Hmain].
  - reflexivity.
  - vm_compute. reflexivity.
  - destruct (Hmain credentials_args Demo.empty_world w0) as (msg & Hrun & Hexit).
    + reflexivity.
    + reflexivity.
    + discriminate.
    + discriminate.
    + vm_compute. reflexivity.
    + reflexivity.
    + split; [exact Hexit|]. rewrite Hrun. vm_compute. reflexivity.
Defined.


Example exit_zero_with_failed_transfers :
  let env := Demo.env [(Get Demo.album, Demo.page scenario_page)]
               [(scenario_page, [Demo.img [("src", "thumb/b.png")]])] in
  (dispatcher env "/album" 4 ["https://fotoshare.co/i/thumb/b.png"] album_world).1
  = inr [("https://fotoshare.co/i/thumb/b.png", inl ConnectionError)] ∧
  exit_status (main env public_args Demo.empty_world).1 = 0.
Proof. split; vm_compute; reflexivity. Qed.

(** the album page is fetched, and the resolver raises all the same:
    [urljoin] rejects the source of the image, and the exit status is 1 *)
Example exit_one_on_rejected_address :
  let w1 := (prelude bracket_env public_args Demo.empty_world).2 in
  fetch_error (server bracket_env (trace w1) (Get Demo.album)) = None ∧
  (_extract_image_urls bracket_env Demo.album w1).1
  = inl (ValueError "Invalid IPv6 URL") ∧
  exit_status (main bracket_env public_args Demo.empty_world).1 = 1.
Proof. split_and!; vm_compute; reflexivity. Qed.


Example root_url_run :
  let w' := (main root_env public_args Demo.empty_world).2 in
  requests w' = [Get Demo.album; Get "https://cdn.fotoshare.co/a.jpg"] ∧
  fs w' = {[ "/album" := Dir; "/album/a.jpg" := File "JFIF" ]} ∧
  (main root_env public_args Demo.empty_world).1 = inr ().
Proof. split_and!; vm_compute; reflexivity. Qed.



(** * Further properties *)

(** ** What a transfer requests and logs *)

Lemma fs_do_frame env op w :
  requests (fs_do env op w).2 = requests w ∧ stderr (fs_do env op w).2 = stderr w.
Proof.
  destruct (fs_do env op w) as [r w'] eqn:E.
  apply fs_do_inv in E as (Ht & Hs & _). split; [|done].
  by eapply requests_snoc_fs.
Qed.

Lemma write_chunks_frame env tmp chunks complete w :
  requests (write_chunks env tmp chunks complete w).2 = requests w ∧
  stderr (write_chunks env tmp chunks complete w).2 = stderr w.
Proof.
  revert w. induction chunks as [|chunk rest IH]; intros w; simpl.
  - by destruct complete.
  - unfold mbind, M_bind. case_bool_decide.
    + destruct (fs_do_frame env (WriteChunk tmp chunk) w) as [Hr Hs].
      destruct (fs_do env (WriteChunk tmp chunk) w) as [[e|[]] w1]; [done|].
      simpl in Hr, Hs. rewrite <- Hr, <- Hs. apply IH.
    + apply IH.
Qed.

Lemma store_frame env dest chunks complete w :
  requests (store env dest chunks complete w).2 = requests w ∧
  stderr (store env dest chunks complete w).2 = stderr w.
Proof.
  unfold store, mbind, M_bind.
  destruct (fs_do_frame env (OpenWb (Pathlib.with_part_suffix dest)) w) as [Hr1 Hs1].
  destruct (fs_do env (OpenWb (Pathlib.with_part_suffix dest)) w) as [[e|[]] w1];
    [done|]. simpl in Hr1, Hs1.
  destruct (write_chunks_frame env (Pathlib.with_part_suffix dest) chunks complete w1)
    as [Hr2 Hs2].
  destruct (write_chunks env (Pathlib.with_part_suffix dest) chunks complete w1)
    as [[e|[]] w2]; simpl in Hr2, Hs2; [simpl; split; congruence|].
  destruct (fs_do_frame env (Rename (Pathlib.with_part_suffix dest) dest) w2)
    as [Hr3 Hs3].
  destruct (fs_do env (Rename (Pathlib.with_part_suffix dest) dest) w2) as [[e|[]] w3];
    simpl in *; split; congruence.
Qed.

Lemma requests_add_get w url :
  requests (add_trace w [Net (Get url)]) = requests w ++ [Get url].
Proof. unfold requests. simpl. by rewrite omap_app. Qed.

(** the requests and the log of a transfer, whether or not the destination
    exists *)
Lemma download_frame env url dest w :
  requests (_download_one env url dest w).2
  = requests w ++ (if bool_decide (is_Some (fs w !! dest)) then [] else [Get url]) ∧
  stderr (_download_one env url dest w).2 = stderr w.
Proof.
  case_bool_decide as Hd.
  { rewrite download_skip by done. simpl. by rewrite app_nil_r. }
  rewrite download_absent by (by apply eq_None_not_Some).
  destruct (server env (trace w) (Get url)) as [|status chunks complete].
  - split; [apply requests_add_get|done].
  - destruct (is_error_status status).
    + split; [apply requests_add_get|done].
    + destruct (store_frame env dest chunks complete (add_trace w [Net (Get url)]))
        as [-> ->].
      split; [apply requests_add_get|done].
Qed.

(** X1. A transfer whose destination is absent sends exactly one request,
    the GET of its URL, whether it succeeds or fails (there is no retry), and
    a transfer never writes to the log. *)
Theorem download_single_request env url dest w :
  fs w !! dest = None →
  requests (_download_one env url dest w).2 = requests w ++ [Get url] ∧
  stderr (_download_one env url dest w).2 = stderr w.
Proof.
  intros Hd. destruct (download_frame env url dest w) as [Hr Hs].
  rewrite bool_decide_eq_false_2 in Hr by (rewrite Hd; by intros [? ?]).
  by split.
Qed.

Lemma download_single_request_witness :
  requests (_download_one broken_env photo_url "/album/a.jpg" album_world).2
  = [Get photo_url].
Proof.
  refine (proj1 (download_single_request broken_env photo_url "/album/a.jpg"
                   album_world _)).
  vm_compute. reflexivity.
Defined.

(** ** Transfers on a disk that does not fail *)

Lemma world_eta w : {| fs := fs w; trace := trace w; stderr := stderr w |} = w.
Proof. by destruct w. Qed.

(** The loop over the body when no write fails: every non-empty chunk is
    appended to the marker, and the loop ends with the transport error when
    the body breaks off. *)
Lemma write_chunks_reliable env tmp chunks complete w c :
  reliable env →
  fs w !! tmp = Some (File c) →
  write_chunks env tmp chunks complete w
  = (if complete then inr () else inl ConnectionError,
     {| fs := <[tmp := File (c +:+ concat_chunks chunks)]> (fs w);
        trace := trace w ++ chunk_writes tmp chunks;
        stderr := stderr w |}).
Proof.
  intros Hdisk. revert w c. induction chunks as [|chunk rest IH]; intros w c Hc.
  - simpl. unfold chunk_writes. simpl.
    rewrite string_app_nil_r, app_nil_r, insert_id, world_eta by done.
    by destruct complete.
  - simpl. unfold mbind, M_bind. case_bool_decide as Hne.
    + unfold fs_do. rewrite Hdisk. simpl. rewrite Hc.
      erewrite IH by (simpl; apply lookup_insert_eq). simpl.
      rewrite insert_insert_eq, string_app_assoc, <- app_assoc.
      unfold chunk_writes. by rewrite filter_cons_True.
    + subst chunk. simpl. erewrite IH by done.
      unfold chunk_writes. rewrite filter_cons_False by (by intros []). done.
Qed.

(** X2. On a disk that does not fail, when the destination is absent, the
    marker is not a directory and the URL is answered completely with a
    non-error status, the transfer succeeds: the destination holds the whole
    body, the marker is gone (a marker left by an earlier run is overwritten,
    not resumed), and the events are the request, the opening of the marker,
    one write per non-empty chunk and the rename. *)
Theorem download_succeeds env url dest w status chunks :
  reliable env →
  fs w !! dest = None →
  fs w !! Pathlib.with_part_suffix dest ≠ Some Dir →
  server env (trace w) (Get url) = Served status chunks true →
  is_error_status status = false →
  let tmp := Pathlib.with_part_suffix dest in
  _download_one env url dest w
  = (inr (),
     {| fs := <[dest := File (concat_chunks chunks)]> (delete tmp (fs w));
        trace := trace w ++ Net (Get url) :: Fs (OpenWb tmp)
                         :: chunk_writes tmp chunks ++ [Fs (Rename tmp dest)];
        stderr := stderr w |}).
Proof.
  intros Hdisk Hd Htmp Hreply Hst tmp.
  rewrite download_absent, Hreply, Hst by done.
  unfold store. fold tmp. unfold mbind at 1, M_bind, fs_do at 1.
  rewrite Hdisk. simpl.
  assert (match fs w !! tmp with
          | Some Dir => None
          | _ => Some (<[tmp := File ""]> (fs w))
          end = Some (<[tmp := File ""]> (fs w))) as ->.
  { fold tmp in Htmp. by destruct (fs w !! tmp) as [[|?]|]. }
  unfold mbind at 1, M_bind.
  erewrite write_chunks_reliable by (done || simpl; apply lookup_insert_eq).
  unfold fs_do. rewrite Hdisk. simpl.
  rewrite string_app_nil_l, insert_insert_eq, lookup_insert_eq.
  rewrite lookup_insert_ne, Hd by apply part_suffix_ne.
  rewrite delete_insert_eq. do 2 f_equal.
  rewrite <- !app_assoc. done.
Qed.

Lemma download_succeeds_witness :
  _download_one photo_env photo_url "/album/a.jpg" album_world
  = (inr (),
     {| fs := {[ "/album" := Dir; "/album/a.jpg" := File "JFIFdata" ]};
        trace := [Net (Get photo_url); Fs (OpenWb "/album/a.jpg.part");
                  Fs (WriteChunk "/album/a.jpg.part" "JFIF");
                  Fs (WriteChunk "/album/a.jpg.part" "data");
                  Fs (Rename "/album/a.jpg.part" "/album/a.jpg")];
        stderr := [] |}).
Proof.
  rewrite (download_succeeds photo_env photo_url "/album/a.jpg" album_world
             200 ["JFIF"; ""; "data"]).
  - vm_compute. reflexivity.
  - intros t op. reflexivity.
  - vm_compute. reflexivity.
  - vm_compute. discriminate.
  - reflexivity.
  - reflexivity.
Defined.

(** X3. When the body breaks off before its end and the disk does not fail,
    the transfer raises the transport error, the destination stays absent,
    and the marker holds the chunks received so far. *)
Theorem download_broken_body env url dest w status chunks :
  reliable env →
  fs w !! dest = None →
  fs w !! Pathlib.with_part_suffix dest ≠ Some Dir →
  server env (trace w) (Get url) = Served status chunks false →
  is_error_status status = false →
  let tmp := Pathlib.with_part_suffix dest in
  (_download_one env url dest w).1 = inl ConnectionError ∧
  fs (_download_one env url dest w).2
  = <[tmp := File (concat_chunks chunks)]> (fs w).
Proof.
  intros Hdisk Hd Htmp Hreply Hst tmp.
  assert (_download_one env url dest w
          = (inl ConnectionError,
             {| fs := <[tmp := File (concat_chunks chunks)]> (fs w);
                trace := trace w ++ Net (Get url) :: Fs (OpenWb tmp)
                                 :: chunk_writes tmp chunks;
                stderr := stderr w |})) as ->; [|done].
  rewrite download_absent, Hreply, Hst by done.
  unfold store. fold tmp. unfold mbind at 1, M_bind, fs_do at 1.
  rewrite Hdisk. simpl.
  assert (match fs w !! tmp with
          | Some Dir => None
          | _ => Some (<[tmp := File ""]> (fs w))
          end = Some (<[tmp := File ""]> (fs w))) as ->.
  { fold tmp in Htmp. by destruct (fs w !! tmp) as [[|?]|]. }
  unfold mbind at 1, M_bind.
  erewrite write_chunks_reliable by (done || simpl; apply lookup_insert_eq).
  simpl. by rewrite string_app_nil_l, insert_insert_eq, <- !app_assoc.
Qed.

Lemma download_broken_body_witness :
  fs (_download_one broken_env photo_url "/album/a.jpg" album_world).2
  = {[ "/album" := Dir; "/album/a.jpg.part" := File "JFIF" ]}.
Proof.
  destruct (download_broken_body broken_env photo_url "/album/a.jpg"
              album_world 200 ["JFIF"]) as [_ Hfs].
  - intros t op. reflexivity.
  - vm_compute. reflexivity.
  - vm_compute. discriminate.
  - reflexivity.
  - reflexivity.
  - rewrite Hfs. vm_compute. reflexivity.
Defined.

(** X4. When the URL cannot be reached or is answered with an error status,
    the transfer raises that error after its single request and the file
    system is as before: not even a marker is created. *)
Theorem download_refused env url dest w exc :
  fs w !! dest = None →
  refused (server env (trace w) (Get url)) = Some exc →
  _download_one env url dest w = (inl exc, add_trace w [Net (Get url)]).
Proof.
  intros Hd Hr. rewrite download_absent by done.
  destruct (server env (trace w) (Get url)) as [|status chunks complete];
    simpl in Hr.
  - by injection Hr as <-.
  - destruct (is_error_status status); [by injection Hr as <-|done].
Qed.

Lemma download_refused_witness :
  _download_one batch_env "https://site/full/gone.jpg" "/album/gone.jpg" album_world
  = (inl (HTTPError 404),
     add_trace album_world [Net (Get "https://site/full/gone.jpg")]).
Proof.
  apply download_refused.
  - vm_compute. reflexivity.
  - vm_compute. reflexivity.
Defined.

(** ** What a batch keeps, requests and reports *)







(** The same under every schedule: a call whose destination is such a path
    ends at its existence check, without a request, and the steps of the
    other calls do not touch the path. *)
Lemma batch_steps_keep env out_dir w0 p node x y :
  rtc (batch_step env out_dir) x y →
  (∀ url, url ∈ x.1.*1 →
          p ≠ Pathlib.with_part_suffix (dest_path env out_dir url)) →
  fs x.2 !! p = Some node ∧
  (∀ url s, (url, s) ∈ x.1 → dest_path env out_dir url = p →
            s = Queued ∨ s = Finished (inr ())) ∧
  (∃ fetched, requests x.2 = requests w0 ++ (Get <$> fetched) ∧
              ∀ u, u ∈ fetched → dest_path env out_dir u ≠ p) →
  fs y.2 !! p = Some node ∧
  (∀ url s, (url, s) ∈ y.1 → dest_path env out_dir url = p →
            s = Queued ∨ s = Finished (inr ())) ∧
  (∃ fetched, requests y.2 = requests w0 ++ (Get <$> fetched) ∧
              ∀ u, u ∈ fetched → dest_path env out_dir u ≠ p).
Proof.
  induction 1 as [x|x y z Hxy _ IH]; [done|]. intros Hm (Hp & Hq & fetched & Hr & Hf).
  pose proof (batch_step_frame _ _ _ _ Hxy) as (Hurls & _).
  apply IH; [by rewrite Hurls|]. clear IH.
  destruct Hxy as [pre v s post w s' w' Hu Hs]. simpl in *.
  destruct (step_facts _ _ _ _ _ _ _ Hu Hs)
    as (_ & Hreq & Hother & _ & Hcheck & _).
  assert (p ≠ Pathlib.with_part_suffix (dest_path env out_dir v)) as Htmp.
  { apply Hm. rewrite fmap_app, fmap_cons. apply elem_of_app. right. by left. }
  assert (∀ url t, (url, t) ∈ pre ++ post → dest_path env out_dir url = p →
                   t = Queued ∨ t = Finished (inr ())) as Hrest.
  { intros url t Ht. apply Hq.
    apply elem_of_app in Ht as [?|?]; apply elem_of_app; [by left|by right; right]. }
  destruct (decide (dest_path env out_dir v = p)) as [Hv|Hv].
  - assert (s = Queued) as ->.
    { destruct (Hq v s) as [->| ->]; [apply elem_of_app; right; by left|done..]. }
    destruct (Hcheck eq_refl) as [-> [[_ Hnone]|[-> _]]].
    { rewrite Hv, Hp in Hnone. done. }
    split_and!; [done| |by exists fetched].
    intros url t [Ht|[Ht|Ht]%elem_of_cons]%elem_of_app Hd.
    + apply (Hrest url); [apply elem_of_app; by left|done].
    + injection Ht as -> ->. by right.
    + apply (Hrest url); [apply elem_of_app; by right|done].
  - split_and!; [by rewrite Hother| |].
    + intros url t [Ht|[Ht|Ht]%elem_of_cons]%elem_of_app Hd.
      * apply (Hrest url); [apply elem_of_app; by left|done].
      * by simplify_eq.
      * apply (Hrest url); [apply elem_of_app; by right|done].
    + exists (fetched ++ match s with Requesting => [v] | _ => [] end). split.
      * rewrite Hreq, Hr, fmap_app, <- app_assoc. by destruct s.
      * intros u [Hu'|Hu']%elem_of_app; [by apply Hf|].
        destruct s; try by apply elem_of_nil in Hu'.
        by apply list_elem_of_singleton in Hu' as ->.
Qed.

(** the batch of the dispatcher, for a path that exists when it starts *)
Lemma dispatcher_keep env out_dir n images w p node :
  0 < n →
  fs w !! p = Some node →
  (∀ url, url ∈ images →
          p ≠ Pathlib.with_part_suffix (dest_path env out_dir url)) →
  ∃ outcomes w' fetched,
    dispatcher env out_dir n images w = (inr outcomes, w') ∧
    fs w' !! p = Some node ∧
    requests w' = requests w ++ (Get <$> fetched) ∧
    (∀ u, u ∈ fetched → dest_path env out_dir u ≠ p) ∧
    (∀ url, url ∈ images → dest_path env out_dir url = p →
            (url, inr ()) ∈ outcomes ∧ ∀ r, (url, r) ∈ outcomes → r = inr ()).
Proof.
  intros Hn Hp Hm. unfold dispatcher.
  erewrite bind_inr by (by apply thread_pool_ok).
  destruct (run_pool_steps env out_dir (Z.to_nat n) images w)
    as (finished & w' & jobs' & Hrun & Hsteps & Hall & Hfin).
  destruct (run_pool_spec env out_dir (Z.to_nat n) images w)
    as (finished' & w'' & fetched' & Hrun' & _ & Hexc & _).
  rewrite Hrun in Hrun'. injection Hrun' as <- <-.
  erewrite bind_inr by exact Hrun. cbv zeta.
  erewrite bind_inr
    by (apply handle_run; by rewrite as_completed_Permutation).
  assert (((λ url : string, (url, Queued)) <$> images).*1 = images) as Hinit.
  { rewrite <- list_fmap_compose. apply list_fmap_id. }
  destruct (batch_steps_keep env out_dir w p node _ _ Hsteps)
    as (Hp' & Hq & fetched & Hreq & Hf); simpl.
  { intros url Hin. apply Hm. by rewrite Hinit in Hin. }
  { split_and!; [done| |exists []; split; [by rewrite app_nil_r|]].
    - intros url s (? & [= _ ->] & _)%list_elem_of_fmap _. by left.
    - by intros u ?%elem_of_nil. }
  simpl in *.
  destruct (batch_steps_frame _ _ _ _ Hsteps) as (Hurls & _). simpl in Hurls.
  destruct (outcomes_of_finished jobs' Hall) as [_ Ho].
  eexists _, _, fetched. split_and!; [done|done|done|done|].
  intros url Hin Hd.
  assert (∀ r, (url, r) ∈ as_completed env finished ↔ (url, Finished r) ∈ jobs')
    as Hout.
  { intros r. by rewrite as_completed_Permutation, Hfin, Ho. }
  assert (url ∈ jobs'.*1) as Hj by (by rewrite Hurls, Hinit).
  apply list_elem_of_fmap in Hj as ([u s] & -> & Hj). simpl in *. split.
  - apply Hout. destruct (Hq u s Hj Hd) as [-> | ->]; [|done].
    by apply (proj1 (Forall_forall _ _) Hall) in Hj.
  - intros r Hr. apply Hout in Hr. by destruct (Hq u _ Hr Hd) as [?|[= ->]].
Qed.

(** X22. Whatever the schedule of the worker threads, the dispatcher never
    alters a path that exists when it starts, unless that path is the marker
    of one of its URLs: files downloaded earlier, and any other file of the
    directory, keep their content. *)
Theorem dispatcher_preserves_files env out_dir n images w p node :
  fs w !! p = Some node →
  (∀ url, url ∈ images →
          p ≠ Pathlib.with_part_suffix (dest_path env out_dir url)) →
  fs (dispatcher env out_dir n images w).2 !! p = Some node.
Proof.
  intros Hp Hm.
  destruct (decide (0 < n)) as [Hn|Hn].
  - destruct (dispatcher_keep env out_dir n images w p node Hn Hp Hm)
      as (outcomes & w' & fetched & -> & Hp' & _). done.
  - unfold dispatcher. by erewrite bind_inl by (apply thread_pool_error; lia).
Qed.

Lemma dispatcher_preserves_files_witness :
  let env := Demo.scheduled batch_env [0; 1; 0; 1; 1; 1; 1; 1]%nat 2 [1; 0]%nat in
  fs (dispatcher env "/album" 2 ["https://site/full/gone.jpg"; photo_url]
        resumed_world).2 !! "/album/a.jpg" = Some (File "old").
Proof.
  apply dispatcher_preserves_files.
  - vm_compute. reflexivity.
  - intros url Hurl. repeat (apply elem_of_cons in Hurl as [->|Hurl]).
    + vm_compute. discriminate.
    + vm_compute. discriminate.
    + by apply elem_of_nil in Hurl.
Defined.

(** X23. Whatever the schedule of the worker threads, a URL of the batch
    whose path has no named component is skipped when the output directory
    exists: its destination is the output directory itself, its outcome is
    a success, it is not requested, and the directory stays in place. *)
Theorem dispatcher_skips_unnamed env out_dir n images w url :
  0 < n →
  fs w !! out_dir = Some Dir →
  url ∈ images →
  Forall (λ seg, seg = "" ∨ seg = ".") (Text.split "/" (urlparse_path env url)) →
  dest_path env out_dir url = out_dir ∧
  ∃ outcomes w' fetched,
    dispatcher env out_dir n images w = (inr outcomes, w') ∧
    (url, inr ()) ∈ outcomes ∧
    (∀ r, (url, r) ∈ outcomes → r = inr ()) ∧
    requests w' = requests w ++ (Get <$> fetched) ∧
    (url ∉ fetched) ∧
    fs w' !! out_dir = Some Dir.
Proof.
  intros Hn Hdir Hin Hseg.
  assert (dest_path env out_dir url = out_dir) as Hdest.
  { unfold dest_path. rewrite name_unnamed by done. done. }
  split; [done|].
  destruct (dispatcher_keep env out_dir n images w out_dir Dir Hn Hdir)
    as (outcomes & w' & fetched & Hrun & Hp & Hreq & Hf & Hout).
  { intros v _. unfold dest_path.
    destruct (joinpath_app out_dir (Pathlib.name (urlparse_path env v)))
      as (x & -> & _).
    unfold Pathlib.with_part_suffix. rewrite string_app_assoc.
    intros Heq. symmetry in Heq. apply app_ne_self in Heq; [done|].
    by destruct x. }
  destruct (Hout url Hin Hdest) as [Hok Hall].
  exists outcomes, w', fetched. split_and!; try done.
  intros Hfetched. by apply (Hf url).
Qed.

Lemma dispatcher_skips_unnamed_witness :
  let env := Demo.scheduled root_env [1; 0; 1; 1]%nat 1 [0]%nat in
  ∃ outcomes,
    (dispatcher env "/album" 2 ["https://cdn.fotoshare.co/a.jpg"; root_url]
       album_world).1 = inr outcomes ∧
    (root_url, inr ()) ∈ outcomes.
Proof.
  destruct (dispatcher_skips_unnamed
              (Demo.scheduled root_env [1; 0; 1; 1]%nat 1 [0]%nat) "/album" 2
              ["https://cdn.fotoshare.co/a.jpg"; root_url] album_world root_url)
    as (_ & outcomes & w' & fetched & Hrun & Hok & _).
  - reflexivity.
  - vm_compute. reflexivity.
  - right. left.
  - vm_compute. repeat constructor.
  - exists outcomes. split; [by rewrite Hrun|exact Hok].
Defined.



Lemma dispatcher_frame env out_dir n images w :
  ∃ fetched,
    fetched ⊆+ images ∧
    requests (dispatcher env out_dir n images w).2 = requests w ++ (Get <$> fetched).
Proof.
  destruct (decide (0 < n)) as [Hn|Hn].
  - destruct (dispatcher_run env out_dir n images w Hn)
      as (outcomes & w' & fetched & Hrun & _ & _ & Hreq & Hsub & _).
    exists fetched. by rewrite Hrun.
  - exists []. split; [apply submseteq_nil_l|].
    unfold dispatcher. erewrite bind_inl by (apply thread_pool_error; lia).
    simpl. by rewrite app_nil_r.
Qed.

(** X7. Whatever the schedule of the worker threads, the requests of the
    dispatcher are GETs of URLs of its input, none of them sent more often
    than the URL occurs in the input: nothing else is requested, and no URL
    is retried. *)
Theorem dispatcher_requests env out_dir n images w :
  ∃ fetched,
    fetched ⊆+ images ∧
    requests (dispatcher env out_dir n images w).2 = requests w ++ (Get <$> fetched).
Proof. apply dispatcher_frame. Qed.

(** ** The resolver: failures, order, and what it leaves untouched *)

(** X8. When the album page cannot be fetched (no connection, a body that
    breaks off, or an error status) the resolver raises that error after its
    single request: no photo page is requested and nothing is logged. *)
Theorem resolver_album_failure env album_url w exc :
  fetch_error (server env (trace w) (Get album_url)) = Some exc →
  _extract_image_urls env album_url w
  = (inl exc, add_trace w [Net (Get album_url)]) ∧
  requests (_extract_image_urls env album_url w).2 = requests w ++ [Get album_url] ∧
  stderr (_extract_image_urls env album_url w).2 = stderr w.
Proof.
  intros He. rewrite (extract_album_failure env album_url w exc He).
  split_and!; [done| |done]. apply requests_add_get.
Qed.

Lemma resolver_album_failure_witness :
  _extract_image_urls missing_env Demo.album Demo.empty_world
  = (inl (HTTPError 404), add_trace Demo.empty_world [Net (Get Demo.album)]).
Proof.
  apply (resolver_album_failure missing_env Demo.album Demo.empty_world).
  vm_compute. reflexivity.
Defined.

(** X9. Whatever the pages contain and whichever case produced it, a list
    returned by the resolver is sorted and has no duplicates. *)
Theorem resolver_sorted_unique env album_url w out w' :
  _extract_image_urls env album_url w = (inr out, w') →
  StronglySorted String.le out ∧ NoDup out.
Proof.
  intros Hrun.
  destruct (extract_cases env album_url w)
    as [(exc & _ & H)|[(msg & H)|(X & lines & pages & H)]];
    rewrite H in Hrun; [done|done|].
  injection Hrun as <- _. split; [apply sorted_Sorted|apply sorted_NoDup].
Qed.

Lemma resolver_sorted_unique_witness :
  StronglySorted String.le
    ["https://fotoshare.co/i/thumb/b.png"; "https://site/full/a.jpg"] ∧
  NoDup ["https://fotoshare.co/i/thumb/b.png"; "https://site/full/a.jpg"].
Proof.
  apply (resolver_sorted_unique scenario_env Demo.album Demo.empty_world _
           (add_trace Demo.empty_world [Net (Get Demo.album)])).
  vm_compute. reflexivity.
Defined.

Lemma requests_add_gets w url (pages : list string) (lines : list LogLine) :
  requests (add_log (add_trace w (Net (Get url) :: ((λ l, Net (Get l)) <$> pages))) lines)
  = requests w ++ (Get <$> url :: pages).
Proof.
  unfold requests. simpl. rewrite omap_app. f_equal. simpl. f_equal.
  induction pages as [|l pages IH]; csimpl; [done|]. by f_equal.
Qed.

Lemma extract_frame env album_url w :
  fs (_extract_image_urls env album_url w).2 = fs w ∧
  ∃ pages,
    requests (_extract_image_urls env album_url w).2
    = requests w ++ (Get <$> album_url :: pages).
Proof.
  destruct (extract_cases env album_url w)
    as [(exc & He & H)|[(msg & H)|(X & lines & pages & H)]];
    rewrite H; simpl.
  - split; [done|]. exists []. by rewrite requests_add_get.
  - split; [done|]. exists []. by rewrite requests_add_get.
  - split; [done|]. exists pages. apply (requests_add_gets w album_url pages lines).
Qed.

(** X10. The resolver only reads: it leaves the file system as it is,
    every request it sends is a GET, the first of them for the album page,
    and when it raises it has requested the album page only and the
    exception is not a [SystemExit]. *)
Theorem resolver_read_only env album_url w :
  fs (_extract_image_urls env album_url w).2 = fs w ∧
  ∃ pages,
    requests (_extract_image_urls env album_url w).2
    = requests w ++ (Get <$> album_url :: pages) ∧
    ∀ exc, (_extract_image_urls env album_url w).1 = inl exc →
           pages = [] ∧ is_Exception exc = true.
Proof.
  destruct (extract_cases env album_url w)
    as [(exc & He & H)|[(msg & H)|(X & lines & pages & H)]];
    rewrite H; simpl.
  - split; [done|]. exists []. split; [by rewrite requests_add_get|].
    intros ? [= <-]. split; [done|]. by eapply fetch_error_Exception.
  - split; [done|]. exists []. split; [by rewrite requests_add_get|].
    by intros ? [= <-].
  - split; [done|]. exists pages. split; [|done].
    apply (requests_add_gets w album_url pages lines).
Qed.

(** X11. An album page that is fetched but has neither a matching reference
    nor a permalink anchor gives the empty list: the resolver returns
    normally after its single request, and the caller decides. *)
Theorem resolver_empty_page env album_url w status chunks :
  server env (trace w) (Get album_url) = Served status chunks true →
  is_error_status status = false →
  image_references (parse_html env (concat_chunks chunks)) = [] →
  thumb_links env album_url (parse_html env (concat_chunks chunks)) = [] →
  _extract_image_urls env album_url w
  = (inr [], add_trace w [Net (Get album_url)]).
Proof.
  intros Hs Hst Hrefs Hlinks.
  rewrite (extract_tier2 env album_url w status chunks) by done.
  apply fmap_nil_inv in Hlinks. unfold case2_links. rewrite Hlinks. simpl.
  unfold mbind, M_bind, mret, M_ret, sorted. simpl. by rewrite elements_empty.
Qed.

Lemma resolver_empty_page_witness :
  _extract_image_urls
    (Demo.env [(Get Demo.album, Demo.page "<p>Nothing here yet</p>")] [])
    Demo.album Demo.empty_world
  = (inr [], add_trace Demo.empty_world [Net (Get Demo.album)]).
Proof.
  apply (resolver_empty_page _ Demo.album Demo.empty_world 200
           ["<p>Nothing here yet</p>"]).
  - reflexivity.
  - reflexivity.
  - vm_compute. reflexivity.
  - vm_compute. reflexivity.
Defined.




(** X13. When the album page has a matching reference and [urljoin]
    accepts every matching reference, the resolver returns and no URL of the
    result contains a question mark. *)
Theorem resolver_direct_no_query env album_url w status chunks :
  server env (trace w) (Get album_url) = Served status chunks true →
  is_error_status status = false →
  image_references (parse_html env (concat_chunks chunks)) ≠ [] →
  (∀ s, s ∈ image_references (parse_html env (concat_chunks chunks)) →
        urljoin_error env album_url s = None) →
  ∃ out w',
    _extract_image_urls env album_url w = (inr out, w') ∧
    Forall (λ u, Text.has_char "?" u = false) out.
Proof.
  intros Hs Hst Hne Hok. eexists _, _. split.
  - by apply (extract_tier1 env album_url w status chunks Hs Hst).
  - apply Forall_forall. intros u Hu. apply elem_of_sorted in Hu.
    by eapply tier1_no_query.
Qed.

Lemma resolver_direct_no_query_witness :
  ∃ out w',
    _extract_image_urls scenario_env Demo.album Demo.empty_world = (inr out, w') ∧
    Forall (λ u, Text.has_char "?" u = false) out.
Proof.
  apply (resolver_direct_no_query scenario_env Demo.album Demo.empty_world
           200 [scenario_page]).
  - reflexivity.
  - reflexivity.
  - vm_compute. discriminate.
  - intros s Hin.
    change (s ∈ ["https://site/full/a.jpg?x=1"; "thumb/b.png"]) in Hin.
    apply elem_of_cons in Hin as [->|Hin]; [vm_compute; reflexivity|].
    apply elem_of_cons in Hin as [->|Hin]; [vm_compute; reflexivity|].
    by apply elem_of_nil in Hin.
Defined.

(** ** What the thumbnail traversal logs *)

Lemma traversal_lines_length env t links :
  (length (traversal_lines env t links) ≤ length links)%nat.
Proof.
  revert t. induction links as [|tlink rest IH]; intros t; simpl; [done|].
  rewrite List.length_app. specialize (IH (t ++ [Net (Get tlink)])).
  destruct (inspect_error env tlink (server env t (Get tlink))); simpl; lia.
Qed.

Lemma elem_of_traversal_lines env t links line :
  line ∈ traversal_lines env t links ↔
  ∃ i tlink exc,
    links !! i = Some tlink ∧
    inspect_error env tlink
      (server env (t ++ ((λ l, Net (Get l)) <$> take i links)) (Get tlink))
    = Some exc ∧
    line = CouldNotInspect tlink exc.
Proof.
  revert t. induction links as [|tlink rest IH]; intros t; simpl.
  - split; [by intros ?%elem_of_nil|]. by intros (i & l & e & ? & _).
  - rewrite elem_of_app, IH. clear IH. split.
    + intros [Hin|(i & l & e & Hi & He & ->)].
      * destruct (inspect_error env tlink (server env t (Get tlink))) as [e|] eqn:He;
          simpl in Hin; [|by apply elem_of_nil in Hin].
        apply list_elem_of_singleton in Hin as ->.
        exists 0%nat, tlink, e. simpl. by rewrite app_nil_r.
      * exists (S i), l, e. simpl. split; [done|]. split; [|done].
        by rewrite <- app_assoc in He.
    + intros (i & l & e & Hi & He & ->). destruct i as [|i]; simpl in *.
      * injection Hi as ->. rewrite app_nil_r in He. left.
        rewrite He. simpl. by left.
      * right. exists i, l, e. split; [done|]. split; [|done].
        by rewrite <- app_assoc.
Qed.

(** X14. When the resolver falls back to the thumbnail traversal and
    [urljoin] accepts the address of every permalink anchor, it logs exactly
    the photo pages whose inspection ended with an exception, each with that
    exception: the fetch failed, or [urljoin] rejected the source of the
    page's first image.  Nothing is logged for the other pages, whether or
    not they had an image; there are never more lines than pages. *)
Theorem resolver_traversal_log env album_url w status chunks :
  server env (trace w) (Get album_url) = Served status chunks true →
  is_error_status status = false →
  image_references (parse_html env (concat_chunks chunks)) = [] →
  (∀ href, href ∈ permalinks env (parse_html env (concat_chunks chunks)) →
           urljoin_error env album_url href = None) →
  let links := thumb_links env album_url (parse_html env (concat_chunks chunks)) in
  let reply_at (i : nat) (tlink : string) :=
    server env (trace w ++ Net (Get album_url) :: ((λ l, Net (Get l)) <$> take i links))
           (Get tlink) in
  ∃ lines,
    stderr (_extract_image_urls env album_url w).2 = stderr w ++ lines ∧
    (length lines ≤ length links)%nat ∧
    ∀ line, line ∈ lines ↔
            ∃ i tlink exc,
              links !! i = Some tlink ∧
              inspect_error env tlink (reply_at i tlink) = Some exc ∧
              line = CouldNotInspect tlink exc.
Proof.
  intros Hs Hst Hrefs Hok links reply_at.
  rewrite (extract_tier2 env album_url w status chunks) by done.
  destruct (case2_links_cases env album_url (parse_html env (concat_chunks chunks))
              (add_trace w [Net (Get album_url)]))
    as [[Hlinks _]|(href & msg & Hin & Hj & _)]; [|by rewrite Hok in Hj].
  erewrite bind_inr by exact Hlinks. fold links.
  destruct (tier2_run env links ∅ (add_trace w [Net (Get album_url)]))
    as (Y & Hrun & _).
  erewrite bind_inr by exact Hrun.
  exists (traversal_lines env (trace w ++ [Net (Get album_url)]) links).
  split_and!; [done|apply traversal_lines_length|].
  intros line. rewrite elem_of_traversal_lines. unfold reply_at.
  split; intros (i & l & e & Hi & He & ->); exists i, l, e;
    (split; [done|]); (split; [|done]).
  - by rewrite <- app_assoc in He.
  - by rewrite <- app_assoc.
Qed.

Lemma resolver_traversal_log_witness :
  ∃ lines,
    stderr (_extract_image_urls traversal_env Demo.album Demo.empty_world).2
    = lines ∧
    CouldNotInspect "https://fotoshare.co/p/gone" ConnectionError ∈ lines.
Proof.
  destruct (resolver_traversal_log traversal_env Demo.album Demo.empty_world
              200 [traversal_album_page]) as (lines & Hlog & _ & Hl).
  - reflexivity.
  - reflexivity.
  - vm_compute. reflexivity.
  - intros href Hin.
    change (href ∈ ["/p/gone"; "/p/abc123"]) in Hin.
    apply elem_of_cons in Hin as [->|Hin]; [vm_compute; reflexivity|].
    apply elem_of_cons in Hin as [->|Hin]; [vm_compute; reflexivity|].
    by apply elem_of_nil in Hin.
  - exists lines. split; [exact Hlog|]. apply Hl.
    exists 0%nat, "https://fotoshare.co/p/gone", ConnectionError.
    split; [reflexivity|]. split; [vm_compute; reflexivity|reflexivity].
Defined.

(** ** The sign-in and [main]: what is sent, and when *)

(** X15. The sign-in sends exactly one request, a POST to the login address
    with the fields [email] and [password], and changes nothing else,
    whether it succeeds or raises; when it raises, the error is a
    [RuntimeError] or the transport's error. *)
Theorem login_single_request env e p w :
  (_login env e p w).2 = add_trace w [Net (Post login_url [("email", e); ("password", p)])] ∧
  ((_login env e p w).1 = inr () ∨
   (∃ msg, (_login env e p w).1 = inl (RuntimeError msg)) ∨
   (_login env e p w).1 = inl ConnectionError).
Proof.
  rewrite login_run. split; [done|]. simpl.
  destruct (server env (trace w) (Post login_url (login_form e p)))
    as [|status chunks [|]]; [by right; right| |by right; right].
  destruct (negb (status =? 200)); [right; left; eauto|].
  destruct (Text.contains _ _); [right; left; eauto|by left].
Qed.

(** X16. When the output directory cannot be created, the run ends with
    that error at once: nothing is requested, no file is touched and nothing
    is logged. *)
Theorem main_mkdir_failure env args w exc w0 :
  fs_do env (Mkdir (resolve env (output args))) w = (inl exc, w0) →
  main env args w = (inl exc, w0) ∧
  requests w0 = requests w ∧ fs w0 = fs w ∧ stderr w0 = stderr w.
Proof.
  intros Hmk. split.
  - unfold main. by apply bind_inl.
  - apply fs_do_inv in Hmk as (Ht & Hs & [[? _]|[_ Hfs]]); [done|].
    split_and!; [|done..]. by eapply requests_snoc_fs.
Qed.

Lemma main_mkdir_failure_witness :
  main scenario_env public_args blocked_world
  = (inl (OSError (Mkdir "/album")),
     add_trace blocked_world [Fs (Mkdir "/album")]).
Proof.
  apply main_mkdir_failure. vm_compute. reflexivity.
Defined.

(** X17. Unless both the e-mail address and the password are given and not
    empty, the run is exactly the run without credentials: a lone address or
    a lone password is ignored, and no sign-in is attempted. *)
Theorem main_partial_credentials env args w :
  truthy (email args) && truthy (password args) = false →
  main env args w = main env (without_credentials args) w.
Proof.
  intros Hc. unfold main. simpl. by rewrite Hc.
Qed.

Lemma main_partial_credentials_witness :
  main scenario_env half_args Demo.empty_world
  = main scenario_env public_args Demo.empty_world.
Proof.
  apply (main_partial_credentials scenario_env half_args Demo.empty_world).
  reflexivity.
Defined.

Lemma prelude_requests env args w :
  ∃ posts,
    requests (prelude env args w).2 = requests w ++ posts ∧
    (posts = [] ∨
     ∃ e p, email args = Some e ∧ password args = Some p ∧
            posts = [Post login_url (login_form e p)]) ∧
    (truthy (email args) && truthy (password args) = false → posts = []).
Proof.
  unfold prelude. unfold mbind at 1, M_bind.
  destruct (fs_do_frame env (Mkdir (resolve env (output args))) w) as [Hr _].
  destruct (fs_do env (Mkdir (resolve env (output args))) w) as [[exc|[]] w0];
    simpl in Hr.
  { exists []. rewrite app_nil_r. simpl. eauto. }
  unfold mbind at 1, M_bind.
  destruct (truthy (email args) && truthy (password args)) eqn:Hc.
  - apply andb_true_iff in Hc as [He Hp].
    destruct (email args) as [e|]; [|done]. destruct (password args) as [p|]; [|done].
    exists [Post login_url (login_form e p)]. simpl.
    split; [|split; [right; eauto|done]].
    unfold mbind at 1, M_bind. rewrite log_run, login_run.
    destruct (match server env _ _ with Unreachable => _ | _ => _ end);
      simpl; unfold requests in *; simpl; rewrite omap_app, Hr; done.
  - exists []. rewrite app_nil_r. simpl. eauto.
Qed.

Lemma finish_requests env args images w :
  ∃ fetched,
    fetched ⊆+ images ∧
    requests (finish env args images w).2 = requests w ++ (Get <$> fetched).
Proof.
  destruct images as [|u l].
  { exists []. split; [done|]. simpl. by rewrite app_nil_r. }
  unfold finish. generalize (u :: l). intros imgs.
  erewrite bind_inr by apply log_run.
  destruct (dispatcher_frame env (resolve env (output args)) (workers args) imgs
              (add_log w [Found (length imgs)])) as (fetched & Hsub & Hr).
  exists fetched. split; [done|].
  unfold mbind, M_bind.
  by destruct (dispatcher env _ _ imgs _) as [[e|outs] w'].
Qed.

(** X18. Every request of a run is accounted for: the credentials are sent
    at most once, to the login address, before anything else, and not at
    all unless both are given; every other request is a GET. *)
Theorem main_requests env args w :
  ∃ posts gets,
    requests (main env args w).2 = requests w ++ posts ++ (Get <$> gets) ∧
    (posts = [] ∨
     ∃ e p, email args = Some e ∧ password args = Some p ∧
            posts = [Post login_url [("email", e); ("password", p)]]) ∧
    (truthy (email args) && truthy (password args) = false → posts = []).
Proof.
  destruct (prelude_requests env args w) as (posts & Hp & Hposts & Hnone).
  rewrite main_unfold.
  destruct (prelude env args w) as [[exc|[]] w1]; simpl in Hp.
  { exists posts, []. simpl. by rewrite app_nil_r. }
  destruct (extract_frame env (album_url args) w1) as (_ & pages & Hx).
  destruct (_extract_image_urls env (album_url args) w1) as [[exc|images] w2];
    simpl in Hx.
  { exists posts, (album_url args :: pages). simpl. by rewrite Hx, Hp, app_assoc. }
  destruct (finish_requests env args images w2) as (fetched & _ & Hf).
  exists posts, ((album_url args :: pages) ++ fetched).
  split; [|done]. by rewrite Hf, Hx, Hp, fmap_app, !app_assoc.
Qed.

(** ** Which links are followed *)

Lemma strip_prefix_spec p s r : Text.strip_prefix p s = Some r ↔ s = p +:+ r.
Proof.
  revert s. induction p as [|a p IH]; intros s; simpl.
  - rewrite string_app_nil_l. split; [by intros [= ->]|by intros ->].
  - destruct s as [|b s]; [by rewrite string_app_cons|].
    rewrite string_app_cons. destruct (Ascii.eqb a b) eqn:E.
    + apply Ascii.eqb_eq in E as ->. rewrite IH. split; [by intros ->|by intros [= ->]].
    + apply Ascii.eqb_neq in E. split; [done|]. by intros [= -> _].
Qed.

(** X19. The links the thumbnail traversal follows, when the comprehension
    that builds them returns: exactly the addresses of the anchors whose
    [href] contains [/p/] followed by a word character, made absolute
    against the album page.  A word character is a letter, a digit or the
    underscore in ASCII, or a character beyond ASCII that the class [\w]
    has.  Image elements and anchors without [href] are never followed. *)
Theorem followed_links env album_url soup w links w' :
  case2_links env album_url soup w = (inr links, w') →
  w' = w ∧
  ∀ u, u ∈ links ↔
       ∃ tag href pre rest,
         tag ∈ soup ∧ tag_name tag = "a" ∧ tag_get "href" tag = Some href ∧
         href = pre +:+ "/p/" +:+ rest ∧
         Text.word_here (unicode_word env) rest = true ∧
         u = urljoin env album_url href.
Proof.
  intros Hrun.
  destruct (case2_links_cases env album_url soup w)
    as [[H _]|(href & msg & _ & _ & H)]; rewrite H in Hrun; [|done].
  injection Hrun as <- <-. split; [done|]. intros u.
  unfold thumb_links, permalinks. rewrite list_elem_of_fmap. split.
  - intros (href & -> & (tag & Hin & Hf)%list_elem_of_omap).
    case_bool_decide as Hn; [|done].
    destruct (tag_get "href" tag) as [href'|] eqn:Hh; [|done].
    destruct (Text.search _ href') eqn:Hs; [|done].
    injection Hf as ->.
    apply search_spec in Hs as (pre & suf & -> & Hp).
    unfold Text.permalink_here in Hp.
    destruct (Text.strip_prefix "/p/" suf) as [rest|] eqn:Hsp; [|done].
    apply strip_prefix_spec in Hsp as ->.
    by exists tag, (pre +:+ "/p/" +:+ rest), pre, rest.
  - intros (tag & href & pre & rest & Hin & Hn & Hh & -> & Hc & ->).
    eexists. split; [done|]. apply list_elem_of_omap.
    exists tag. split; [done|]. rewrite bool_decide_eq_true_2, Hh by done.
    assert (Text.search (Text.permalink_here (unicode_word env))
              (pre +:+ "/p/" +:+ rest) = true) as ->; [|done].
    apply search_spec. exists pre, ("/p/" +:+ rest). split; [done|].
    unfold Text.permalink_here.
    by rewrite (proj2 (strip_prefix_spec "/p/" _ rest) eq_refl).
Qed.

Lemma followed_links_witness :
  "https://fotoshare.co/p/abc123"
  ∈ thumb_links traversal_env Demo.album
      [Demo.anchor "/p/gone"; Demo.anchor "/p/abc123"].
Proof.
  apply (proj2 (followed_links traversal_env Demo.album
                  [Demo.anchor "/p/gone"; Demo.anchor "/p/abc123"]
                  Demo.empty_world _ Demo.empty_world eq_refl)).
  exists (Demo.anchor "/p/abc123"), "/p/abc123", "", "abc123".
  split; [by right; left|]. by vm_compute.
Defined.

(** ** Running a batch again *)





(** The same under every schedule. *)
Lemma batch_steps_present env out_dir w x y :
  rtc (batch_step env out_dir) x y →
  (∀ u, u ∈ x.1.*1 → is_Some (fs w !! dest_path env out_dir u)) →
  x.2 = w ∧ (∀ u s, (u, s) ∈ x.1 → s = Queued ∨ s = Finished (inr ())) →
  y.2 = w ∧ (∀ u s, (u, s) ∈ y.1 → s = Queued ∨ s = Finished (inr ())).
Proof.
  induction 1 as [x|x y z Hxy _ IH]; [done|]. intros Hall [Hw Hq].
  pose proof (batch_step_frame _ _ _ _ Hxy) as (Hurls & _).
  apply IH; [by rewrite Hurls|]. clear IH.
  destruct Hxy as [pre v s post w1 s' w1' Hu Hs]. simpl in *. subst w1.
  destruct (step_facts _ _ _ _ _ _ _ Hu Hs) as (_ & _ & _ & _ & Hcheck & _).
  assert (s = Queued) as ->.
  { destruct (Hq v s) as [->| ->]; [apply elem_of_app; right; by left|done..]. }
  destruct (Hcheck eq_refl) as [-> [[_ Hnone]|[-> _]]].
  { destruct (Hall v) as [node Hnode]; [|congruence].
    rewrite fmap_app, fmap_cons. apply elem_of_app. right. by left. }
  split; [done|]. intros u t [Ht|[Ht|Ht]%elem_of_cons]%elem_of_app.
  - apply (Hq u). apply elem_of_app. by left.
  - injection Ht as -> ->. by right.
  - apply (Hq u). apply elem_of_app. by right; right.
Qed.

Lemma dispatcher_all_present env out_dir n images w :
  0 < n →
  (∀ u, u ∈ images → is_Some (fs w !! dest_path env out_dir u)) →
  ∃ outcomes,
    dispatcher env out_dir n images w = (inr outcomes, w) ∧
    outcomes ≡ₚ (λ u, (u, inr ())) <$> images.
Proof.
  intros Hn Hall.
  destruct (run_pool_steps env out_dir (Z.to_nat n) images w)
    as (finished & w' & jobs' & Hrun & Hsteps & Hdone & Hfin).
  assert (((λ url : string, (url, Queued)) <$> images).*1 = images) as Hinit.
  { rewrite <- list_fmap_compose. apply list_fmap_id. }
  destruct (batch_steps_present env out_dir w _ _ Hsteps) as [Hw Hq]; simpl.
  { by rewrite Hinit. }
  { split; [done|]. intros u s (? & [= _ ->] & _)%list_elem_of_fmap. by left. }
  simpl in *. subst w'.
  destruct (batch_steps_frame _ _ _ _ Hsteps) as (Hurls & _). simpl in Hurls.
  assert (outcomes_of jobs' = (λ u, (u, inr ())) <$> jobs'.*1) as Hout.
  { clear -Hq Hdone. induction jobs' as [|[u s] jobs IH]; [done|].
    apply Forall_cons in Hdone as [Hs Hdone].
    rewrite outcomes_of_cons, fmap_cons, fmap_cons. simpl.
    destruct (Hq u s) as [->| ->]; [by left|done|]. simpl. f_equal.
    apply IH; [done|]. intros u' s' Hin. apply (Hq u'). by right. }
  assert (as_completed env finished ≡ₚ (λ u, (u, inr ())) <$> images) as Hperm.
  { by rewrite as_completed_Permutation, Hfin, Hout, Hurls, Hinit. }
  exists (as_completed env finished). split; [|done].
  assert (Forall (λ o : Outcome, o.2 = inr ()) (as_completed env finished)) as Hok.
  { rewrite Hperm. apply Forall_fmap, Forall_true. done. }
  unfold dispatcher. erewrite bind_inr by (by apply thread_pool_ok).
  erewrite bind_inr by exact Hrun. cbv zeta.
  erewrite bind_inr.
  - done.
  - rewrite handle_run.
    + assert (failure_lines (as_completed env finished) = []) as ->;
        [|by rewrite add_log_nil].
      clear -Hok. induction Hok as [|[u r] l Hr _ IH]; [done|].
      rewrite failure_lines_cons, IH. simpl in Hr. by subst r.
    + eapply Forall_impl; [exact Hok|]. intros [u r] Hr e He. simpl in *. congruence.
Qed.

(** X24. Resuming under any schedule: when every transfer of the dispatcher
    succeeded, and no destination of the batch is the marker of a URL of the
    batch, running the dispatcher again from the world it left, however the
    worker threads are scheduled this time, changes nothing and requests
    nothing, and gives the same outcomes up to their order. *)
Theorem dispatcher_rerun env out_dir n images w outcomes w' :
  0 < n →
  dispatcher env out_dir n images w = (inr outcomes, w') →
  Forall (λ o, o.2 = inr ()) outcomes →
  (∀ u v, u ∈ images → v ∈ images →
          dest_path env out_dir u
          ≠ Pathlib.with_part_suffix (dest_path env out_dir v)) →
  ∀ picks early order,
    ∃ outcomes2,
      dispatcher (Demo.scheduled env picks early order) out_dir n images w'
      = (inr outcomes2, w') ∧
      outcomes2 ≡ₚ outcomes.
Proof.
  intros Hn Hrun Hok Hm picks early order.
  destruct (dispatcher_run env out_dir n images w Hn)
    as (outcomes' & w'' & fetched & Hrun' & Hurls & _ & _ & _ & _ & Hsto).
  rewrite Hrun in Hrun'. injection Hrun' as <- <-.
  assert (outcomes = (λ u, (u, inr ())) <$> outcomes.*1) as Hshape.
  { clear -Hok. induction Hok as [|[u r] l Hr _ IH]; [done|].
    simpl in Hr. subst r. rewrite !fmap_cons. simpl. by f_equal. }
  destruct (dispatcher_all_present (Demo.scheduled env picks early order)
              out_dir n images w' Hn) as (outcomes2 & Hrun2 & Hperm).
  - intros u Hu. apply Hsto; [|intros v Hv; by apply Hm].
    rewrite Hshape. apply list_elem_of_fmap. exists u. split; [done|].
    by rewrite Hurls.
  - exists outcomes2. split; [done|]. by rewrite Hperm, Hshape, Hurls.
Qed.

Lemma dispatcher_rerun_witness :
  let w' := (dispatcher photo_env "/album" 4 [photo_url] album_world).2 in
  ∃ outcomes2,
    dispatcher (Demo.scheduled photo_env [0; 0]%nat 1 [0]%nat) "/album" 4
      [photo_url] w' = (inr outcomes2, w') ∧
    outcomes2 ≡ₚ [(photo_url, inr ())].
Proof.
  apply (dispatcher_rerun photo_env "/album" 4 [photo_url] album_world).
  - reflexivity.
  - vm_compute. reflexivity.
  - repeat constructor.
  - intros u v Hu Hv.
    apply list_elem_of_singleton in Hu as ->.
    apply list_elem_of_singleton in Hv as ->.
    vm_compute. discriminate.
Defined.

(** ** The image-file pattern *)

(** X21. [_is_image] accepts exactly the strings in which, at some position,
    a dot is followed by [jpg], [jpeg], [png] or [gif] written in any mix of
    the forms that [re.I] takes for the same letter (upper and lower case,
    and for [i] also U+0130 and U+0131), and then by a question mark, by the
    end of the string, or by a newline that ends the string.  An extension
    followed by anything else, such as a fragment, does not count. *)
Theorem is_image_pattern s :
  _is_image s = true ↔
  ∃ pre ext rest,
    s = pre +:+ "." +:+ ext +:+ rest ∧
    Text.fold_case ext ∈ ["jpg"; "jpeg"; "png"; "gif"] ∧
    (rest = "" ∨ (∃ q, rest = String "?" q) ∨ rest = String Text.newline "").
Proof.
  rewrite is_image_spec.
  assert (∀ rest, Text.query_or_end rest = true ↔
                  rest = "" ∨ (∃ q, rest = String "?" q)
                  ∨ rest = String Text.newline "") as Hq.
  { intros [|c r]; simpl; [by split; [left|]|].
    rewrite orb_true_iff, andb_true_iff, bool_decide_eq_true. split.
    - intros [Hc|[Hc ->]].
      + apply Ascii.eqb_eq in Hc as ->. right; left. eauto.
      + apply Ascii.eqb_eq in Hc as ->. by right; right.
    - intros [?|[[q [= -> ->]]|[= -> ->]]]; [done|by left|by right]. }
  split; intros (pre & ext & rest & Hs & He & Hr); exists pre, ext, rest;
    (split_and!; [done..|]); by apply Hq.
Qed.

Lemma resolver_read_only_witness :
  requests (_extract_image_urls missing_env Demo.album Demo.empty_world).2
  = [Get Demo.album].
Proof.
  destruct (resolver_read_only missing_env Demo.album Demo.empty_world)
    as (_ & pages & Hreq & Hfail).
  destruct (Hfail (HTTPError 404)) as [-> _].
  - vm_compute. reflexivity.
  - exact Hreq.
Defined.

Lemma main_requests_witness :
  ∃ gets, requests (main scenario_env half_args Demo.empty_world).2 = Get <$> gets.
Proof.
  destruct (main_requests scenario_env half_args Demo.empty_world)
    as (posts & gets & Hreq & _ & Hnone).
  rewrite Hnone in Hreq.
  - exists gets. exact Hreq.
  - reflexivity.
Defined.
